(** * Unordered_Map.h: a shallow embedding and its verification

    The class template [Unordered_Map<Key, Value>] of [src/Unordered_Map.h]
    is a chained hash table whose nodes are threaded on one circular singly
    linked list closed by a sentinel ([Elist]); [buckets[i]] stores the node
    *before* the first node of bucket [i].

    Modelling decisions.
    - Memory is a finite map from addresses to cells.  A [Node*] is an
      [option nat], [None] being [nullptr].  Every container owns its cells,
      so every container value carries its own heap.
    - The sentinel is raw storage reinterpreted as a [Node]: only its
      [next_node] is ever written, so reading [cached] or [value] from it is
      undefined behaviour.
    - Member functions are computations in a state and error monad [M].  An
      exception carries the state in which it was thrown, so that "the
      container is unchanged on error" is a statement about the code.  A
      throw that leaves a [noexcept] function is [Terminate]
      ([std::terminate]); a null, dangling or uninitialised read, an index
      out of the bucket array and a remainder by zero are [Undefined].
    - Loops are fuelled by the number of allocated cells plus one: a walk
      that needs more has entered a cycle that does not contain the sentinel.
    - [size_t] is [nat]: every [size_t] the code computes counts live nodes
      or slots of an allocated array (or is twice such a count), far below
      the wrap-around of a machine word. [_size -= 1] is reached only after
      a node was found, so the subtraction never meets 0 in a well-formed
      container.
    - [_max_load_factor] is a rational: the code only compares it with
      integers.
    - [std::hash<Key>] and the equality of keys are parameters. *)

From Stdlib Require Import QArith.
From stdpp Require Import gmap list strings.
Close Scope Q_scope.

(** ** Exceptions *)

Inductive exn : Type :=
| invalid_argument (what : string)
| out_of_range (what : string).

(** The names the specification gives to the exceptions the code throws. *)
Definition InvalidState : exn :=
  invalid_argument "Impossible to find hash for zero-sized map".
Definition DuplicateKey : exn := invalid_argument "Key repeat".
Definition KeyNotFound : exn := out_of_range "No such key".
Definition InvalidArgument_reserve : exn :=
  invalid_argument "New size can't be less then the previous one".
Definition InvalidArgument_load_factor : exn :=
  invalid_argument "max_load_factor must be more then 0".

Abbreviation ptr := (option nat) (only parsing).

Section Unordered_Map.
Context {Key Value : Type} `{EqDecision Key}.
Variable hasher : Key → nat.

(** ** Data *)

Record Node : Type := mkNode {
  next_node : ptr;
  cached : nat;
  value : Key * Value
}.

(** What an address holds: the sentinel's raw storage, of which only the
    [next_node] field is initialised, or a constructed [Node]. *)
Inductive cell : Type :=
| sentinel_cell (next : ptr)
| node_cell (n : Node).

Definition cell_next (c : cell) : ptr :=
  match c with sentinel_cell q => q | node_cell n => next_node n end.

Definition cell_set_next (q : ptr) (c : cell) : cell :=
  match c with
  | sentinel_cell _ => sentinel_cell q
  | node_cell n => node_cell (mkNode q (cached n) (value n))
  end.

Record U_Map : Type := mkMap {
  heap : gmap nat cell;
  Elist : ptr;
  _size : nat;
  buckets_count : nat;
  buckets : option (list ptr);
  _max_load_factor : Q
}.

Definition set_heap (f : gmap nat cell → gmap nat cell) (m : U_Map) : U_Map :=
  mkMap (f (heap m)) (Elist m) (_size m) (buckets_count m) (buckets m)
        (_max_load_factor m).
Definition set_Elist (p : ptr) (m : U_Map) : U_Map :=
  mkMap (heap m) p (_size m) (buckets_count m) (buckets m)
        (_max_load_factor m).
Definition set_size (n : nat) (m : U_Map) : U_Map :=
  mkMap (heap m) (Elist m) n (buckets_count m) (buckets m)
        (_max_load_factor m).
Definition set_buckets_count (n : nat) (m : U_Map) : U_Map :=
  mkMap (heap m) (Elist m) (_size m) n (buckets m) (_max_load_factor m).
Definition set_buckets (b : option (list ptr)) (m : U_Map) : U_Map :=
  mkMap (heap m) (Elist m) (_size m) (buckets_count m) b
        (_max_load_factor m).
Definition set_max_load_factor (f : Q) (m : U_Map) : U_Map :=
  mkMap (heap m) (Elist m) (_size m) (buckets_count m) (buckets m) f.

(** ** The monad of member functions *)

Inductive outcome (A : Type) : Type :=
| Ret (a : A) (m : U_Map)
| Throw (e : exn) (m : U_Map)
| Terminate
| Undefined
| OutOfFuel.
Arguments Ret {A} a m.
Arguments Throw {A} e m.
Arguments Terminate {A}.
Arguments Undefined {A}.
Arguments OutOfFuel {A}.

Definition M (A : Type) : Type := U_Map → outcome A.

Definition ret {A} (a : A) : M A := λ m, Ret a m.

Definition bind {A B} (c : M A) (k : A → M B) : M B :=
  λ m, match c m with
       | Ret a m' => k a m'
       | Throw e m' => Throw e m'
       | Terminate => Terminate
       | Undefined => Undefined
       | OutOfFuel => OutOfFuel
       end.

Notation "x <- c ;; k" := (bind c (λ x, k))
  (at level 100, c at next level, right associativity).
Notation "c ;; k" := (bind c (λ _, k))
  (at level 100, right associativity).

Definition throw {A} (e : exn) : M A := λ m, Throw e m.
Definition undefined {A} : M A := λ _, Undefined.
Definition out_of_fuel {A} : M A := λ _, OutOfFuel.

(** A function declared [noexcept]: an exception that would leave it calls
    [std::terminate]. *)
Definition noexcept {A} (c : M A) : M A :=
  λ m, match c m with Throw _ _ => Terminate | r => r end.

Definition gets {A} (f : U_Map → A) : M A := λ m, Ret (f m) m.
Definition modify (f : U_Map → U_Map) : M unit := λ m, Ret tt (f m).

(** The loop bound: one more than the number of allocated cells. *)
Definition fuel_of (m : U_Map) : nat := S (base.size (heap m)).

(** *** Memory accesses *)

(** [*p] *)
Definition load (p : ptr) : M cell :=
  match p with
  | None => undefined
  | Some a => λ m, match heap m !! a with
                   | Some c => Ret c m
                   | None => Undefined
                   end
  end.

(** [p->next_node] *)
Definition get_next_node (p : ptr) : M ptr :=
  c <- load p ;; ret (cell_next c).

(** [p->cached] *)
Definition get_cached (p : ptr) : M nat :=
  c <- load p ;;
  match c with
  | sentinel_cell _ => undefined
  | node_cell n => ret (cached n)
  end.

(** [p->value] *)
Definition get_value (p : ptr) : M (Key * Value) :=
  c <- load p ;;
  match c with
  | sentinel_cell _ => undefined
  | node_cell n => ret (value n)
  end.

(** [p->next_node = q] *)
Definition set_next_node (p q : ptr) : M unit :=
  c <- load p ;;
  match p with
  | None => undefined
  | Some a => modify (set_heap (<[a := cell_set_next q c]>))
  end.

(** [p->cached = b] *)
Definition set_cached (p : ptr) (b : nat) : M unit :=
  c <- load p ;;
  match p, c with
  | Some a, node_cell n =>
      modify (set_heap (<[a := node_cell (mkNode (next_node n) b (value n))]>))
  | _, _ => undefined
  end.

(** [arr[i]] and [arr[i] = p] on an array of [Node*] *)
Definition array_get (arr : list ptr) (i : nat) : M ptr :=
  match arr !! i with Some p => ret p | None => undefined end.

Definition array_set (arr : list ptr) (i : nat) (p : ptr) : M (list ptr) :=
  if decide (i < length arr) then ret (<[i := p]> arr) else undefined.

(** [buckets[i]] and [buckets[i] = p] *)
Definition get_bucket (i : nat) : M ptr :=
  b <- gets buckets ;;
  match b with None => undefined | Some arr => array_get arr i end.

Definition set_bucket (i : nat) (p : ptr) : M unit :=
  b <- gets buckets ;;
  match b with
  | None => undefined
  | Some arr => arr' <- array_set arr i p ;; modify (set_buckets (Some arr'))
  end.

(** [new Node(value, cache)]: the constructor leaves [next_node]
    uninitialised; both callers assign it before reading it. *)
Definition new_Node (v : Key * Value) (cache : nat) : M ptr :=
  λ m, let a := fresh (dom (heap m)) in
       Ret (Some a) (set_heap (<[a := node_cell (mkNode None cache v)]>) m).

(** [delete p]: nothing for [nullptr], undefined for a pointer to no
    allocated cell. *)
Definition delete_Node (p : ptr) : M unit :=
  match p with
  | None => ret tt
  | Some a => c <- load p ;; modify (set_heap (delete a))
  end.

(** ** Construction *)

(** [__create_Elist], lines 262-265 *)
Definition __create_Elist (m : U_Map) : U_Map :=
  let s := fresh (dom (heap m)) in
  set_Elist (Some s) (set_heap (<[s := sentinel_cell (Some s)]>) m).

(** [Unordered_Map(size_t num_of_buckets = 10)], lines 119-125 *)
Definition Unordered_Map (num_of_buckets : nat) : U_Map :=
  __create_Elist
    (mkMap ∅ None 0 num_of_buckets (Some (replicate num_of_buckets None)) 1%Q).

(** [Unordered_Map(U_Map&& other)], lines 132-139: the new object and what is
    left of [other]. The cells go with the pointers to them. *)
Definition move_construct (other : U_Map) : U_Map * U_Map :=
  (mkMap (heap other) (Elist other) (_size other) (buckets_count other)
         (buckets other) (_max_load_factor other),
   mkMap ∅ None (_size other) (buckets_count other) None
         (_max_load_factor other)).

(** ** Iterators: [OwnIterator] wraps a [Node*] *)

(** [begin()], [end()] *)
Definition begin : M ptr := E <- gets Elist ;; get_next_node E.
Definition end_ : M ptr := gets Elist.

(** [operator*] and [operator++] *)
Definition deref (it : ptr) : M (Key * Value) := get_value it.
Definition incr (it : ptr) : M ptr := get_next_node it.

(** ** Private helpers *)

(** [__hash], lines 267-272 *)
Definition __hash (key : Key) : M nat :=
  n <- gets buckets_count ;;
  if decide (n = 0) then throw InvalidState
  else ret (hasher key `mod` n).

(** The loop of [__find_in_bucket], lines 277-282 *)
Fixpoint __find_in_bucket_loop (fuel : nat) (buck : nat) (key : Key)
    (node : ptr) : M bool :=
  match fuel with
  | 0 => out_of_fuel
  | S fuel =>
      E <- gets Elist ;;
      if decide (node = E) then ret false else
      c <- get_cached node ;;
      if decide (c = buck) then
        v <- get_value node ;;
        if decide (v.1 = key) then ret true
        else
          nx <- get_next_node node ;;
          __find_in_bucket_loop fuel buck key nx
      else ret false
  end.

(** [__find_in_bucket], lines 274-284 *)
Definition __find_in_bucket (buck : nat) (key : Key) : M bool :=
  noexcept (
    b <- get_bucket buck ;;
    if decide (b = None) then ret false else
    node <- get_next_node b ;;
    fuel <- gets fuel_of ;;
    __find_in_bucket_loop fuel buck key node).

(** The loop of [__find], lines 290-295 *)
Fixpoint __find_loop (fuel : nat) (buck : nat) (key : Key) (node : ptr)
    : M ptr :=
  match fuel with
  | 0 => out_of_fuel
  | S fuel =>
      E <- gets Elist ;;
      if decide (node = E) then ret E else
      c <- get_cached node ;;
      if decide (c = buck) then
        v <- get_value node ;;
        if decide (v.1 = key) then ret node
        else
          nx <- get_next_node node ;;
          __find_loop fuel buck key nx
      else ret E
  end.

(** [__find], lines 286-297 *)
Definition __find (key : Key) : M ptr :=
  noexcept (
    buck <- __hash key ;;
    b <- get_bucket buck ;;
    if decide (b = None) then gets Elist else
    node <- get_next_node b ;;
    fuel <- gets fuel_of ;;
    __find_loop fuel buck key node).

(** [__insert_in_empty_bucket], lines 299-306 *)
Definition __insert_in_empty_bucket (buck : nat) (insert_node : ptr)
    : M unit :=
  E <- gets Elist ;;
  en <- get_next_node E ;;
  set_next_node insert_node en ;;
  set_next_node E insert_node ;;
  set_bucket buck E ;;
  nn <- get_next_node insert_node ;;
  if decide (nn = E) then ret tt
  else c <- get_cached nn ;; set_bucket c insert_node.

(** [__insert_in_nonempty_bucket], lines 308-311 *)
Definition __insert_in_nonempty_bucket (buck : nat) (insert_node : ptr)
    : M unit :=
  b <- get_bucket buck ;;
  bn <- get_next_node b ;;
  set_next_node insert_node bn ;;
  b <- get_bucket buck ;;
  set_next_node b insert_node.

(** The loop of [__rehash], lines 322-341; [new_buckets] is the local array. *)
Fixpoint __rehash_loop (fuel : nat) (new_b_count : nat)
    (new_buckets : list ptr) (next : ptr) : M (list ptr) :=
  match fuel with
  | 0 => out_of_fuel
  | S fuel =>
      E <- gets Elist ;;
      if decide (next = E) then ret new_buckets else
      let node := next in
      next <- get_next_node node ;;
      v <- get_value node ;;
      if decide (new_b_count = 0) then undefined else
      let buck := hasher v.1 `mod` new_b_count in
      set_cached node buck ;;
      b <- array_get new_buckets buck ;;
      new_buckets <-
        (if decide (b = None) then
           en <- get_next_node E ;;
           set_next_node node en ;;
           set_next_node E node ;;
           new_buckets <- array_set new_buckets buck E ;;
           nn <- get_next_node node ;;
           if decide (nn = E) then ret new_buckets
           else c <- get_cached nn ;; array_set new_buckets c node
         else
           bn <- get_next_node b ;;
           set_next_node node bn ;;
           set_next_node b node ;;
           ret new_buckets) ;;
      __rehash_loop fuel new_b_count new_buckets next
  end.

(** [__rehash], lines 313-345 *)
Definition __rehash (new_b_count : nat) : M unit :=
  let new_buckets := replicate new_b_count None in
  E <- gets Elist ;;
  next <- get_next_node E ;;
  set_next_node E E ;;
  fuel <- gets fuel_of ;;
  new_buckets <- __rehash_loop fuel new_b_count new_buckets next ;;
  modify (set_buckets_count new_b_count) ;;
  modify (set_buckets (Some new_buckets)).

(** ** The operations of the specification *)

(** [insert(const std::pair<Key, Value>&)], lines 381-393 *)
Definition insert (v : Key * Value) : M ptr :=
  buck <- __hash v.1 ;;
  key_exist <- __find_in_bucket buck v.1 ;;
  if key_exist : bool then throw DuplicateKey else
  insert_node <- new_Node v buck ;;
  b <- get_bucket buck ;;
  (if decide (b = None) then __insert_in_empty_bucket buck insert_node
   else __insert_in_nonempty_bucket buck insert_node) ;;
  n <- gets _size ;;
  modify (set_size (n + 1)) ;;
  n <- gets _size ;;
  bc <- gets buckets_count ;;
  f <- gets _max_load_factor ;;
  (if Qle_bool f (inject_Z (Z.of_nat (n `div` bc)))
   then __rehash (bc * 2) else ret tt) ;;
  ret insert_node.

(** [before == Elist || before->cached != buck], lines 411 and 416 *)
Definition outside_bucket (buck : nat) (before : ptr) : M bool :=
  E <- gets Elist ;;
  if decide (before = E) then ret true
  else c <- get_cached before ;; ret (bool_decide (c ≠ buck)).

(** The loop of [erase], lines 407-425 *)
Fixpoint erase_loop (fuel : nat) (buck : nat) (key : Key)
    (before node : ptr) : M unit :=
  match fuel with
  | 0 => out_of_fuel
  | S fuel =>
      E <- gets Elist ;;
      if decide (node = E) then throw KeyNotFound else
      c <- get_cached node ;;
      if decide (c = buck) then
        v <- get_value node ;;
        if decide (v.1 = key) then
          nn <- get_next_node node ;;
          set_next_node before nn ;;
          nn <- get_next_node node ;;
          c1 <- (if decide (nn = E) then outside_bucket buck before
                 else ret false) ;;
          (if c1 : bool then set_bucket buck None
           else
             nn <- get_next_node node ;;
             c2 <- (if decide (nn = E) then ret false
                    else nc <- get_cached nn ;; ret (bool_decide (nc ≠ buck))) ;;
             if c2 : bool then
               nn <- get_next_node node ;;
               nc <- get_cached nn ;;
               set_bucket nc before ;;
               c3 <- outside_bucket buck before ;;
               if c3 : bool then set_bucket buck None else ret tt
             else ret tt) ;;
          delete_Node node ;;
          n <- gets _size ;;
          modify (set_size (n - 1))
        else
          nx <- get_next_node node ;;
          erase_loop fuel buck key node nx
      else throw KeyNotFound
  end.

(** [erase], lines 403-427 *)
Definition erase (key : Key) : M unit :=
  buck <- __hash key ;;
  before <- get_bucket buck ;;
  node <- get_next_node before ;;
  fuel <- gets fuel_of ;;
  erase_loop fuel buck key before node.

(** The loop of [clear], lines 439-444 *)
Fixpoint clear_loop (fuel : nat) (node : ptr) : M unit :=
  match fuel with
  | 0 => out_of_fuel
  | S fuel =>
      E <- gets Elist ;;
      if decide (node = E) then ret tt else
      let temp := node in
      node <- get_next_node node ;;
      c <- get_cached temp ;;
      set_bucket c None ;;
      delete_Node temp ;;
      clear_loop fuel node
  end.

(** [clear], lines 435-447 *)
Definition clear : M unit :=
  noexcept (
    E <- gets Elist ;;
    if decide (E = None) then ret tt else
    node <- get_next_node E ;;
    fuel <- gets fuel_of ;;
    clear_loop fuel node ;;
    set_next_node E E ;;
    modify (set_size 0)).

(** [reserve], lines 458-461 *)
Definition reserve (new_buckets_count : nat) : M unit :=
  bc <- gets buckets_count ;;
  if decide (new_buckets_count < bc) then throw InvalidArgument_reserve
  else __rehash new_buckets_count.

(** [max_load_factor() const], lines 474-476 *)
Definition max_load_factor_get : M Q := noexcept (gets _max_load_factor).

(** [max_load_factor(double f)], lines 486-489 *)
Definition max_load_factor (f : Q) : M unit :=
  if Qle_bool f 0 then throw InvalidArgument_load_factor
  else modify (set_max_load_factor f).

(** [size], [empty], [buckets_number], lines 496-517 *)
Definition size : M nat := noexcept (gets _size).
Definition empty : M bool := noexcept (n <- gets _size ;; ret (bool_decide (n = 0))).
Definition buckets_number : M nat := noexcept (gets buckets_count).

(** A read of [other], a second container, from a member function of
    [*this]: [other] is [const], only the value comes back. *)
Definition on_other {A} (other : U_Map) (c : M A) : M A :=
  λ m, match c other with
       | Ret a _ => Ret a m
       | Throw e _ => Throw e m
       | Terminate => Terminate
       | Undefined => Undefined
       | OutOfFuel => OutOfFuel
       end.

(** The inner loop of [operator==], lines 552-558: [th] is a node of
    [*this], [ot] a node of [other]. *)
Fixpoint operator_eq_inner (fuel : nat) (other : U_Map) (pos : nat)
    (th ot : ptr) : M bool :=
  match fuel with
  | 0 => out_of_fuel
  | S fuel =>
      oE <- on_other other (gets Elist) ;;
      if decide (ot = oE) then ret false else
      c <- on_other other (get_cached ot) ;;
      if decide (c = pos) then
        tv <- get_value th ;;
        ov <- on_other other (get_value ot) ;;
        if decide (tv.1 = ov.1) then ret true
        else
          ot <- on_other other (get_next_node ot) ;;
          operator_eq_inner fuel other pos th ot
      else ret false
  end.

(** The outer loop of [operator==], lines 547-561 *)
Fixpoint operator_eq_loop (fuel : nat) (other : U_Map) (th : ptr) : M bool :=
  match fuel with
  | 0 => out_of_fuel
  | S fuel =>
      E <- gets Elist ;;
      if decide (th = E) then ret true else
      pos <- get_cached th ;;
      b <- on_other other (get_bucket pos) ;;
      ot <- on_other other (get_next_node b) ;;
      ofuel <- on_other other (gets fuel_of) ;;
      find_ <- operator_eq_inner ofuel other pos th ot ;;
      if find_ : bool then
        th <- get_next_node th ;;
        operator_eq_loop fuel other th
      else ret false
  end.

(** [operator==], lines 543-563 *)
Definition operator_eq (other : U_Map) : M bool :=
  noexcept (
    n <- gets _size ;;
    on <- on_other other (gets _size) ;;
    if decide (n ≠ on) then ret false else
    E <- gets Elist ;;
    th <- get_next_node E ;;
    fuel <- gets fuel_of ;;
    operator_eq_loop fuel other th).

(** [operator!=], lines 572-574 *)
Definition operator_ne (other : U_Map) : M bool :=
  noexcept (b <- operator_eq other ;; ret (negb b)).

(** [contains], lines 584-587 *)
Definition contains (key : Key) : M bool :=
  noexcept (buck <- __hash key ;; __find_in_bucket buck key).

(** [find], lines 596-599 *)
Definition find (key : Key) : M ptr := __find key.

(** [operator[]], lines 623-630; it returns a reference to the value of the
    node, here the node. [Value()] is a parameter. *)
Definition operator_index (Value_default : Value) (key : Key) : M ptr :=
  it <- find key ;;
  e <- end_ ;;
  if decide (it = e) then insert (key, Value_default) else ret it.

(** [at], lines 640-644, likewise. *)
Definition at_ (key : Key) : M ptr :=
  node <- __find key ;;
  E <- gets Elist ;;
  if decide (node = E) then throw (out_of_range "map out of range")
  else ret node.

(** ** The rest of the interface

    Allocation never fails in this model: [std::bad_alloc] is left out. *)

(** [insert(const Key&, const Value&)], lines 365-368 *)
Definition insert_key_value (key : Key) (value : Value) : M ptr :=
  it <- insert (key, value) ;;
  ret it.

(** [cbegin()], [cend()], lines 250-257 *)
Definition cbegin : M ptr := E <- gets Elist ;; get_next_node E.
Definition cend : M ptr := gets Elist.

(** [operator++(int)], lines 720-724: the iterator it returns and the
    iterator it leaves. *)
Definition incr_post (it : ptr) : M (ptr * ptr) :=
  let temp := it in
  it <- get_next_node it ;;
  ret (temp, it).

(** [operator==] and [operator!=] of iterators, lines 735-750 *)
Definition iterator_eq (it other : ptr) : bool := bool_decide (it = other).
Definition iterator_ne (it other : ptr) : bool := bool_decide (it ≠ other).

(** What [show] sends to the stream: [out << v] for a value and for a
    string. Printing a value is taken not to throw. *)
Inductive token : Type :=
| out_value (v : Value)
| out_string (s : string).

(** The loop of [show], lines 528-531 *)
Fixpoint show_loop (fuel : nat) (out : list token) (node : ptr)
    : M (list token) :=
  match fuel with
  | 0 => out_of_fuel
  | S fuel =>
      E <- gets Elist ;;
      if decide (node = E) then ret out else
      v <- get_value node ;;
      let out := out ++ [out_value v.2; out_string " "] in
      node <- get_next_node node ;;
      show_loop fuel out node
  end.

(** [show], lines 526-534: [out] is what the stream holds. *)
Definition show (out : list token) : M (list token) :=
  noexcept (
    E <- gets Elist ;;
    node <- get_next_node E ;;
    fuel <- gets fuel_of ;;
    show_loop fuel out node).

(** [delete[] reinterpret_cast<int8_t*>(Elist)]: the storage of the
    sentinel is given back, the pointer keeps its value. *)
Definition delete_Elist : M unit :=
  E <- gets Elist ;;
  delete_Node E.

(** [delete[] buckets]: the array is gone; reading it afterwards is
    undefined, as reading through [nullptr] is. *)
Definition delete_buckets : M unit := modify (set_buckets None).

(** [~Unordered_Map], lines 219-223 *)
Definition destructor : M unit :=
  clear ;;
  delete_Elist ;;
  delete_buckets.

(** A member function called on a local object [obj] from a member function
    of [*this]: its result and the state it leaves [obj] in. *)
Definition run_on {A} (obj : U_Map) (c : M A) : M (A * U_Map) :=
  λ m, match c obj with
       | Ret a obj' => Ret (a, obj') m
       | Throw e _ => Throw e m
       | Terminate => Terminate
       | Undefined => Undefined
       | OutOfFuel => OutOfFuel
       end.

(** The loop of the copy constructor, lines 180-186: [it] is a node of
    [other], the new nodes are cells of [*this]. [Node(const Node&)] copies
    [value] and [cached] and leaves [next_node] uninitialised. *)
Fixpoint copy_loop (fuel : nat) (other : U_Map) (it : ptr) : M unit :=
  match fuel with
  | 0 => out_of_fuel
  | S fuel =>
      oE <- on_other other (gets Elist) ;;
      if decide (it = oE) then ret tt else
      v <- on_other other (get_value it) ;;
      c <- on_other other (get_cached it) ;;
      new_node <- new_Node v c ;;
      c <- get_cached new_node ;;
      b <- get_bucket c ;;
      (if decide (b = None) then
         c <- get_cached new_node ;;
         __insert_in_empty_bucket c new_node
       else
         c <- get_cached new_node ;;
         __insert_in_nonempty_bucket c new_node) ;;
      it <- on_other other (get_next_node it) ;;
      copy_loop fuel other it
  end.

(** [Unordered_Map(const U_Map& other)], lines 170-187: the new object. *)
Definition copy_construct (other : U_Map) : outcome unit :=
  let this :=
    __create_Elist
      (mkMap ∅ None (_size other) (buckets_count other) None
             (_max_load_factor other)) in
  let this :=
    set_buckets (Some (replicate (buckets_count this) None)) this in
  (oE <- on_other other (gets Elist) ;;
   it <- on_other other (get_next_node oE) ;;
   fuel <- on_other other (gets fuel_of) ;;
   copy_loop fuel other it) this.

(** [operator=(U_Map&& other)], lines 146-163. [other] is [None] when it is
    [*this] itself ([this == &other]). The result is the cells of the old
    [*this] that were not given back, which nothing refers to any more, and
    what is left of [other]; the fields go over as in the move constructor. *)
Definition move_assign (other : option U_Map)
    : M (gmap nat cell * option U_Map) :=
  noexcept (
    match other with
    | None => ret (∅, None)
    | Some o =>
        clear ;;
        delete_buckets ;;
        delete_Elist ;;
        lost <- gets heap ;;
        modify (λ _, (move_construct o).1) ;;
        ret (lost, Some (move_construct o).2)
    end).

(** [operator=(const U_Map& other)], lines 194-213, likewise; the local
    [tmp] is destroyed when the function returns. *)
Definition copy_assign (other : option U_Map) : M (gmap nat cell) :=
  match other with
  | None => ret ∅
  | Some o =>
      tmp <- (λ m, match copy_construct o with
                   | Ret _ tmp => Ret tmp m
                   | Throw e _ => Throw e m
                   | Terminate => Terminate
                   | Undefined => Undefined
                   | OutOfFuel => OutOfFuel
                   end) ;;
      clear ;;
      delete_buckets ;;
      delete_Elist ;;
      lost <- gets heap ;;
      modify (λ _, (move_construct tmp).1) ;;
      _ <- run_on (move_construct tmp).2 destructor ;;
      ret lost
  end.

(** ** The abstract view: the traversal list

    An [entry] is a node of the traversal list seen from outside: where it
    lives, the bucket index it caches and its payload. *)

Record entry : Type := mkEntry {
  e_addr : nat;
  e_cached : nat;
  e_value : Key * Value
}.

Definition e_key (e : entry) : Key := (e_value e).1.

(** The pointer to the first node of [l], or [q] when [l] is empty. *)
Definition head_ptr (l : list entry) (q : ptr) : ptr :=
  match l with [] => q | e :: _ => Some (e_addr e) end.

(** The pointer to the last node of [l], or [p] when [l] is empty. *)
Definition last_ptr (p : ptr) (l : list entry) : ptr :=
  match last l with Some e => Some (e_addr e) | None => p end.

(** The cells of [l] are linked in this order and the last one points to [q]. *)
Fixpoint chain (h : gmap nat cell) (l : list entry) (q : ptr) : Prop :=
  match l with
  | [] => True
  | e :: l' =>
      h !! e_addr e
        = Some (node_cell (mkNode (head_ptr l' q) (e_cached e) (e_value e)))
      ∧ chain h l' q
  end.

(** The anchor of bucket [b]: the node before the first entry that caches
    [b], [prev] being the node before [l]; [nullptr] when there is none. *)
Fixpoint anchor (prev : ptr) (l : list entry) (b : nat) : ptr :=
  match l with
  | [] => None
  | e :: l' =>
      if decide (e_cached e = b) then prev else anchor (Some (e_addr e)) l' b
  end.

(** The entries of one bucket are one run: an entry whose bucket occurs
    again later is followed at once by an entry of that bucket. *)
Fixpoint contiguous (l : list entry) : Prop :=
  match l with
  | [] => True
  | e :: l' =>
      (e_cached e ∈ e_cached <$> l' → e_cached <$> head l' = Some (e_cached e))
      ∧ contiguous l'
  end.

(** The circular list in memory: the sentinel at [s], then [l], then [s]. *)
Record list_repr (h : gmap nat cell) (s : nat) (l : list entry) : Prop := {
  lr_sentinel : h !! s = Some (sentinel_cell (head_ptr l (Some s)));
  lr_chain : chain h l (Some s);
  lr_nodup : NoDup (s :: (e_addr <$> l))
}.

(** The bucket index [arr] of [n] buckets over the list [l]. *)
Record table_ok (s : nat) (l : list entry) (n : nat) (arr : list ptr)
    : Prop := {
  to_cached : ∀ e, e ∈ l → e_cached e = hasher (e_key e) `mod` n ∧ e_cached e < n;
  to_length : length arr = n;
  to_anchor : ∀ b, b < n → arr !! b = Some (anchor (Some s) l b);
  to_contiguous : contiguous l;
  to_keys : NoDup (e_key <$> l)
}.

(** [m] represents the traversal list [l] with its sentinel at [s]. *)
Record repr (m : U_Map) (s : nat) (l : list entry) : Prop := {
  repr_Elist : Elist m = Some s;
  repr_list : list_repr (heap m) s l;
  repr_table : ∃ arr, buckets m = Some arr ∧ table_ok s l (buckets_count m) arr;
  repr_size : _size m = length l
}.

(** The state invariant of a live container. *)
Definition well_formed (m : U_Map) : Prop := ∃ s l, repr m s l.


(** ** Observing a container

    What a client sees by iterating from [begin()] to [end()], as the loop
    of [show] (lines 527-531) does. *)
Fixpoint iterate (fuel : nat) (it : ptr) : M (list (Key * Value)) :=
  match fuel with
  | 0 => out_of_fuel
  | S fuel =>
      e <- end_ ;;
      if decide (it = e) then ret []
      else
        v <- deref it ;;
        it <- incr it ;;
        rest <- iterate fuel it ;;
        ret (v :: rest)
  end.

Definition items : M (list (Key * Value)) :=
  it <- begin ;;
  fuel <- gets fuel_of ;;
  iterate fuel it.

(** The mutating calls of the interface, and a caller that catches what
    they throw: the state a call leaves behind when it returns or throws. *)
Inductive op : Type :=
| Insert (v : Key * Value)
| Erase (k : Key)
| Reserve (n : nat)
| SetMaxLoadFactor (f : Q)
| Clear.

Definition run_op (o : op) : M unit :=
  match o with
  | Insert v => _ <- insert v ;; ret tt
  | Erase k => erase k
  | Reserve n => reserve n
  | SetMaxLoadFactor f => max_load_factor f
  | Clear => clear
  end.

Definition after {A} (r : outcome A) : option U_Map :=
  match r with
  | Ret _ m => Some m
  | Throw _ m => Some m
  | _ => None
  end.

Fixpoint run_ops (ops : list op) (m : U_Map) : option U_Map :=
  match ops with
  | [] => Some m
  | o :: ops' =>
      match after (run_op o m) with
      | Some m' => run_ops ops' m'
      | None => None
      end
  end.

(** The anchor invariant, as the specification words it: over the
    traversal list [l] of [m], an empty slot of the bucket array means that
    no key hashes to the bucket; a slot [p] means that the list is
    [l1 ++ run ++ l2] where [p] is the node before [run], [run] is not empty
    and holds exactly the entries whose key hashes to the bucket, every node
    of [run] caches the bucket index and the node after [run] does not. *)
Definition anchor_invariant (m : U_Map) : Prop :=
  ∃ s l arr,
    Elist m = Some s ∧ list_repr (heap m) s l
    ∧ buckets m = Some arr ∧ length arr = buckets_count m
    ∧ ∀ i, i < buckets_count m →
        match arr !! i with
        | None => False
        | Some None =>
            ∀ e, e ∈ l → hasher (e_key e) `mod` buckets_count m ≠ i
        | Some (Some p) =>
            ∃ l1 run l2,
              l = l1 ++ run ++ l2 ∧ run ≠ []
              ∧ last_ptr (Some s) l1 = Some p
              ∧ (∀ e, e ∈ l →
                   e ∈ run ↔ hasher (e_key e) `mod` buckets_count m = i)
              ∧ (∀ e, e ∈ run → e_cached e = i)
              ∧ (∀ e, head l2 = Some e → e_cached e ≠ i)
        end.

(** ** Auxiliary definitions of the proofs *)

(** The search of the run of bucket [b] for the key [k]. *)
Fixpoint find_run (b : nat) (k : Key) (l : list entry) : option entry :=
  match l with
  | [] => None
  | e :: l' =>
      if decide (e_cached e = b) then
        if decide (e_key e = k) then Some e else find_run b k l'
      else None
  end.

(** What [__insert_in_empty_bucket] writes to the bucket array. *)
Definition front_fix (s a b : nat) (l : list entry) (arr : list ptr)
    : list ptr :=
  match l with
  | [] => <[b := Some s]> arr
  | e0 :: _ => <[e_cached e0 := Some a]> (<[b := Some s]> arr)
  end.

(** What [erase] writes to the bucket array when it removes [e], found
    between [L] and [l3]. *)
Definition outside (L : list entry) (e : entry) : bool :=
  match last L with
  | None => true
  | Some x => bool_decide (e_cached x ≠ e_cached e)
  end.

Definition erase_fix (s : nat) (L : list entry) (e : entry)
    (l3 : list entry) (arr : list ptr) : list ptr :=
  match l3 with
  | [] => if outside L e then <[e_cached e := None]> arr else arr
  | e3 :: _ =>
      if decide (e_cached e3 = e_cached e) then arr
      else
        let arr1 := <[e_cached e3 := last_ptr (Some s) L]> arr in
        if outside L e then <[e_cached e := None]> arr1 else arr1
  end.

(** The part of the invariant that the linking functions maintain. *)
Definition linked (m : U_Map) (s : nat) (l : list entry) : Prop :=
  Elist m = Some s ∧ list_repr (heap m) s l
  ∧ ∃ arr, buckets m = Some arr ∧ table_ok s l (buckets_count m) arr.

(** Where the entries live and what they hold, whatever their bucket. *)
Definition contents (l : list entry) : list (nat * (Key * Value)) :=
  (λ e, (e_addr e, e_value e)) <$> l.

(** What [operator==] does on the entries [l] of [*this] against the list
    [lb] of [other] with its sentinel at [sb]: [None] when it reads through
    the null anchor of a bucket that is empty in [other]. *)
Fixpoint eq_walk (sb : nat) (lb l : list entry) : option bool :=
  match l with
  | [] => Some true
  | x :: l' =>
      match anchor (Some sb) lb (e_cached x) with
      | None => None
      | Some _ =>
          if decide (e_key x ∈ e_key <$> lb) then eq_walk sb lb l'
          else Some false
      end
  end.

(** How a member function changes the set of allocated addresses: [R]
    relates the sets before and after a return, [T] before and after a
    throw. *)
Definition dom_updates {A} (R T : gset nat → gset nat → Prop) (c : M A)
    : Prop :=
  ∀ m, match c m with
       | Ret _ m' => R (dom (heap m)) (dom (heap m'))
       | Throw _ m' => T (dom (heap m)) (dom (heap m'))
       | _ => True
       end.

Definition dom_same (d d' : gset nat) : Prop := d' = d.
Definition dom_never (d d' : gset nat) : Prop := False.
Definition dom_adds (d d' : gset nat) : Prop := d' = {[fresh d]} ∪ d.
Definition dom_removes (d d' : gset nat) : Prop :=
  ∃ a, a ∈ d ∧ d' = d ∖ {[a]}.

(** A container with no cell besides its sentinel and its nodes. *)
Definition tight (m : U_Map) : Prop :=
  ∃ s l, repr m s l
    ∧ ∀ a, a ∈ dom (heap m) → a = s ∨ a ∈ e_addr <$> l.

(** The run of bucket [b] at the head of [l], and what follows it. *)
Fixpoint run_of (b : nat) (l : list entry) : list entry :=
  match l with
  | [] => []
  | e :: l' => if decide (e_cached e = b) then e :: run_of b l' else []
  end.

Fixpoint after_run (b : nat) (l : list entry) : list entry :=
  match l with
  | [] => []
  | e :: l' => if decide (e_cached e = b) then after_run b l' else l
  end.

End Unordered_Map.

Arguments U_Map : clear implicits.
Arguments Node : clear implicits.
Arguments cell : clear implicits.
Arguments entry : clear implicits.
Arguments outcome : clear implicits.
Arguments M : clear implicits.
Arguments token : clear implicits.
Arguments Ret {Key Value A} a m.
Arguments Throw {Key Value A} e m.
Arguments Terminate {Key Value A}.
Arguments Undefined {Key Value A}.
Arguments OutOfFuel {Key Value A}.

(** ** Containers of integers

    [std::hash<int>] is the identity in the common standard libraries. *)
Definition hash_int (k : nat) : nat := k.

(** The container after the calls [ops] on a new container of [n] buckets;
    the new container again if a call does not come back. *)
Definition int_map (n : nat) (ops : list (op (Key := nat) (Value := nat)))
    : U_Map nat nat :=
  default (Unordered_Map n) (run_ops hash_int ops (Unordered_Map n)).

(** The insertions of the keys [0 .. n-1], each with the value 0. *)
Definition insert_keys (n : nat) : list (op (Key := nat) (Value := nat)) :=
  (λ k, Insert (k, 0)) <$> seq 0 n.

(** The containers of the scenarios. *)
Definition empty_map : U_Map nat nat := int_map 10 [].
Definition map_one : U_Map nat nat := int_map 10 [Insert (1, 10)].
Definition map_two : U_Map nat nat := int_map 10 [Insert (2, 20)].
Definition half_loaded : U_Map nat nat :=
  int_map 10 (SetMaxLoadFactor (1 # 2)%Q :: insert_keys 6).
Definition eleven_keys : U_Map nat nat := int_map 10 (insert_keys 11).
Definition no_buckets : U_Map nat nat := int_map 0 [].

(** * Verification *)

Section Proofs.
Context {Key Value : Type} `{Key_eq_dec : EqDecision Key}.
Variable hasher : Key → nat.
Implicit Types (m : U_Map Key Value) (h : gmap nat (cell Key Value))
  (l L todo : list (entry Key Value)) (e : entry Key Value) (p q : option nat)
  (arr : list (option nat)).

Abbreviation addrs l := (e_addr <$> l).
Abbreviation cacheds l := (e_cached <$> l).
Abbreviation keys l := (e_key <$> l).

(** ** Stepping through monadic code *)

Lemma bind_assoc {A B C} (c : M Key Value A) (k1 : A → M Key Value B)
    (k2 : B → M Key Value C) m :
  bind (bind c k1) k2 m = bind c (λ a, bind (k1 a) k2) m.
Proof. unfold bind. by destruct (c m). Qed.

Lemma bind_ret {A B} (a : A) (k : A → M Key Value B) m :
  bind (ret a) k m = k a m.
Proof. done. Qed.

Lemma bind_gets {A B} (f : U_Map Key Value → A) (k : A → M Key Value B) m :
  bind (gets f) k m = k (f m) m.
Proof. done. Qed.

Lemma bind_modify {B} f (k : unit → M Key Value B) m :
  bind (modify f) k m = k tt (f m).
Proof. done. Qed.

Lemma bind_throw {A B} x (k : A → M Key Value B) m :
  bind (throw x) k m = Throw x m.
Proof. done. Qed.

Lemma bind_Ret {A B} (c : M Key Value A) (k : A → M Key Value B) m a m' :
  c m = Ret a m' → bind c k m = k a m'.
Proof. unfold bind. by intros ->. Qed.

Lemma bind_Throw {A B} (c : M Key Value A) (k : A → M Key Value B) m x m' :
  c m = Throw x m' → bind c k m = Throw x m'.
Proof. unfold bind. by intros ->. Qed.

Lemma get_next_node_Some m a c :
  heap m !! a = Some c → get_next_node (Some a) m = Ret (cell_next c) m.
Proof. unfold get_next_node, bind, load. by intros ->. Qed.

Lemma get_cached_Some m a n :
  heap m !! a = Some (node_cell n) → get_cached (Some a) m = Ret (cached n) m.
Proof. unfold get_cached, bind, load. by intros ->. Qed.

Lemma get_value_Some m a n :
  heap m !! a = Some (node_cell n) → get_value (Some a) m = Ret (value n) m.
Proof. unfold get_value, bind, load. by intros ->. Qed.

Lemma set_next_node_Some m a c q :
  heap m !! a = Some c →
  set_next_node (Some a) q m
  = Ret tt (set_heap (<[a := cell_set_next q c]>) m).
Proof. unfold set_next_node, bind, load. by intros ->. Qed.

Lemma set_cached_Some m a n b :
  heap m !! a = Some (node_cell n) →
  set_cached (Some a) b m
  = Ret tt (set_heap (<[a := node_cell (mkNode (next_node n) b (value n))]>) m).
Proof. unfold set_cached, bind, load. by intros ->. Qed.

Lemma delete_Node_Some m a c :
  heap m !! a = Some c →
  delete_Node (Some a) m = Ret tt (set_heap (delete a) m).
Proof. unfold delete_Node, bind, load. by intros ->. Qed.

Lemma array_get_Some arr i p m :
  arr !! i = Some p → array_get arr i m = Ret p m.
Proof. unfold array_get. by intros ->. Qed.

Lemma array_set_lt arr i p m :
  i < length arr → array_set arr i p m = Ret (<[i := p]> arr) m.
Proof. unfold array_set. intros. by rewrite decide_True. Qed.

Lemma get_bucket_Some m arr i p :
  buckets m = Some arr → arr !! i = Some p → get_bucket i m = Ret p m.
Proof. unfold get_bucket. rewrite bind_gets. intros -> ?. by apply array_get_Some. Qed.

Lemma set_bucket_lt m arr i p :
  buckets m = Some arr → i < length arr →
  set_bucket i p m = Ret tt (set_buckets (Some (<[i := p]> arr)) m).
Proof.
  unfold set_bucket. rewrite bind_gets. intros -> ?.
  erewrite bind_Ret; [done|]. by apply array_set_lt.
Qed.

(** ** Lists of entries *)

Lemma head_ptr_app l1 l2 q :
  head_ptr (l1 ++ l2) q = head_ptr l1 (head_ptr l2 q).
Proof. by destruct l1. Qed.

Lemma last_ptr_nil p : last_ptr p ([] : list (entry Key Value)) = p.
Proof. done. Qed.

Lemma last_ptr_snoc p l e : last_ptr p (l ++ [e]) = Some (e_addr e).
Proof. unfold last_ptr. by rewrite last_snoc. Qed.

Lemma last_ptr_cons p e l : last_ptr p (e :: l) = last_ptr (Some (e_addr e)) l.
Proof.
  unfold last_ptr. destruct l as [|e' l]; [done|].
  change (last (e :: e' :: l)) with (last (e' :: l)).
  destruct (last (e' :: l)) eqn:E; [done|]. by apply last_None in E.
Qed.

Lemma last_ptr_app p l1 l2 : last_ptr p (l1 ++ l2) = last_ptr (last_ptr p l1) l2.
Proof.
  revert p. induction l1 as [|e l1 IH]; intros p; [done|].
  simpl. by rewrite !last_ptr_cons, IH.
Qed.

Lemma last_ptr_Some x l : ∃ y, last_ptr (Some x) l = Some y ∧ (y = x ∧ l = [] ∨ y ∈ addrs l).
Proof.
  destruct l as [|e l _] using rev_ind.
  - exists x. auto.
  - exists (e_addr e). rewrite last_ptr_snoc. split; [done|]. right.
    rewrite fmap_app. set_solver.
Qed.

Lemma last_ptr_eq_sentinel s l :
  s ∉ addrs l → last_ptr (Some s) l = Some s → l = [].
Proof.
  intros Hs Hl. destruct l as [|e l _] using rev_ind; [done|].
  rewrite last_ptr_snoc in Hl. simplify_eq. rewrite fmap_app in Hs. set_solver.
Qed.

Lemma head_ptr_eq_sentinel s l :
  s ∉ addrs l → head_ptr l (Some s) = Some s → l = [].
Proof. destruct l as [|e l]; [done|]. simpl. intros Hs [= Heq]. set_solver. Qed.

(** *** Chains *)

Lemma chain_app h l1 l2 q :
  chain h (l1 ++ l2) q ↔ chain h l1 (head_ptr l2 q) ∧ chain h l2 q.
Proof.
  induction l1 as [|e l1 IH]; simpl; [tauto|].
  rewrite head_ptr_app, IH. tauto.
Qed.

Lemma chain_insert_ne h l q a c :
  a ∉ addrs l → chain h l q → chain (<[a := c]> h) l q.
Proof.
  induction l as [|e l IH]; simpl; [done|]. intros Ha [He Hl].
  split; [|apply IH; [set_solver|done]].
  rewrite lookup_insert_ne; [done|set_solver].
Qed.

Lemma chain_delete_ne h l q a :
  a ∉ addrs l → chain h l q → chain (delete a h) l q.
Proof.
  induction l as [|e l IH]; simpl; [done|]. intros Ha [He Hl].
  split; [|apply IH; [set_solver|done]].
  rewrite lookup_delete_ne; [done|set_solver].
Qed.

Lemma chain_lookup h l1 e l2 q :
  chain h (l1 ++ e :: l2) q →
  h !! e_addr e
  = Some (node_cell (mkNode (head_ptr l2 q) (e_cached e) (e_value e))).
Proof. rewrite chain_app. simpl. tauto. Qed.

Lemma chain_elem h l q e :
  chain h l q → e ∈ l →
  ∃ nx, h !! e_addr e = Some (node_cell (mkNode nx (e_cached e) (e_value e))).
Proof.
  intros Hc (l1 & l2 & ->)%list_elem_of_split. eexists. by eapply chain_lookup.
Qed.

(** A pointer into the list determines the entry. *)
Lemma chain_addr_inj h l q e1 e2 :
  chain h l q → e1 ∈ l → e2 ∈ l → e_addr e1 = e_addr e2 → e1 = e2.
Proof.
  intros Hc [n1 H1]%(chain_elem _ _ _ _ Hc) [n2 H2]%(chain_elem _ _ _ _ Hc) Heq.
  rewrite Heq in H1. destruct e1, e2; simpl in *. simplify_eq. done.
Qed.

(** The cell before position [l1] of the list points to what follows. *)
Lemma list_repr_next h s l1 l2 :
  list_repr h s (l1 ++ l2) →
  ∃ a c, last_ptr (Some s) l1 = Some a ∧ h !! a = Some c
         ∧ cell_next c = head_ptr l2 (Some s)
         ∧ (a = s ∧ l1 = [] ∨ a ∈ addrs l1).
Proof.
  intros [Hs Hc Hn]. destruct l1 as [|e l1 _] using rev_ind.
  - exists s, (sentinel_cell (head_ptr l2 (Some s))). simpl in Hs.
    split_and!; auto.
  - rewrite <- app_assoc in Hc. simpl in Hc. apply chain_lookup in Hc.
    eexists (e_addr e), _. rewrite last_ptr_snoc. split_and!; [done|done|done|].
    right. rewrite fmap_app. set_solver.
Qed.

Lemma chain_fuel h s l q :
  is_Some (h !! s) → chain h l q → NoDup (s :: addrs l) →
  length l < S (base.size h).
Proof.
  intros Hs Hc Hn. apply Nat.lt_succ_r.
  assert (length (s :: addrs l) ≤ base.size h) as Hle; [|simpl in Hle; rewrite length_fmap in Hle; lia].
  rewrite <- (size_list_to_set (C := gset nat)) by done.
  rewrite <- size_dom. apply subseteq_size.
  intros x. rewrite elem_of_list_to_set, elem_of_cons, elem_of_dom.
  intros [->|(e & -> & He)%list_elem_of_fmap]; [done|].
  destruct (chain_elem _ _ _ _ Hc He) as [nx Hx]. by eexists.
Qed.

Lemma list_repr_fuel h s l : list_repr h s l → length l < S (base.size h).
Proof. intros [Hs Hc Hn]. by eapply chain_fuel. Qed.

(** *** Anchors *)

Lemma anchor_None x l b : anchor (Some x) l b = None ↔ b ∉ cacheds l.
Proof.
  revert x. induction l as [|e l IH]; intros x; simpl.
  - split; [|done]. intros _ []%elem_of_nil.
  - rewrite not_elem_of_cons. case_decide as Hb.
    + split; [done|]. intros [Hne _]. by destruct Hne.
    + rewrite IH. split; [by split|]. tauto.
Qed.

Lemma anchor_app p l1 l2 b :
  anchor p (l1 ++ l2) b
  = if decide (b ∈ cacheds l1) then anchor p l1 b
    else anchor (last_ptr p l1) l2 b.
Proof.
  revert p. induction l1 as [|e l1 IH]; intros p; [done|].
  cbn [app anchor]. rewrite last_ptr_cons, fmap_cons.
  destruct (decide (e_cached e = b)) as [Hc|Hc].
  - rewrite decide_True; [done|]. subst. apply list_elem_of_here.
  - rewrite IH. destruct (decide (b ∈ cacheds l1)) as [Hin|Hin].
    + rewrite decide_True; [done|]. by apply list_elem_of_further.
    + rewrite decide_False; [done|]. rewrite not_elem_of_cons. by split.
Qed.

(** The first entry of a bucket splits the list. *)
Lemma first_of_bucket l b :
  b ∈ cacheds l →
  ∃ l1 e l2, l = l1 ++ e :: l2 ∧ (b ∉ cacheds l1) ∧ e_cached e = b.
Proof.
  induction l as [|e l IH]; [by intros ?%elem_of_nil|].
  destruct (decide (e_cached e = b)) as [Hb|Hb].
  - intros _. exists [], e, l. split_and!; [done| |done]. apply not_elem_of_nil.
  - rewrite fmap_cons, elem_of_cons. intros [?|Hin]; [by subst|].
    destruct (IH Hin) as (l1 & e' & l2 & -> & Hl1 & He').
    exists (e :: l1), e', l2. split_and!; [done| |done].
    rewrite fmap_cons, not_elem_of_cons. by split.
Qed.

Lemma anchor_first p l1 e l2 :
  e_cached e ∉ cacheds l1 →
  anchor p (l1 ++ e :: l2) (e_cached e) = last_ptr p l1.
Proof.
  intros Hn. rewrite anchor_app, decide_False by done. simpl.
  by rewrite decide_True.
Qed.

(** *** Contiguity *)

Lemma contiguous_app l1 l2 :
  contiguous (l1 ++ l2) → contiguous l1 ∧ contiguous l2.
Proof.
  induction l1 as [|e l1 IH]; simpl; [done|]. intros [Hh Hc].
  destruct (IH Hc) as [H1 H2]. split_and!; [|done|done].
  intros Hin. destruct l1 as [|e1 l1]; [by apply elem_of_nil in Hin|].
  apply Hh. rewrite fmap_app, elem_of_app. by left.
Qed.

Lemma contiguous_cons_new e l :
  e_cached e ∉ cacheds l → contiguous l → contiguous (e :: l).
Proof. simpl. intros Hn Hc. split; [|done]. intros Hin. by destruct Hn. Qed.

(** A bucket that occurs after [e] and is not that of [e] does not occur
    before [e]. *)
Lemma contiguous_not_before L e l3 c :
  contiguous (L ++ e :: l3) → c ≠ e_cached e → c ∈ cacheds l3 →
  c ∉ cacheds L.
Proof.
  intros Hc Hne Hin. induction L as [|x L IH]; [apply not_elem_of_nil|].
  simpl in Hc. destruct Hc as [Hh Hc]. specialize (IH Hc).
  rewrite fmap_cons, not_elem_of_cons. split; [|done]. intros ->.
  assert (e_cached x ∈ cacheds (L ++ e :: l3)) as Hx.
  { rewrite fmap_app, fmap_cons, elem_of_app, elem_of_cons. auto. }
  specialize (Hh Hx). destruct L as [|y L]; simpl in Hh.
  - injection Hh as Hh. congruence.
  - injection Hh as Hy. apply IH. rewrite fmap_cons, Hy. apply list_elem_of_here.
Qed.

(** If the entry before [e] is of another bucket, the bucket of [e] does
    not occur before [e]. *)
Lemma contiguous_first L e l3 :
  contiguous (L ++ e :: l3) →
  (∀ x, last L = Some x → e_cached x ≠ e_cached e) →
  e_cached e ∉ cacheds L.
Proof.
  intros Hc Hlast. induction L as [|x L IH]; [apply not_elem_of_nil|].
  simpl in Hc. destruct Hc as [Hh Hc].
  assert (e_cached e ∉ cacheds L) as HL.
  { apply IH; [done|]. intros y Hy. apply Hlast.
    destruct L; [done|]. done. }
  rewrite fmap_cons, not_elem_of_cons. split; [|done]. intros Heq.
  assert (e_cached x ∈ cacheds (L ++ e :: l3)) as Hx.
  { rewrite fmap_app, fmap_cons, elem_of_app, elem_of_cons. auto. }
  specialize (Hh Hx). destruct L as [|y L]; simpl in Hh.
  - by apply (Hlast x).
  - injection Hh as Hy. apply HL. rewrite fmap_cons, Hy, <- Heq.
    apply list_elem_of_here.
Qed.

(** If the entry after [e] is of another bucket, the bucket of [e] does not
    occur after [e]. *)
Lemma contiguous_last e l3 :
  contiguous (e :: l3) →
  (∀ x, head l3 = Some x → e_cached x ≠ e_cached e) →
  e_cached e ∉ cacheds l3.
Proof.
  simpl. intros [Hh _] Hx Hin. specialize (Hh Hin).
  destruct l3 as [|x l3]; [done|]. injection Hh as Hh. by apply (Hx x).
Qed.

Lemma contiguous_remove L e l3 :
  contiguous (L ++ e :: l3) → contiguous (L ++ l3).
Proof.
  induction L as [|x L IH]; simpl; [tauto|]. intros [Hh Hc].
  split; [|by apply IH]. intros Hin.
  assert (e_cached x ∈ cacheds (L ++ e :: l3)) as Hx.
  { revert Hin. rewrite !fmap_app, fmap_cons, !elem_of_app, elem_of_cons. tauto. }
  specialize (Hh Hx). destruct L as [|y L]; [|done].
  simpl in *. injection Hh as Hh. destruct Hc as [Hh' _].
  rewrite <- Hh. apply Hh'. by rewrite Hh.
Qed.

Lemma contiguous_insert L e e0 l2 :
  contiguous (L ++ e0 :: l2) → e_cached e = e_cached e0 →
  contiguous (L ++ e :: e0 :: l2).
Proof.
  intros Hc Heq. induction L as [|x L IH].
  - simpl in *. split; [|done]. intros _. by rewrite Heq.
  - simpl in Hc. destruct Hc as [Hh Hc]. simpl. split; [|by apply IH].
    intros Hin.
    assert (e_cached x ∈ cacheds (L ++ e0 :: l2)) as Hx.
    { revert Hin. rewrite !fmap_app, !fmap_cons, !elem_of_app, !elem_of_cons.
      rewrite Heq. tauto. }
    specialize (Hh Hx). destruct L as [|y L]; [|done].
    simpl in *. injection Hh as Hh. by rewrite Heq, Hh.
Qed.

(** *** Searching the run of a bucket *)

Lemma find_run_Some b k l e :
  find_run b k l = Some e →
  ∃ r l3, l = r ++ e :: l3 ∧ e_cached e = b ∧ e_key e = k
          ∧ Forall (λ x, e_cached x = b ∧ e_key x ≠ k) r.
Proof.
  induction l as [|x l IH]; simpl; [done|].
  case_decide as Hb; [|done]. case_decide as Hk.
  - intros [= ->]. exists [], l. by split_and!.
  - intros (r & l3 & -> & ? & ? & Hr)%IH. exists (x :: r), l3.
    split_and!; [done|done|done|]. by constructor.
Qed.

Lemma keys_inj l e1 e2 :
  NoDup (keys l) → e1 ∈ l → e2 ∈ l → e_key e1 = e_key e2 → e1 = e2.
Proof.
  induction l as [|x l IH]; [by intros _ ?%elem_of_nil|].
  rewrite fmap_cons, NoDup_cons, !elem_of_cons. intros [Hx Hn] [->|H1] [->|H2] Hk.
  - done.
  - destruct Hx. rewrite Hk. by apply list_elem_of_fmap_2.
  - destruct Hx. rewrite <- Hk. by apply list_elem_of_fmap_2.
  - by apply IH.
Qed.

(** In a contiguous list that starts with an entry of bucket [b], the
    entries of bucket [b] are found by the search of the run. *)
Lemma find_run_complete b k l e :
  contiguous l → NoDup (keys l) → e_cached <$> head l = Some b →
  e ∈ l → e_cached e = b → e_key e = k → find_run b k l = Some e.
Proof.
  induction l as [|x l IH]; [done|]. intros Hc Hn Hh He Hb Hk.
  simpl in Hh. injection Hh as Hx. simpl. rewrite decide_True by done.
  case_decide as Hkx.
  - f_equal. eapply keys_inj; [done|apply list_elem_of_here|done|congruence].
  - apply elem_of_cons in He as [->|He]; [done|].
    simpl in Hc. destruct Hc as [Hh Hc]. rewrite fmap_cons in Hn.
    apply NoDup_cons in Hn as [_ Hn]. apply IH; [done|done| |done|done|done].
    rewrite <- Hx. apply Hh. rewrite Hx, <- Hb. by apply list_elem_of_fmap_2.
Qed.

Lemma find_run_None b k l e :
  contiguous l → e_cached <$> head l = Some b →
  find_run b k l = None → e ∈ l → e_cached e = b → e_key e ≠ k.
Proof.
  induction l as [|x l IH]; [done|]. intros Hc Hh Hf He Hb.
  simpl in Hh. injection Hh as Hx. simpl in Hf. rewrite decide_True in Hf by done.
  case_decide as Hkx; [done|].
  apply elem_of_cons in He as [->|He]; [done|].
  simpl in Hc. destruct Hc as [Hh Hc]. apply IH; [done| |done|done|done].
  rewrite <- Hx. apply Hh. rewrite Hx, <- Hb. by apply list_elem_of_fmap_2.
Qed.

(** ** The list in memory *)

Lemma list_repr_not_sentinel h s l : list_repr h s l → s ∉ addrs l.
Proof. intros [_ _ Hn]. by apply NoDup_cons in Hn as [? _]. Qed.

(** Linking a node in after position [l1]. *)
Lemma list_repr_link h s l1 l2 a c v pa cp :
  list_repr h s (l1 ++ l2) →
  a ≠ s → a ∉ addrs (l1 ++ l2) →
  last_ptr (Some s) l1 = Some pa → h !! pa = Some cp →
  list_repr
    (<[pa := cell_set_next (Some a) cp]>
       (<[a := node_cell (mkNode (head_ptr l2 (Some s)) c v)]> h))
    s (l1 ++ mkEntry a c v :: l2).
Proof.
  intros [Hs Hc Hn] Has Hal Hpa Hcp.
  assert (NoDup (s :: addrs (l1 ++ mkEntry a c v :: l2))) as Hn'.
  { rewrite <- Permutation_middle, fmap_cons. simpl.
    rewrite (Permutation_swap a s). apply NoDup_cons. split; [|done].
    rewrite not_elem_of_cons. by split. }
  apply chain_app in Hc as [Hc1 Hc2].
  assert (s ∉ addrs (l1 ++ l2)) as Hsl by (by apply NoDup_cons in Hn as [? _]).
  rewrite fmap_app in Hsl, Hal. rewrite elem_of_app in Hsl, Hal.
  destruct l1 as [|x l1 _] using rev_ind.
  - simpl in Hpa. injection Hpa as <-. rewrite Hs in Hcp. injection Hcp as <-.
    split; [|split|done]; simpl.
    + by rewrite lookup_insert_eq.
    + rewrite lookup_insert_ne, lookup_insert_eq by done. done.
    + apply chain_insert_ne; [tauto|]. apply chain_insert_ne; [tauto|done].
  - rewrite last_ptr_snoc in Hpa. injection Hpa as <-.
    apply chain_app in Hc1 as [Hc1 Hx]. simpl in Hx. destruct Hx as [Hx _].
    rewrite Hx in Hcp. injection Hcp as <-. simpl.
    assert (e_addr x ≠ s) as Hxs.
    { intros Heq. apply Hsl. left. rewrite fmap_app, elem_of_app. right.
      rewrite <- Heq. apply list_elem_of_here. }
    assert (e_addr x ≠ a) as Hxa.
    { intros Heq. apply Hal. left. rewrite fmap_app, elem_of_app. right.
      rewrite <- Heq. apply list_elem_of_here. }
    assert ((e_addr x ∉ addrs l1) ∧ (e_addr x ∉ addrs l2)) as [Hx1 Hx2].
    { apply NoDup_cons in Hn as [_ Hn]. rewrite !fmap_app in Hn.
      apply NoDup_app in Hn as (Hn1 & Hn12 & _).
      apply NoDup_app in Hn1 as (_ & Hn1 & _). split.
      - intros Hin. apply (Hn1 _ Hin). apply list_elem_of_here.
      - apply Hn12. rewrite elem_of_app. right. apply list_elem_of_here. }
    rewrite fmap_app, elem_of_app in Hal. rewrite fmap_app, elem_of_app in Hsl.
    split; [| |done].
    + rewrite !lookup_insert_ne by done. rewrite Hs.
      by rewrite <- !app_assoc, !head_ptr_app.
    + rewrite <- app_assoc. apply chain_app. split; [|simpl; split_and!].
      * apply chain_insert_ne; [done|]. apply chain_insert_ne; [tauto|]. done.
      * by rewrite lookup_insert_eq.
      * by rewrite lookup_insert_ne, lookup_insert_eq by done.
      * apply chain_insert_ne; [done|]. apply chain_insert_ne; [tauto|done].
Qed.

(** Unlinking and freeing the node after position [L]. *)
Lemma list_repr_unlink h s L e l3 pa cp :
  list_repr h s (L ++ e :: l3) →
  last_ptr (Some s) L = Some pa → h !! pa = Some cp →
  list_repr
    (delete (e_addr e) (<[pa := cell_set_next (head_ptr l3 (Some s)) cp]> h))
    s (L ++ l3).
Proof.
  intros [Hs Hc Hn] Hpa Hcp.
  assert (NoDup (s :: e_addr e :: addrs (L ++ l3))) as Hn'.
  { revert Hn. by rewrite <- Permutation_middle, fmap_cons. }
  assert (NoDup (s :: addrs (L ++ l3))) as Hn''.
  { revert Hn'. rewrite (Permutation_swap (e_addr e) s). by intros [_ ?]%NoDup_cons. }
  assert (e_addr e ≠ s ∧ e_addr e ∉ addrs (L ++ l3)) as [Hes Hel].
  { apply NoDup_cons in Hn' as [Hs' Hn']. apply NoDup_cons in Hn' as [? _].
    split; [|done]. intros Heq. apply Hs'. rewrite Heq. apply list_elem_of_here. }
  assert (s ∉ addrs (L ++ l3)) as Hsl by (by apply NoDup_cons in Hn'' as [? _]).
  apply chain_app in Hc as [Hc1 Hc2]. simpl in Hc2. destruct Hc2 as [He Hc2].
  rewrite fmap_app in Hsl, Hel. rewrite elem_of_app in Hsl, Hel.
  destruct L as [|x L _] using rev_ind.
  - simpl in Hpa. injection Hpa as <-. rewrite Hs in Hcp. injection Hcp as <-.
    split; [|simpl|done]; simpl.
    + by rewrite lookup_delete_ne, lookup_insert_eq by done.
    + apply chain_delete_ne; [tauto|]. apply chain_insert_ne; [tauto|done].
  - rewrite last_ptr_snoc in Hpa. injection Hpa as <-.
    apply chain_app in Hc1 as [Hc1 Hx]. simpl in Hx. destruct Hx as [Hx _].
    rewrite Hx in Hcp. injection Hcp as <-. simpl.
    rewrite fmap_app, elem_of_app in Hel. rewrite fmap_app, elem_of_app in Hsl.
    assert (e_addr x ≠ s) as Hxs.
    { intros Heq. apply Hsl. left. right. rewrite <- Heq. apply list_elem_of_here. }
    assert (e_addr x ≠ e_addr e) as Hxa.
    { intros Heq. apply Hel. left. right. rewrite <- Heq. apply list_elem_of_here. }
    assert ((e_addr x ∉ addrs L) ∧ (e_addr x ∉ addrs l3)) as [Hx1 Hx2].
    { apply NoDup_cons in Hn'' as [_ Hn'']. rewrite !fmap_app in Hn''.
      apply NoDup_app in Hn'' as (Hn1 & Hn12 & _).
      apply NoDup_app in Hn1 as (_ & Hn1 & _). split.
      - intros Hin. apply (Hn1 _ Hin). apply list_elem_of_here.
      - apply Hn12. rewrite elem_of_app. right. apply list_elem_of_here. }
    split; [| |done].
    + rewrite lookup_delete_ne, lookup_insert_ne by done. rewrite Hs.
      by rewrite <- !app_assoc, !head_ptr_app.
    + rewrite <- app_assoc. apply chain_app. split; [|simpl; split_and!].
      * apply chain_delete_ne; [tauto|]. apply chain_insert_ne; [done|]. done.
      * by rewrite lookup_delete_ne, lookup_insert_eq by done.
      * apply chain_delete_ne; [tauto|]. apply chain_insert_ne; [done|done].
Qed.

(** ** The bucket index *)

Lemma table_ok_front s l n arr e :
  table_ok hasher s l n arr →
  e_cached e = hasher (e_key e) `mod` n → e_cached e < n →
  anchor (Some s) l (e_cached e) = None → e_key e ∉ keys l →
  table_ok hasher s (e :: l) n (front_fix s (e_addr e) (e_cached e) l arr).
Proof.
  intros [Hca Hlen Han Hco Hk] Hh Hlt Hnone Hkey.
  apply anchor_None in Hnone. split.
  - intros x [->|Hx]%elem_of_cons; [done|by apply Hca].
  - unfold front_fix. destruct l; by rewrite ?length_insert.
  - intros b Hb. specialize (Han b Hb). unfold front_fix. cbn [anchor].
    destruct l as [|e0 l].
    + destruct (decide (e_cached e = b)) as [Heq|Hne]; [subst b|].
      * by rewrite list_lookup_insert_eq by lia.
      * by rewrite list_lookup_insert_ne by done.
    + assert (e_cached e0 ≠ e_cached e) as Hne0.
      { intros Heq. apply Hnone. rewrite fmap_cons, Heq. apply list_elem_of_here. }
      assert (e_cached e0 < n) as Hlt0 by (apply Hca, list_elem_of_here).
      cbn [anchor] in *.
      destruct (decide (e_cached e = b)) as [Heq|Hne]; [subst b|].
      * rewrite list_lookup_insert_ne by done.
        by rewrite list_lookup_insert_eq by lia.
      * destruct (decide (e_cached e0 = b)) as [Heq|Hne']; [subst b|].
        -- by rewrite list_lookup_insert_eq by (rewrite length_insert; lia).
        -- by rewrite !list_lookup_insert_ne by done.
  - by apply contiguous_cons_new.
  - rewrite fmap_cons. by apply NoDup_cons.
Qed.

Lemma table_ok_middle s l1 e0 l2 n arr e :
  table_ok hasher s (l1 ++ e0 :: l2) n arr →
  e_cached e = hasher (e_key e) `mod` n → e_cached e < n →
  e_cached e ∉ cacheds l1 → e_cached e0 = e_cached e →
  e_key e ∉ keys (l1 ++ e0 :: l2) →
  table_ok hasher s (l1 ++ e :: e0 :: l2) n arr.
Proof.
  intros [Hca Hlen Han Hco Hk] Hh Hlt Hl1 He0 Hkey. split.
  - intros x Hx. apply elem_of_app in Hx as [Hx|Hx].
    + apply Hca. rewrite elem_of_app. by left.
    + apply elem_of_cons in Hx as [->|Hx]; [done|].
      apply Hca. rewrite elem_of_app. by right.
  - done.
  - intros b Hb. rewrite (Han b Hb). f_equal. rewrite !anchor_app.
    destruct (decide (b ∈ cacheds l1)); [done|]. cbn [anchor].
    rewrite He0. by destruct (decide (e_cached e = b)).
  - by apply contiguous_insert.
  - rewrite <- Permutation_middle, fmap_cons. by apply NoDup_cons.
Qed.

Lemma outside_true L e l3 :
  contiguous (L ++ e :: l3) → outside L e = true → e_cached e ∉ cacheds L.
Proof.
  intros Hc Ho. apply (contiguous_first _ _ _ Hc). intros x Hx.
  unfold outside in Ho. rewrite Hx in Ho. by apply bool_decide_eq_true in Ho.
Qed.

Lemma outside_false L e : outside L e = false → e_cached e ∈ cacheds L.
Proof.
  unfold outside. destruct (last L) as [x|] eqn:Hx; [|done].
  intros Ho%bool_decide_eq_false. apply dec_stable in Ho. rewrite <- Ho.
  apply list_elem_of_fmap_2. apply last_Some in Hx as [L' ->].
  rewrite elem_of_app. right. apply list_elem_of_here.
Qed.

Lemma table_ok_erase s L e l3 n arr :
  table_ok hasher s (L ++ e :: l3) n arr →
  table_ok hasher s (L ++ l3) n (erase_fix s L e l3 arr).
Proof.
  intros [Hca Hlen Han Hco Hk].
  assert (e_cached e < n) as Hlt.
  { apply Hca. rewrite elem_of_app, elem_of_cons. auto. }
  split.
  - intros x Hx. apply Hca. revert Hx. rewrite !elem_of_app, elem_of_cons. tauto.
  - unfold erase_fix. destruct l3; repeat case_match; by rewrite ?length_insert.
  - intros b Hb. specialize (Han b Hb). rewrite anchor_app in Han.
    destruct (last_ptr_Some s L) as (pa & Hpa & _).
    unfold erase_fix. destruct (outside L e) eqn:Ho.
    + pose proof (outside_true _ _ _ Hco Ho) as HnL.
      destruct l3 as [|e3 l3].
      * rewrite app_nil_r. destruct (decide (e_cached e = b)) as [<-|Hne].
        -- rewrite list_lookup_insert_eq by lia. f_equal. symmetry.
           by apply anchor_None.
        -- rewrite list_lookup_insert_ne by done. rewrite Han.
           destruct (decide (b ∈ cacheds L)) as [Hin|Hin]; [done|].
           cbn [anchor]. rewrite decide_False by done. f_equal. symmetry.
           by apply anchor_None.
      * destruct (decide (e_cached e3 = e_cached e)) as [Heq|Hne3].
        -- rewrite Han, anchor_app.
           destruct (decide (b ∈ cacheds L)) as [Hin|Hin]; [done|].
           cbn [anchor]. rewrite Heq. by destruct (decide (e_cached e = b)).
        -- assert (e_cached e3 < n) as Hlt3.
           { apply Hca. rewrite elem_of_app, !elem_of_cons. auto. }
           assert (e_cached e3 ∉ cacheds L) as Hn3.
           { eapply contiguous_not_before; [done|done|].
             rewrite fmap_cons. apply list_elem_of_here. }
           assert (e_cached e ∉ cacheds (e3 :: l3)) as Hne.
           { apply contiguous_app in Hco as [_ Hco].
             apply contiguous_last; [done|]. simpl. by intros x [= <-]. }
           destruct (decide (e_cached e = b)) as [<-|Hneb].
           ++ rewrite list_lookup_insert_eq by (rewrite length_insert; lia).
              f_equal. symmetry. apply anchor_None.
              rewrite fmap_app, not_elem_of_app. by split.
           ++ rewrite list_lookup_insert_ne by done.
              rewrite anchor_app. destruct (decide (e_cached e3 = b)) as [<-|Hne3b].
              ** rewrite list_lookup_insert_eq by lia.
                 rewrite decide_False by done. cbn [anchor].
                 by rewrite decide_True.
              ** rewrite list_lookup_insert_ne by done. rewrite Han.
                 destruct (decide (b ∈ cacheds L)) as [Hin|Hin]; [done|].
                 cbn [anchor]. by rewrite !decide_False by done.
    + pose proof (outside_false _ _ Ho) as HinL.
      destruct l3 as [|e3 l3].
      * rewrite app_nil_r, Han. destruct (decide (b ∈ cacheds L)) as [Hin|Hin]; [done|].
        cbn [anchor]. rewrite decide_False; [|by intros <-]. f_equal. symmetry.
        by apply anchor_None.
      * destruct (decide (e_cached e3 = e_cached e)) as [Heq|Hne3].
        -- rewrite Han, anchor_app.
           destruct (decide (b ∈ cacheds L)) as [Hin|Hin]; [done|].
           cbn [anchor]. rewrite Heq. by destruct (decide (e_cached e = b)).
        -- assert (e_cached e3 < n) as Hlt3.
           { apply Hca. rewrite elem_of_app, !elem_of_cons. auto. }
           assert (e_cached e3 ∉ cacheds L) as Hn3.
           { eapply contiguous_not_before; [done|done|].
             rewrite fmap_cons. apply list_elem_of_here. }
           rewrite anchor_app. destruct (decide (e_cached e3 = b)) as [<-|Hne3b].
           ++ rewrite list_lookup_insert_eq by lia.
              rewrite decide_False by done. cbn [anchor].
              by rewrite decide_True.
           ++ rewrite list_lookup_insert_ne by done. rewrite Han.
              destruct (decide (b ∈ cacheds L)) as [Hin|Hin]; [done|].
              cbn [anchor]. rewrite !(decide_False (P := e_cached e3 = b)) by done.
              rewrite decide_False; [done|]. by intros <-.
  - by eapply contiguous_remove.
  - revert Hk. rewrite <- Permutation_middle, fmap_cons. by intros [_ ?]%NoDup_cons.
Qed.

(** ** Looking a key up *)

Lemma noexcept_Ret {A} (c : M Key Value A) m a m' :
  c m = Ret a m' → noexcept c m = Ret a m'.
Proof. unfold noexcept. by intros ->. Qed.

Lemma __hash_ok k m :
  buckets_count m ≠ 0 →
  __hash hasher k m = Ret (hasher k `mod` buckets_count m) m.
Proof. intros Hn. unfold __hash. rewrite bind_gets. by rewrite decide_False. Qed.

Lemma __hash_zero k m :
  buckets_count m = 0 → __hash hasher k m = Throw InvalidState m.
Proof. intros Hn. unfold __hash. rewrite bind_gets. by rewrite decide_True. Qed.

Lemma repr_get_bucket m s l b :
  repr hasher m s l → b < buckets_count m →
  get_bucket b m = Ret (anchor (Some s) l b) m.
Proof.
  intros [_ _ (arr & Harr & Ht) _] Hb. eapply get_bucket_Some; [done|].
  by apply Ht.
Qed.

Lemma repr_fuel m s l : repr hasher m s l → length l < fuel_of m.
Proof. intros [_ Hl _ _]. by apply list_repr_fuel in Hl. Qed.

Lemma bucket_split s l b pa :
  anchor (Some s) l b = Some pa →
  ∃ l1 e0 l2,
    l = l1 ++ e0 :: l2 ∧ (b ∉ cacheds l1) ∧ e_cached e0 = b
    ∧ last_ptr (Some s) l1 = Some pa.
Proof.
  intros Han.
  destruct (decide (b ∈ cacheds l)) as [Hin|Hin];
    [|apply (anchor_None s) in Hin; congruence].
  destruct (first_of_bucket _ _ Hin) as (l1 & e0 & l2 & -> & Hl1 & He0).
  exists l1, e0, l2. subst b. rewrite anchor_first in Han by done.
  by split_and!.
Qed.

(** The anchor of a non-empty bucket is the cell before its first entry. *)
Lemma enter_bucket m s l b pa :
  list_repr (heap m) s l → anchor (Some s) l b = Some pa →
  ∃ l1 e0 l2,
    l = l1 ++ e0 :: l2 ∧ (b ∉ cacheds l1) ∧ e_cached e0 = b
    ∧ last_ptr (Some s) l1 = Some pa
    ∧ get_next_node (Some pa) m = Ret (Some (e_addr e0)) m.
Proof.
  intros Hl Han.
  destruct (decide (b ∈ cacheds l)) as [Hin|Hin];
    [|apply (anchor_None s) in Hin; congruence].
  destruct (first_of_bucket _ _ Hin) as (l1 & e0 & l2 & -> & Hl1 & He0).
  exists l1, e0, l2. subst b. rewrite anchor_first in Han by done.
  destruct (list_repr_next _ _ _ _ Hl) as (a & c & Ha & Hc & Hnx & _).
  rewrite Ha in Han. injection Han as ->. split_and!; [done..|].
  by rewrite (get_next_node_Some _ _ _ Hc), Hnx.
Qed.

Lemma __find_loop_spec m s b k l fuel :
  Elist m = Some s →
  chain (heap m) l (Some s) →
  s ∉ addrs l →
  length l < fuel →
  __find_loop fuel b k (head_ptr l (Some s)) m
  = Ret (from_option (Some ∘ e_addr) (Some s) (find_run b k l)) m.
Proof.
  intros HE. revert fuel. induction l as [|e l IH]; intros fuel Hc Hs Hf.
  - destruct fuel; [simpl in Hf; lia|]. simpl. rewrite bind_gets, HE.
    by rewrite decide_True.
  - destruct fuel; [simpl in Hf; lia|]. destruct Hc as [Ha Hc].
    rewrite fmap_cons, not_elem_of_cons in Hs. destruct Hs as [Hse Hs].
    cbn [__find_loop head_ptr find_run]. rewrite bind_gets, HE.
    rewrite decide_False by congruence.
    erewrite bind_Ret by (by apply get_cached_Some). cbn [cached].
    destruct (decide (e_cached e = b)) as [Hb|Hb]; [|done].
    erewrite bind_Ret by (by apply get_value_Some). cbn [value]. unfold e_key.
    destruct (decide ((e_value e).1 = k)) as [Hk|Hk]; [done|].
    erewrite bind_Ret by (by apply get_next_node_Some). cbn [cell_next next_node].
    apply IH; [done|done|simpl in Hf; lia].
Qed.

Lemma __find_in_bucket_loop_spec m s b k l fuel :
  Elist m = Some s →
  chain (heap m) l (Some s) →
  s ∉ addrs l →
  length l < fuel →
  __find_in_bucket_loop fuel b k (head_ptr l (Some s)) m
  = Ret (bool_decide (is_Some (find_run b k l))) m.
Proof.
  intros HE. revert fuel. induction l as [|e l IH]; intros fuel Hc Hs Hf.
  - destruct fuel; [simpl in Hf; lia|]. simpl. rewrite bind_gets, HE.
    by rewrite decide_True.
  - destruct fuel; [simpl in Hf; lia|]. destruct Hc as [Ha Hc].
    rewrite fmap_cons, not_elem_of_cons in Hs. destruct Hs as [Hse Hs].
    cbn [__find_in_bucket_loop head_ptr find_run]. rewrite bind_gets, HE.
    rewrite decide_False by congruence.
    erewrite bind_Ret by (by apply get_cached_Some). cbn [cached].
    destruct (decide (e_cached e = b)) as [Hb|Hb]; [|done].
    erewrite bind_Ret by (by apply get_value_Some). cbn [value]. unfold e_key.
    destruct (decide ((e_value e).1 = k)) as [Hk|Hk]; [done|].
    erewrite bind_Ret by (by apply get_next_node_Some). cbn [cell_next next_node].
    apply IH; [done|done|simpl in Hf; lia].
Qed.

(** The run that starts at the first entry of bucket [b] holds every entry
    of the bucket. *)
Lemma bucket_run_complete s l1 e0 l2 n arr e :
  table_ok hasher s (l1 ++ e0 :: l2) n arr → e_cached e0 ∉ cacheds l1 →
  e ∈ l1 ++ e0 :: l2 → e_cached e = e_cached e0 →
  find_run (e_cached e0) (e_key e) (e0 :: l2) = Some e.
Proof.
  intros [_ _ _ Hco Hk] Hl1 He Hc.
  apply contiguous_app in Hco as [_ Hco]. rewrite fmap_app in Hk.
  apply NoDup_app in Hk as (_ & _ & Hk).
  apply find_run_complete; [done|done|done| |done|done].
  apply elem_of_app in He as [He|He]; [|done].
  destruct Hl1. rewrite <- Hc. by apply list_elem_of_fmap_2.
Qed.

Lemma __find_present m s l e :
  repr hasher m s l → e ∈ l →
  __find hasher (e_key e) m = Ret (Some (e_addr e)) m.
Proof.
  intros Hr He. pose proof Hr as [HE Hl (arr & Harr & Ht) Hsz].
  destruct (to_cached _ _ _ _ _ Ht e He) as [Hc Hlt].
  assert (buckets_count m ≠ 0) as Hn by lia.
  apply noexcept_Ret. erewrite bind_Ret by by apply __hash_ok.
  rewrite <- Hc. erewrite bind_Ret by by eapply repr_get_bucket.
  destruct (anchor (Some s) l (e_cached e)) as [pa|] eqn:Han.
  - rewrite decide_False by done.
    destruct (enter_bucket _ _ _ _ _ Hl Han) as (l1 & e0 & l2 & -> & Hl1 & He0 & Hpa & Hnx).
    erewrite bind_Ret by done. rewrite bind_gets.
    pose proof (lr_chain _ _ _ Hl) as Hch. apply chain_app in Hch as [_ Hch].
    pose proof (list_repr_not_sentinel _ _ _ Hl) as Hs.
    rewrite fmap_app, not_elem_of_app in Hs. destruct Hs as [_ Hs].
    rewrite (__find_loop_spec m s _ _ (e0 :: l2)); [|done|done|done|].
    + rewrite <- He0. erewrite bucket_run_complete; [done|done| |done|done].
      by rewrite He0.
    + apply repr_fuel in Hr. rewrite length_app in Hr. lia.
  - apply anchor_None in Han. destruct Han. by apply list_elem_of_fmap_2.
Qed.

Lemma __find_absent m s l k :
  repr hasher m s l → buckets_count m ≠ 0 → k ∉ keys l →
  __find hasher k m = Ret (Some s) m.
Proof.
  intros Hr Hn Hk. pose proof Hr as [HE Hl (arr & Harr & Ht) Hsz].
  apply noexcept_Ret. erewrite bind_Ret by by apply __hash_ok.
  assert (hasher k `mod` buckets_count m < buckets_count m) as Hlt
    by by apply Nat.mod_upper_bound.
  erewrite bind_Ret by by eapply repr_get_bucket.
  destruct (anchor (Some s) l _) as [pa|] eqn:Han.
  - rewrite decide_False by done.
    destruct (enter_bucket _ _ _ _ _ Hl Han) as (l1 & e0 & l2 & -> & Hl1 & He0 & Hpa & Hnx).
    erewrite bind_Ret by done. rewrite bind_gets.
    pose proof (lr_chain _ _ _ Hl) as Hch. apply chain_app in Hch as [_ Hch].
    pose proof (list_repr_not_sentinel _ _ _ Hl) as Hs.
    rewrite fmap_app, not_elem_of_app in Hs. destruct Hs as [_ Hs].
    rewrite (__find_loop_spec m s _ _ (e0 :: l2)); [|done|done|done|].
    + destruct (find_run _ k (e0 :: l2)) as [e|] eqn:Hf; [|done].
      apply find_run_Some in Hf as (r & l3 & Heq & _ & Hke & _).
      destruct Hk. rewrite <- Hke. apply list_elem_of_fmap_2.
      rewrite elem_of_app. right. rewrite Heq, elem_of_app, elem_of_cons. auto.
    + apply repr_fuel in Hr. rewrite length_app in Hr. lia.
  - rewrite decide_True by done. by rewrite <- HE.
Qed.

Lemma __find_in_bucket_present m s l e :
  repr hasher m s l → e ∈ l →
  __find_in_bucket (e_cached e) (e_key e) m = Ret true m.
Proof.
  intros Hr He. pose proof Hr as [HE Hl (arr & Harr & Ht) Hsz].
  destruct (to_cached _ _ _ _ _ Ht e He) as [Hc Hlt].
  apply noexcept_Ret. erewrite bind_Ret by by eapply repr_get_bucket.
  destruct (anchor (Some s) l (e_cached e)) as [pa|] eqn:Han.
  - rewrite decide_False by done.
    destruct (enter_bucket _ _ _ _ _ Hl Han) as (l1 & e0 & l2 & -> & Hl1 & He0 & Hpa & Hnx).
    erewrite bind_Ret by done. rewrite bind_gets.
    pose proof (lr_chain _ _ _ Hl) as Hch. apply chain_app in Hch as [_ Hch].
    pose proof (list_repr_not_sentinel _ _ _ Hl) as Hs.
    rewrite fmap_app, not_elem_of_app in Hs. destruct Hs as [_ Hs].
    rewrite (__find_in_bucket_loop_spec m s _ _ (e0 :: l2)); [|done|done|done|].
    + rewrite <- He0. erewrite bucket_run_complete; [|done| |done|done].
      * by rewrite bool_decide_eq_true_2.
      * by rewrite He0.
    + apply repr_fuel in Hr. rewrite length_app in Hr. lia.
  - apply anchor_None in Han. destruct Han. by apply list_elem_of_fmap_2.
Qed.

Lemma __find_in_bucket_absent m s l b k :
  repr hasher m s l → b < buckets_count m → k ∉ keys l →
  __find_in_bucket b k m = Ret false m.
Proof.
  intros Hr Hlt Hk. pose proof Hr as [HE Hl (arr & Harr & Ht) Hsz].
  apply noexcept_Ret. erewrite bind_Ret by by eapply repr_get_bucket.
  destruct (anchor (Some s) l _) as [pa|] eqn:Han.
  - rewrite decide_False by done.
    destruct (enter_bucket _ _ _ _ _ Hl Han) as (l1 & e0 & l2 & -> & Hl1 & He0 & Hpa & Hnx).
    erewrite bind_Ret by done. rewrite bind_gets.
    pose proof (lr_chain _ _ _ Hl) as Hch. apply chain_app in Hch as [_ Hch].
    pose proof (list_repr_not_sentinel _ _ _ Hl) as Hs.
    rewrite fmap_app, not_elem_of_app in Hs. destruct Hs as [_ Hs].
    rewrite (__find_in_bucket_loop_spec m s _ _ (e0 :: l2)); [|done|done|done|].
    + destruct (find_run _ k (e0 :: l2)) as [e|] eqn:Hf.
      * apply find_run_Some in Hf as (r & l3 & Heq & _ & Hke & _).
        destruct Hk. rewrite <- Hke. apply list_elem_of_fmap_2.
        rewrite elem_of_app. right. rewrite Heq, elem_of_app, elem_of_cons. auto.
      * rewrite bool_decide_eq_false_2; [done|]. by intros [? ?].
    + apply repr_fuel in Hr. rewrite length_app in Hr. lia.
  - by rewrite decide_True by done.
Qed.

(** ** Insertion *)

Ltac proj_simpl :=
  cbn [heap buckets Elist _size buckets_count _max_load_factor
       set_heap set_buckets set_size set_Elist set_buckets_count
       set_max_load_factor].

Ltac heap_lookup :=
  proj_simpl;
  repeat first [ rewrite lookup_insert_eq
               | rewrite lookup_insert_ne by (done || congruence) ];
  first [ reflexivity | eassumption ].

Ltac msimpl :=
  proj_simpl; cbn [cell_next cell_set_next next_node cached value].

Ltac mstep :=
  msimpl;
  first
    [ rewrite bind_assoc
    | rewrite bind_ret
    | rewrite bind_gets
    | rewrite bind_modify
    | erewrite bind_Ret;
      [| first [ eapply get_next_node_Some; heap_lookup
               | eapply get_cached_Some; heap_lookup
               | eapply get_value_Some; heap_lookup
               | eapply set_next_node_Some; heap_lookup
               | eapply set_cached_Some; heap_lookup
               | eapply delete_Node_Some; heap_lookup
               | eapply set_bucket_lt;
                 [ proj_simpl; first [ eassumption | reflexivity ]
                 | rewrite ?length_insert; lia ]
               | eapply array_set_lt; rewrite ?length_insert; lia ] ] ];
  msimpl.

Lemma repr_linked m s l :
  repr hasher m s l ↔ linked hasher m s l ∧ _size m = length l.
Proof.
  split.
  - intros [? ? ? ?]. split; [split_and!|]; done.
  - intros [(? & ? & ?) ?]. by split.
Qed.

Lemma list_repr_alloc h s l a c :
  list_repr h s l → h !! a = None → list_repr (<[a := c]> h) s l.
Proof.
  intros [Hs Hc Hn] Ha.
  assert (a ≠ s) by (intros ->; congruence).
  assert (a ∉ addrs l).
  { intros (e & -> & He)%list_elem_of_fmap.
    destruct (chain_elem _ _ _ _ Hc He) as [? ?]. congruence. }
  split; [by rewrite lookup_insert_ne|by apply chain_insert_ne|done].
Qed.

Lemma __insert_in_empty_bucket_spec m s l a n :
  linked hasher m s l →
  heap m !! a = Some (node_cell n) → a ≠ s → a ∉ addrs l →
  cached n = hasher (value n).1 `mod` buckets_count m →
  cached n < buckets_count m →
  anchor (Some s) l (cached n) = None → (value n).1 ∉ keys l →
  ∃ m', __insert_in_empty_bucket (cached n) (Some a) m = Ret tt m'
        ∧ linked hasher m' s (mkEntry a (cached n) (value n) :: l)
        ∧ _size m' = _size m ∧ buckets_count m' = buckets_count m
        ∧ _max_load_factor m' = _max_load_factor m.
Proof.
  intros (HE & Hl & arr & Harr & Ht) Ha Has Hal Hc Hlt Han Hk.
  pose proof (lr_sentinel _ _ _ Hl) as Hs.
  pose proof (to_length _ _ _ _ _ Ht) as Hlen.
  assert (list_repr
    (<[s := cell_set_next (Some a) (sentinel_cell (head_ptr l (Some s)))]>
       (<[a := node_cell (mkNode (head_ptr l (Some s)) (cached n) (value n))]>
          (heap m))) s ([] ++ mkEntry a (cached n) (value n) :: l)) as Hl'.
  { by apply list_repr_link. }
  pose proof (table_ok_front s l _ arr (mkEntry a (cached n) (value n)) Ht Hc Hlt Han Hk)
    as Ht'.
  unfold __insert_in_empty_bucket. rewrite bind_gets, HE.
  destruct l as [|e0 l].
  - eexists. split.
    { do 5 mstep. rewrite decide_True by done. done. }
    split; [|done]. split; [done|]. split; [done|]. by eexists.
  - assert (e_cached e0 < buckets_count m) as Hlt0.
    { apply (to_cached _ _ _ _ _ Ht). apply list_elem_of_here. }
    pose proof (lr_chain _ _ _ Hl) as [He0 _].
    rewrite fmap_cons, not_elem_of_cons in Hal. destruct Hal as [Hae0 Hal].
    pose proof (list_repr_not_sentinel _ _ _ Hl) as Hsl.
    rewrite fmap_cons, not_elem_of_cons in Hsl. destruct Hsl as [Hse0 Hsl].
    eexists. split.
    { do 5 mstep. cbn [head_ptr]. rewrite decide_False by congruence.
      mstep. eapply set_bucket_lt; [proj_simpl; reflexivity|rewrite length_insert; lia]. }
    split; [|done]. split; [done|]. split; [done|]. by eexists.
Qed.

Lemma __insert_in_nonempty_bucket_spec m s l a n pa :
  linked hasher m s l →
  heap m !! a = Some (node_cell n) → a ≠ s → a ∉ addrs l →
  cached n = hasher (value n).1 `mod` buckets_count m →
  cached n < buckets_count m →
  anchor (Some s) l (cached n) = Some pa → (value n).1 ∉ keys l →
  ∃ m' l1 l2, l = l1 ++ l2
        ∧ __insert_in_nonempty_bucket (cached n) (Some a) m = Ret tt m'
        ∧ linked hasher m' s (l1 ++ mkEntry a (cached n) (value n) :: l2)
        ∧ _size m' = _size m ∧ buckets_count m' = buckets_count m
        ∧ _max_load_factor m' = _max_load_factor m.
Proof.
  intros (HE & Hl & arr & Harr & Ht) Ha Has Hal Hc Hlt Han Hk.
  destruct (enter_bucket _ _ _ _ _ Hl Han)
    as (l1 & e0 & l2 & -> & Hl1 & He0 & Hpa & Hnx).
  destruct (list_repr_next _ _ _ _ Hl) as (pa' & cp & Hpa' & Hcp & Hcn & Hin).
  rewrite Hpa in Hpa'. injection Hpa' as <-.
  assert (pa ≠ a) as Hpaa.
  { intros ->. destruct Hin as [[? _]|Hin]; [done|].
    apply Hal. rewrite fmap_app, elem_of_app. by left. }
  pose proof (list_repr_link _ _ _ _ a (cached n) (value n) _ _ Hl Has Hal Hpa Hcp)
    as Hl'.
  pose proof (table_ok_middle s l1 e0 l2 _ arr (mkEntry a (cached n) (value n))
                Ht Hc Hlt) as Ht'.
  specialize (Ht' Hl1 He0 Hk).
  pose proof (to_anchor _ _ _ _ _ Ht _ Hlt) as Hb. rewrite Han in Hb.
  exists (set_heap (λ _, <[pa := cell_set_next (Some a) cp]>
     (<[a := node_cell (mkNode (head_ptr (e0 :: l2) (Some s)) (cached n) (value n))]>
        (heap m))) m), l1, (e0 :: l2).
  split; [done|]. split.
  { unfold __insert_in_nonempty_bucket.
    erewrite bind_Ret by (by eapply get_bucket_Some).
    mstep. rewrite Hcn. mstep.
    erewrite bind_Ret by (by eapply get_bucket_Some).
    erewrite set_next_node_Some by heap_lookup. done. }
  split; [|done]. split; [done|]. split; [done|]. by eexists.
Qed.

(** ** Rehashing *)

Lemma list_repr_insert_ne h s l a c :
  list_repr h s l → a ≠ s → a ∉ addrs l → list_repr (<[a := c]> h) s l.
Proof.
  intros [Hs Hc Hn] ? ?.
  split; [by rewrite lookup_insert_ne|by apply chain_insert_ne|done].
Qed.

Lemma contents_middle l1 e l2 :
  contents (l1 ++ e :: l2) ≡ₚ (e_addr e, e_value e) :: contents (l1 ++ l2).
Proof. unfold contents. by rewrite <- Permutation_middle, fmap_cons. Qed.

Lemma contents_move l1 l2 todo e e' :
  e_addr e' = e_addr e → e_value e' = e_value e →
  contents ((l1 ++ e' :: l2) ++ todo) ≡ₚ contents ((l1 ++ l2) ++ e :: todo).
Proof.
  intros Ha Hv. rewrite <- app_assoc, <- app_comm_cons.
  rewrite (contents_middle l1 e'), (contents_middle (l1 ++ l2) e).
  by rewrite Ha, Hv, app_assoc.
Qed.

Lemma __rehash_loop_spec s nb todo : ∀ L m arr fuel,
  Elist m = Some s →
  list_repr (heap m) s L →
  table_ok hasher s L nb arr →
  chain (heap m) todo (Some s) →
  NoDup (s :: addrs (L ++ todo)) →
  NoDup (keys (L ++ todo)) →
  nb ≠ 0 ∨ todo = [] →
  length todo < fuel →
  ∃ h' arr' l',
    __rehash_loop hasher fuel nb arr (head_ptr todo (Some s)) m
    = Ret arr' (set_heap (λ _, h') m)
    ∧ list_repr h' s l' ∧ table_ok hasher s l' nb arr'
    ∧ contents l' ≡ₚ contents (L ++ todo).
Proof.
  induction todo as [|x todo IH]; intros L m arr fuel HE Hl Ht Hch Hnd Hnk Hnb Hf.
  { destruct fuel; [simpl in Hf; lia|]. exists (heap m), arr, L.
    split; [|by rewrite app_nil_r].
    simpl. rewrite bind_gets, HE, decide_True by done. by destruct m. }
  destruct fuel as [|fuel]; [simpl in Hf; lia|].
  destruct Hnb as [Hnb|?]; [|done].
  destruct Hch as [Hx Hch]. set (a := e_addr x) in *.
  set (buck := hasher (e_value x).1 `mod` nb).
  assert (buck < nb) as Hlt by by apply Nat.mod_upper_bound.
  set (e' := mkEntry a buck (e_value x)).
  (* what the addresses and the keys are distinct from *)
  assert (NoDup (s :: a :: addrs (L ++ todo))) as Hnd'.
  { revert Hnd. by rewrite <- Permutation_middle, fmap_cons. }
  assert (a ≠ s ∧ (a ∉ addrs L) ∧ (a ∉ addrs todo) ∧ (s ∉ addrs todo)
          ∧ NoDup (s :: addrs (L ++ todo)))
    as (Has & HaL & Hat & Hst & Hnd'').
  { apply NoDup_cons in Hnd' as [Hs' Hnd']. apply NoDup_cons in Hnd' as [Ha' Hnd'].
    rewrite not_elem_of_cons in Hs'. destruct Hs' as [? Hs'].
    rewrite fmap_app, not_elem_of_app in Hs', Ha'.
    split_and!; [congruence|tauto|tauto|tauto|]. apply NoDup_cons.
    split; [|done]. by rewrite fmap_app, not_elem_of_app. }
  assert (∀ y, y ∈ addrs L → y ∉ addrs todo) as HLt.
  { apply NoDup_cons in Hnd'' as [_ Hnd'']. rewrite fmap_app in Hnd''.
    by apply NoDup_app in Hnd'' as (_ & ? & _). }
  assert (NoDup (e_key x :: keys (L ++ todo))) as Hnk'.
  { revert Hnk. by rewrite <- Permutation_middle, fmap_cons. }
  assert ((e_key e' ∉ keys L) ∧ NoDup (keys (L ++ todo))) as [HkL Hnk''].
  { apply NoDup_cons in Hnk' as [Hk' Hnk']. split; [|done].
    rewrite fmap_app, not_elem_of_app in Hk'. tauto. }
  pose proof (list_repr_insert_ne _ _ _ a
    (node_cell (mkNode (head_ptr todo (Some s)) buck (e_value x))) Hl Has HaL) as Hl1.
  pose proof (to_anchor _ _ _ _ _ Ht _ Hlt) as Hb.
  destruct (anchor (Some s) L buck) as [pa|] eqn:Han.
  - (* the bucket is not empty: link after its anchor *)
    destruct (bucket_split _ _ _ _ Han) as (l1 & e0 & l2 & -> & Hnl1 & He0 & Hpa).
    destruct (list_repr_next _ _ _ _ Hl1) as (pa' & cp & Hpa' & Hcp & Hcn & Hin).
    rewrite Hpa in Hpa'. injection Hpa' as <-.
    assert (pa ≠ a ∧ (pa ∉ addrs todo)) as [Hpaa Hpat].
    { destruct Hin as [[-> _]|Hin]; [by split|].
      assert (pa ∈ addrs (l1 ++ e0 :: l2)) as Hin'
        by (rewrite fmap_app, elem_of_app; by left).
      split; [|by apply HLt]. by intros ->. }
    pose proof (list_repr_link _ _ _ _ a buck (e_value x) _ _ Hl1 Has HaL Hpa Hcp)
      as Hl2.
    pose proof (table_ok_middle s l1 e0 l2 _ arr e' Ht eq_refl Hlt Hnl1 He0 HkL)
      as Ht2.
    match type of Hl2 with list_repr ?h _ _ => set (h2 := h) in * end.
    destruct (IH (l1 ++ e' :: e0 :: l2) (set_heap (λ _, h2) m) arr fuel)
      as (h' & arr' & l' & Hrun & Hl' & Ht' & Hperm);
      [exact HE|exact Hl2|exact Ht2| | | |by left|simpl in Hf; lia|].
    { proj_simpl. unfold h2. do 3 (apply chain_insert_ne; [done|]). done. }
    { rewrite <- app_assoc, <- !app_comm_cons, <- Permutation_middle, fmap_cons.
      rewrite <- app_assoc, <- app_comm_cons in Hnd'. exact Hnd'. }
    { rewrite <- app_assoc, <- !app_comm_cons, <- Permutation_middle, fmap_cons.
      rewrite <- app_assoc, <- app_comm_cons in Hnk'. exact Hnk'. }
    exists h', arr', l'. split; [|split; [done|split; [done|]]].
    + cbn [__rehash_loop head_ptr]. rewrite bind_gets, HE.
      rewrite decide_False by (by intros [= ?]).
      do 2 mstep. rewrite decide_False by done. mstep.
      erewrite bind_Ret by (by apply array_get_Some).
      rewrite decide_False by done. rewrite lookup_insert_ne in Hcp by done.
      do 2 mstep. rewrite Hcn. repeat mstep. exact Hrun.
    + rewrite Hperm. by apply contents_move.
  - (* the bucket is empty: link after the sentinel *)
    pose proof (lr_sentinel _ _ _ Hl1) as Hs.
    pose proof (to_length _ _ _ _ _ Ht) as Hlen.
    pose proof (list_repr_link _ s [] L a buck (e_value x) s _ Hl1 Has HaL eq_refl Hs)
      as Hl2.
    pose proof (table_ok_front s L nb arr e' Ht eq_refl Hlt Han HkL) as Ht2.
    match type of Hl2 with list_repr ?h _ _ => set (h2 := h) in * end.
    destruct (IH (e' :: L) (set_heap (λ _, h2) m) (front_fix s a buck L arr) fuel)
      as (h' & arr' & l' & Hrun & Hl' & Ht' & Hperm);
      [exact HE|exact Hl2|exact Ht2| | | |by left|simpl in Hf; lia|].
    { proj_simpl. unfold h2. do 3 (apply chain_insert_ne; [done|]). done. }
    { rewrite <- app_comm_cons, fmap_cons. exact Hnd'. }
    { rewrite <- app_comm_cons, fmap_cons. exact Hnk'. }
    exists h', arr', l'. split; [|split; [done|split; [done|]]].
    + cbn [__rehash_loop head_ptr]. rewrite bind_gets, HE.
      rewrite decide_False by (by intros [= ?]).
      do 2 mstep. rewrite decide_False by done. mstep.
      erewrite bind_Ret by (by apply array_get_Some).
      rewrite decide_True by done.
      rewrite lookup_insert_ne in Hs by done.
      do 6 mstep. destruct L as [|e0 L].
      * repeat mstep. cbn [head_ptr]. rewrite decide_True by done.
        repeat mstep. exact Hrun.
      * pose proof (lr_chain _ _ _ Hl) as [He0 _].
        assert (e_cached e0 < nb) as Hlt0.
        { apply (to_cached _ _ _ _ _ Ht). apply list_elem_of_here. }
        rewrite fmap_cons, not_elem_of_cons in HaL. destruct HaL as [Hae0 HaL].
        pose proof (list_repr_not_sentinel _ _ _ Hl) as Hsl.
        rewrite fmap_cons, not_elem_of_cons in Hsl. destruct Hsl as [Hse0 Hsl].
        repeat mstep. cbn [head_ptr]. rewrite decide_False by congruence.
        repeat mstep. exact Hrun.
    + rewrite Hperm. by apply (contents_move [] L todo).
Qed.

Lemma table_ok_nil s n :
  table_ok hasher s ([] : list (entry Key Value)) n (replicate n None).
Proof.
  split.
  - by intros e ?%elem_of_nil.
  - by rewrite length_replicate.
  - intros b Hb. by rewrite lookup_replicate_2.
  - done.
  - constructor.
Qed.

Lemma contents_length l l' : contents l' ≡ₚ contents l → length l' = length l.
Proof. intros Hp%Permutation_length. unfold contents in Hp. by rewrite !length_fmap in Hp. Qed.

Lemma __rehash_spec m s l n :
  linked hasher m s l → n ≠ 0 ∨ l = [] →
  ∃ m' l', __rehash hasher n m = Ret tt m'
    ∧ linked hasher m' s l' ∧ contents l' ≡ₚ contents l
    ∧ buckets_count m' = n ∧ _size m' = _size m
    ∧ _max_load_factor m' = _max_load_factor m.
Proof.
  intros (HE & Hl & arr & Harr & Ht) Hn. pose proof Hl as [Hs Hc Hnd].
  pose proof (list_repr_not_sentinel _ _ _ Hl) as Hsl.
  set (h0 := <[s := sentinel_cell (Some s)]> (heap m)).
  destruct (__rehash_loop_spec s n l [] (set_heap (λ _, h0) m)
              (replicate n None) (fuel_of (set_heap (λ _, h0) m)))
    as (h' & arr' & l' & Hrun & Hl' & Ht' & Hperm).
  - done.
  - split; [by apply lookup_insert_eq|done|]. apply NoDup_singleton.
  - apply table_ok_nil.
  - by apply chain_insert_ne.
  - done.
  - apply (to_keys _ _ _ _ _ Ht).
  - done.
  - eapply chain_fuel; [|by apply chain_insert_ne|done].
    proj_simpl. unfold h0. by rewrite lookup_insert_eq.
  - exists (set_buckets (Some arr') (set_buckets_count n (set_heap (λ _, h') m))), l'.
    split; [|split; [|done]].
    + unfold __rehash. rewrite bind_gets, HE. do 3 mstep.
      erewrite bind_Ret by exact Hrun. by repeat mstep.
    + split; [done|]. split; [done|]. by eexists.
Qed.

Lemma linked_set_size m s l n :
  linked hasher m s l → linked hasher (set_size n m) s l.
Proof. done. Qed.

Lemma insert_zero_buckets m v :
  buckets_count m = 0 → insert hasher v m = Throw InvalidState m.
Proof.
  intros Hz. unfold insert. by erewrite bind_Throw by by apply __hash_zero.
Qed.

Lemma insert_present m s l e v :
  repr hasher m s l → e ∈ l →
  insert hasher (e_key e, v) m = Throw DuplicateKey m.
Proof.
  intros Hr He. pose proof Hr as [HE Hl (arr & Harr & Ht) Hsz].
  destruct (to_cached _ _ _ _ _ Ht e He) as [Hc Hlt].
  unfold insert. cbn [fst]. erewrite bind_Ret by (apply __hash_ok; lia).
  rewrite <- Hc. by erewrite bind_Ret by by eapply __find_in_bucket_present.
Qed.

Lemma insert_spec m s l v :
  repr hasher m s l → buckets_count m ≠ 0 → v.1 ∉ keys l →
  ∃ m' l',
    insert hasher v m = Ret (Some (fresh (dom (heap m)))) m'
    ∧ repr hasher m' s l'
    ∧ contents l' ≡ₚ (fresh (dom (heap m)), v) :: contents l
    ∧ _max_load_factor m' = _max_load_factor m
    ∧ buckets_count m'
      = if Qle_bool (_max_load_factor m)
             (inject_Z (Z.of_nat (S (_size m) `div` buckets_count m)))
        then buckets_count m * 2 else buckets_count m.
Proof.
  intros Hr Hn Hk. pose proof Hr as [HE Hl (arr & Harr & Ht) Hsz].
  set (a := fresh (dom (heap m))).
  set (buck := hasher v.1 `mod` buckets_count m).
  assert (buck < buckets_count m) as Hlt by by apply Nat.mod_upper_bound.
  assert (heap m !! a = None) as Hfresh.
  { apply not_elem_of_dom. apply is_fresh. }
  set (n := mkNode None buck v).
  set (m1 := set_heap (<[a := node_cell n]>) m).
  assert (a ≠ s) as Has by (intros Heq; rewrite Heq, (lr_sentinel _ _ _ Hl) in Hfresh; done).
  assert (a ∉ addrs l) as Hal.
  { intros (e & Hae & He)%list_elem_of_fmap.
    destruct (chain_elem _ _ _ _ (lr_chain _ _ _ Hl) He) as [? Hx].
    rewrite <- Hae in Hx. congruence. }
  assert (linked hasher m1 s l) as Hlk1.
  { split; [done|]. split; [by apply list_repr_alloc|]. by exists arr. }
  assert (heap m1 !! a = Some (node_cell n)) as Ha1 by apply lookup_insert_eq.
  assert (∃ m2 l2,
    (if decide (anchor (Some s) l buck = None)
     then __insert_in_empty_bucket buck (Some a)
     else __insert_in_nonempty_bucket buck (Some a)) m1 = Ret tt m2
    ∧ linked hasher m2 s l2 ∧ contents l2 ≡ₚ (a, v) :: contents l
    ∧ _size m2 = _size m ∧ buckets_count m2 = buckets_count m
    ∧ _max_load_factor m2 = _max_load_factor m)
    as (m2 & l2 & Hrun2 & Hlk2 & Hperm2 & Hsz2 & Hbc2 & Hmlf2).
  { destruct (anchor (Some s) l buck) as [pa|] eqn:Han.
    - rewrite decide_False by done.
      destruct (__insert_in_nonempty_bucket_spec m1 s l a n pa)
        as (m2 & l1 & l2 & -> & Hrun & Hlk & ? & ? & ?); [done..|].
      exists m2, (l1 ++ mkEntry a buck v :: l2). split_and!; [done..| |done|done|done].
      by rewrite contents_middle.
    - rewrite decide_True by done.
      destruct (__insert_in_empty_bucket_spec m1 s l a n)
        as (m2 & Hrun & Hlk & ? & ? & ?); [done..|].
      exists m2, (mkEntry a buck v :: l). by split_and!. }
  assert (length l2 = S (length l)) as Hlen2.
  { apply Permutation_length in Hperm2. unfold contents in Hperm2.
    cbn [length] in Hperm2. by rewrite !length_fmap in Hperm2. }
  destruct (Qle_bool (_max_load_factor m)
              (inject_Z (Z.of_nat (S (_size m) `div` buckets_count m)))) eqn:Hq.
  - destruct (__rehash_spec (set_size (_size m2 + 1) m2) s l2 (buckets_count m * 2))
      as (m3 & l3 & Hrun3 & Hlk3 & Hperm3 & Hbc3 & Hsz3 & Hmlf3);
      [done|left; lia|].
    exists m3, l3. split; [|split_and!].
    + unfold insert. erewrite bind_Ret by by apply __hash_ok.
      erewrite bind_Ret by by eapply __find_in_bucket_absent.
      cbv beta iota. erewrite bind_Ret by reflexivity.
      erewrite bind_Ret by (eapply get_bucket_Some; [exact Harr|by apply Ht]).
      erewrite bind_Ret by exact Hrun2.
      repeat mstep. rewrite Hsz2, Hbc2, Hmlf2, Nat.add_1_r, Hq.
      rewrite Hsz2, Nat.add_1_r in Hrun3. erewrite bind_Ret by exact Hrun3. done.
    + apply repr_linked. split; [done|]. rewrite Hsz3. proj_simpl.
      rewrite (contents_length _ _ Hperm3). lia.
    + by rewrite Hperm3.
    + by rewrite Hmlf3.
    + done.
  - exists (set_size (_size m2 + 1) m2), l2. split; [|split_and!].
    + unfold insert. erewrite bind_Ret by by apply __hash_ok.
      erewrite bind_Ret by by eapply __find_in_bucket_absent.
      cbv beta iota. erewrite bind_Ret by reflexivity.
      erewrite bind_Ret by (eapply get_bucket_Some; [exact Harr|by apply Ht]).
      erewrite bind_Ret by exact Hrun2.
      repeat mstep. rewrite Hsz2, Hbc2, Hmlf2, Nat.add_1_r, Hq. done.
    + apply repr_linked. split; [done|]. proj_simpl. lia.
    + done.
    + done.
    + done.
Qed.

(** ** Erasure *)

(** The cell before position [L]: the sentinel, or the last node of [L]. *)
Lemma list_repr_before h s L l2 :
  list_repr h s (L ++ l2) →
  (L = [] ∧ h !! s = Some (sentinel_cell (head_ptr l2 (Some s))))
  ∨ (∃ y, last L = Some y ∧ e_addr y ≠ s
          ∧ h !! e_addr y
            = Some (node_cell (mkNode (head_ptr l2 (Some s)) (e_cached y)
                                      (e_value y)))).
Proof.
  intros Hl. pose proof (list_repr_not_sentinel _ _ _ Hl) as Hs.
  destruct Hl as [Hsen Hc _]. destruct L as [|y L _] using rev_ind; [by left|].
  right. exists y. rewrite last_snoc. split; [done|]. split.
  - intros Heq. apply Hs. rewrite !fmap_app, !elem_of_app. left. right.
    rewrite <- Heq. apply list_elem_of_here.
  - rewrite <- app_assoc in Hc. by apply chain_lookup in Hc.
Qed.

Lemma outside_bucket_sentinel m s b :
  Elist m = Some s → outside_bucket b (Some s) m = Ret true m.
Proof.
  intros HE. unfold outside_bucket. rewrite bind_gets, HE.
  by rewrite decide_True.
Qed.

Lemma outside_bucket_node m s b a n :
  Elist m = Some s → a ≠ s → heap m !! a = Some (node_cell n) →
  outside_bucket b (Some a) m = Ret (bool_decide (cached n ≠ b)) m.
Proof.
  intros HE Ha Hn. unfold outside_bucket. rewrite bind_gets, HE.
  rewrite decide_False by congruence.
  by erewrite bind_Ret by by apply get_cached_Some.
Qed.

Ltac mdecide :=
  first
    [ rewrite decide_True by (done || congruence)
    | rewrite decide_False by (done || congruence)
    | rewrite bool_decide_eq_true_2 by (done || congruence)
    | rewrite bool_decide_eq_false_2 by (intros ?; done || congruence) ];
  cbv beta iota.

Ltac mouter :=
  first
    [ erewrite bind_Ret; [| by apply outside_bucket_sentinel ]
    | erewrite bind_Ret;
      [| eapply outside_bucket_node; [ done | done | heap_lookup ] ] ];
  msimpl.

Ltac mrun := repeat first [ mstep | mouter | mdecide ].

(** Removing the entry [e] that the walk has reached. *)
Lemma erase_found m s L e l3 fuel :
  repr hasher m s (L ++ e :: l3) →
  ∃ m',
    erase_loop (S fuel) (e_cached e) (e_key e) (last_ptr (Some s) L)
      (Some (e_addr e)) m = Ret tt m'
    ∧ repr hasher m' s (L ++ l3)
    ∧ buckets_count m' = buckets_count m
    ∧ _max_load_factor m' = _max_load_factor m.
Proof.
  intros Hr. pose proof Hr as [HE Hl (arr & Harr & Ht) Hsz].
  pose proof (chain_lookup _ _ _ _ _ (lr_chain _ _ _ Hl)) as He.
  pose proof (table_ok_erase _ _ _ _ _ _ Ht) as Ht'.
  pose proof (to_length _ _ _ _ _ Ht) as Hlen.
  assert (e_cached e < buckets_count m) as Hlt.
  { apply (to_cached _ _ _ _ _ Ht). rewrite elem_of_app, elem_of_cons. auto. }
  assert (_size m - 1 = length (L ++ l3)) as Hsz'.
  { rewrite Hsz, !length_app. simpl. lia. }
  assert (e_addr e ≠ s) as Hes.
  { pose proof (list_repr_not_sentinel _ _ _ Hl) as Hs. intros Heq. apply Hs.
    rewrite fmap_app, fmap_cons, elem_of_app, elem_of_cons. auto. }
  assert (NoDup (e_addr e :: addrs (L ++ l3))) as Hnd.
  { destruct Hl as [_ _ Hnd]. apply NoDup_cons in Hnd as [_ Hnd].
    revert Hnd. by rewrite <- Permutation_middle, fmap_cons. }
  apply NoDup_cons in Hnd as [HeL Hnd]. rewrite fmap_app, not_elem_of_app in HeL.
  destruct HeL as [HeL Hel3].
  unfold e_key.
  destruct (list_repr_before _ _ _ _ Hl) as [[-> Hsen]|(y & Hy & Hys & Hyc)].
  - (* [e] is the first node of the list *)
    pose proof (list_repr_unlink _ _ [] e l3 s _ Hl eq_refl Hsen) as Hl'.
    unfold erase_fix, outside in Ht'. cbn [last] in Ht'.
    cbn [last_ptr last app] in *.
    destruct l3 as [|e3 l3].
    + eexists. split; [cbn [erase_loop]; mrun; reflexivity|].
      split; [|done]. apply repr_linked. split; [|done].
      split; [done|]. split; [done|]. by eexists.
    + pose proof (lr_chain _ _ _ Hl) as (_ & He3 & _).
      assert (e_cached e3 < buckets_count m) as Hlt3.
      { apply (to_cached _ _ _ _ _ Ht). rewrite !elem_of_cons. auto. }
      assert (e_addr e3 ≠ s) as He3s.
      { pose proof (list_repr_not_sentinel _ _ _ Hl) as Hs. intros Heq.
        apply Hs. rewrite !fmap_cons, !elem_of_cons. auto. }
      rewrite fmap_cons, not_elem_of_cons in Hel3. destruct Hel3 as [Hee3 _].
      cbn [head_ptr] in *.
      destruct (decide (e_cached e3 = e_cached e)) as [Heq|Hne].
      * eexists. split; [cbn [erase_loop]; mrun; reflexivity|].
        split; [|done]. apply repr_linked. split; [|done].
        split; [done|]. split; [done|]. by eexists.
      * eexists. split; [cbn [erase_loop]; mrun; reflexivity|].
        split; [|done]. apply repr_linked. split; [|done].
        split; [done|]. split; [done|]. by eexists.
  - (* [e] follows the node [y] *)
    assert (last_ptr (Some s) L = Some (e_addr y)) as Hpa
      by (unfold last_ptr; by rewrite Hy).
    pose proof (list_repr_unlink _ _ L e l3 _ _ Hl Hpa Hyc) as Hl'.
    unfold erase_fix, outside in Ht'. rewrite Hy, Hpa in Ht'. rewrite Hpa.
    assert (e_addr y ≠ e_addr e) as Hye.
    { intros Heq. apply HeL. rewrite <- Heq. apply list_elem_of_fmap_2.
      apply last_Some in Hy as [L' ->]. rewrite elem_of_app, elem_of_cons. auto. }
    destruct l3 as [|e3 l3].
    + cbn [head_ptr] in *.
      destruct (decide (e_cached y = e_cached e)) as [Heq|Hne].
      * rewrite bool_decide_eq_false_2 in Ht' by (intros ?; done).
        eexists. split; [cbn [erase_loop]; mrun; reflexivity|].
        split; [|done]. apply repr_linked. split; [|done].
        split; [done|]. split; [done|]. by eexists.
      * rewrite bool_decide_eq_true_2 in Ht' by done.
        eexists. split; [cbn [erase_loop]; mrun; reflexivity|].
        split; [|done]. apply repr_linked. split; [|done].
        split; [done|]. split; [done|]. by eexists.
    + pose proof (lr_chain _ _ _ Hl) as Hch.
      apply chain_app in Hch as (_ & _ & He3 & _).
      assert (e_cached e3 < buckets_count m) as Hlt3.
      { apply (to_cached _ _ _ _ _ Ht). rewrite elem_of_app, !elem_of_cons. auto. }
      assert (e_addr e3 ≠ s) as He3s.
      { pose proof (list_repr_not_sentinel _ _ _ Hl) as Hs. intros Heq.
        apply Hs. rewrite fmap_app, !fmap_cons, elem_of_app, !elem_of_cons. auto. }
      assert (e_addr y ≠ e_addr e3) as Hye3.
      { rewrite fmap_app in Hnd. apply NoDup_app in Hnd as (_ & Hnd & _).
        intros Heq. apply (Hnd (e_addr y)).
        - apply list_elem_of_fmap_2. apply last_Some in Hy as [L' ->].
          rewrite elem_of_app, elem_of_cons. auto.
        - rewrite Heq, fmap_cons. apply list_elem_of_here. }
      rewrite fmap_cons, not_elem_of_cons in Hel3. destruct Hel3 as [Hee3 _].
      cbn [head_ptr] in *.
      destruct (decide (e_cached e3 = e_cached e)) as [Heq3|Hne3].
      * eexists. split; [cbn [erase_loop]; mrun; reflexivity|].
        split; [|done]. apply repr_linked. split; [|done].
        split; [done|]. split; [done|]. by eexists.
      * destruct (decide (e_cached y = e_cached e)) as [Heq|Hne].
        -- rewrite bool_decide_eq_false_2 in Ht' by (intros ?; done).
           eexists. split; [cbn [erase_loop]; mrun; reflexivity|].
           split; [|done]. apply repr_linked. split; [|done].
           split; [done|]. split; [done|]. by eexists.
        -- rewrite bool_decide_eq_true_2 in Ht' by done.
           eexists. split; [cbn [erase_loop]; mrun; reflexivity|].
           split; [|done]. apply repr_linked. split; [|done].
           split; [done|]. split; [done|]. by eexists.
Qed.

Lemma erase_loop_spec s b k : ∀ l2 L m fuel,
  repr hasher m s (L ++ l2) → length l2 < fuel →
  match find_run b k l2 with
  | None =>
      erase_loop fuel b k (last_ptr (Some s) L) (head_ptr l2 (Some s)) m
      = Throw KeyNotFound m
  | Some e =>
      ∃ m' L' l3, L ++ l2 = L' ++ e :: l3
        ∧ erase_loop fuel b k (last_ptr (Some s) L) (head_ptr l2 (Some s)) m
          = Ret tt m'
        ∧ repr hasher m' s (L' ++ l3)
        ∧ buckets_count m' = buckets_count m
        ∧ _max_load_factor m' = _max_load_factor m
  end.
Proof.
  induction l2 as [|x l2 IH]; intros L m fuel Hr Hf.
  { destruct fuel; [simpl in Hf; lia|]. pose proof Hr as [HE _ _ _].
    cbn [find_run erase_loop head_ptr]. rewrite bind_gets, HE.
    by rewrite decide_True. }
  destruct fuel as [|fuel]; [simpl in Hf; lia|].
  pose proof Hr as [HE Hl _ _].
  pose proof (chain_lookup _ _ _ _ _ (lr_chain _ _ _ Hl)) as Hx.
  assert (e_addr x ≠ s) as Hxs.
  { pose proof (list_repr_not_sentinel _ _ _ Hl) as Hs. intros Heq. apply Hs.
    rewrite fmap_app, fmap_cons, elem_of_app, elem_of_cons. auto. }
  cbn [find_run head_ptr].
  destruct (decide (e_cached x = b)) as [Hb|Hb].
  - destruct (decide (e_key x = k)) as [Hk|Hk].
    + subst b k. destruct (erase_found m s L x l2 fuel Hr) as (m' & Hrun & Hr' & ?).
      by exists m', L, l2.
    + specialize (IH (L ++ [x]) m fuel). rewrite <- app_assoc in IH.
      specialize (IH Hr). rewrite last_ptr_snoc in IH.
      assert (erase_loop (S fuel) b k (last_ptr (Some s) L) (Some (e_addr x)) m
              = erase_loop fuel b k (Some (e_addr x)) (head_ptr l2 (Some s)) m)
        as ->.
      { cbn [erase_loop]. unfold e_key in Hk. by mrun. }
      apply IH. simpl in Hf. lia.
  - cbn [erase_loop]. by mrun.
Qed.

Lemma erase_zero_buckets m k :
  buckets_count m = 0 → erase hasher k m = Throw InvalidState m.
Proof.
  intros Hz. unfold erase. by erewrite bind_Throw by by apply __hash_zero.
Qed.

Lemma erase_empty_bucket m s l k :
  repr hasher m s l → buckets_count m ≠ 0 →
  anchor (Some s) l (hasher k `mod` buckets_count m) = None →
  erase hasher k m = Undefined.
Proof.
  intros Hr Hn Han. unfold erase. erewrite bind_Ret by by apply __hash_ok.
  erewrite bind_Ret.
  2:{ eapply repr_get_bucket; [done|]. by apply Nat.mod_upper_bound. }
  by rewrite Han.
Qed.

Lemma erase_enter m s l k pa :
  repr hasher m s l → buckets_count m ≠ 0 →
  anchor (Some s) l (hasher k `mod` buckets_count m) = Some pa →
  ∃ l1 e0 l2, l = l1 ++ e0 :: l2
    ∧ (e_cached e0 ∉ cacheds l1)
    ∧ e_cached e0 = hasher k `mod` buckets_count m
    ∧ erase hasher k m
      = erase_loop (fuel_of m) (e_cached e0) k (last_ptr (Some s) l1)
          (head_ptr (e0 :: l2) (Some s)) m
    ∧ length (e0 :: l2) < fuel_of m.
Proof.
  intros Hr Hn Han. pose proof Hr as [HE Hl _ _].
  destruct (enter_bucket _ _ _ _ _ Hl Han)
    as (l1 & e0 & l2 & -> & Hl1 & He0 & Hpa & Hnx).
  exists l1, e0, l2. rewrite He0. split_and!; [done..| |].
  - unfold erase. erewrite bind_Ret by by apply __hash_ok.
    erewrite bind_Ret.
    2:{ eapply repr_get_bucket; [done|]. by apply Nat.mod_upper_bound. }
    rewrite Han. erewrite bind_Ret by done. rewrite bind_gets.
    by rewrite Hpa.
  - apply repr_fuel in Hr. rewrite length_app in Hr. lia.
Qed.

Lemma erase_absent m s l k pa :
  repr hasher m s l → buckets_count m ≠ 0 →
  anchor (Some s) l (hasher k `mod` buckets_count m) = Some pa →
  k ∉ keys l →
  erase hasher k m = Throw KeyNotFound m.
Proof.
  intros Hr Hn Han Hk.
  destruct (erase_enter _ _ _ _ _ Hr Hn Han)
    as (l1 & e0 & l2 & -> & Hl1 & He0 & -> & Hf).
  pose proof (erase_loop_spec s (e_cached e0) k (e0 :: l2) l1 m _ Hr Hf) as Hsp.
  destruct (find_run _ k (e0 :: l2)) as [e|] eqn:Hfr; [|done].
  apply find_run_Some in Hfr as (r & l3 & Heq & _ & Hke & _).
  destruct Hk. rewrite <- Hke. apply list_elem_of_fmap_2.
  rewrite elem_of_app. right. rewrite Heq, elem_of_app, elem_of_cons. auto.
Qed.

Lemma erase_present m s l e :
  repr hasher m s l → e ∈ l →
  ∃ m' l1 l3, l = l1 ++ e :: l3
    ∧ erase hasher (e_key e) m = Ret tt m'
    ∧ repr hasher m' s (l1 ++ l3)
    ∧ buckets_count m' = buckets_count m
    ∧ _max_load_factor m' = _max_load_factor m.
Proof.
  intros Hr He. pose proof Hr as [HE Hl (arr & Harr & Ht) Hsz].
  destruct (to_cached _ _ _ _ _ Ht e He) as [Hc Hlt].
  assert (buckets_count m ≠ 0) as Hn by lia.
  destruct (anchor (Some s) l (hasher (e_key e) `mod` buckets_count m))
    as [pa|] eqn:Han.
  - destruct (erase_enter _ _ _ _ _ Hr Hn Han)
      as (l1 & e0 & l2 & Heq & Hl1 & He0 & -> & Hf). subst l.
    pose proof (erase_loop_spec s (e_cached e0) (e_key e) (e0 :: l2) l1 m _ Hr Hf)
      as Hsp.
    erewrite bucket_run_complete in Hsp; [|done|done|done|congruence].
    destruct Hsp as (m' & L' & l3 & ? & ? & ? & ? & ?). by exists m', L', l3.
  - apply anchor_None in Han. destruct Han. rewrite <- Hc.
    by apply list_elem_of_fmap_2.
Qed.

(** ** Clearing *)

Lemma clear_loop_spec s : ∀ l m fuel arr,
  Elist m = Some s → chain (heap m) l (Some s) → NoDup (s :: addrs l) →
  buckets m = Some arr → (∀ e, e ∈ l → e_cached e < length arr) →
  length l < fuel →
  ∃ h' arr',
    clear_loop fuel (head_ptr l (Some s)) m
    = Ret tt (set_buckets (Some arr') (set_heap (λ _, h') m))
    ∧ h' !! s = heap m !! s ∧ length arr' = length arr
    ∧ (∀ b, b ∈ cacheds l → b < length arr → arr' !! b = Some None)
    ∧ (∀ b, b ∉ cacheds l → arr' !! b = arr !! b)
    ∧ (l = [] → h' = heap m ∧ arr' = arr).
Proof.
  induction l as [|x l IH]; intros m fuel arr HE Hc Hnd Harr Hlt Hf.
  { destruct fuel; [simpl in Hf; lia|]. exists (heap m), arr.
    split; [|split_and!; [done|done|by intros b ?%elem_of_nil|done|done]].
    cbn [clear_loop head_ptr].
    rewrite bind_gets, HE, decide_True by done. destruct m. simpl in Harr.
    by subst. }
  destruct fuel as [|fuel]; [simpl in Hf; lia|]. destruct Hc as [Hx Hc].
  assert (e_cached x < length arr) as Hltx by apply Hlt, list_elem_of_here.
  assert (NoDup (e_addr x :: s :: addrs l)) as Hnd'.
  { revert Hnd. by rewrite fmap_cons, Permutation_swap. }
  apply NoDup_cons in Hnd' as [Hxn Hnd']. rewrite not_elem_of_cons in Hxn.
  destruct Hxn as [Hxs Hxl].
  destruct (IH (set_heap (delete (e_addr x))
                  (set_buckets (Some (<[e_cached x := None]> arr)) m))
               fuel (<[e_cached x := None]> arr))
    as (h' & arr' & Hrun & Hs' & Hlen' & Hin' & Hout' & _).
  { done. }
  { proj_simpl. by apply chain_delete_ne. }
  { done. }
  { done. }
  { intros e He. rewrite length_insert. apply Hlt. by apply list_elem_of_further. }
  { simpl in Hf. lia. }
  exists h', arr'. split; [|split_and!].
  - cbn [clear_loop head_ptr]. rewrite bind_gets, HE.
    rewrite decide_False by congruence. mrun. exact Hrun.
  - rewrite Hs'. proj_simpl. by rewrite lookup_delete_ne.
  - by rewrite Hlen', length_insert.
  - intros b Hb Hbl. destruct (decide (b ∈ cacheds l)) as [Hbin|Hbin].
    + apply Hin'; [done|]. by rewrite length_insert.
    + rewrite Hout' by done. rewrite fmap_cons, elem_of_cons in Hb.
      destruct Hb as [->|?]; [|done]. by rewrite list_lookup_insert_eq.
  - intros b Hb. rewrite fmap_cons, not_elem_of_cons in Hb. destruct Hb as [Hbx Hbl].
    rewrite Hout' by done. by rewrite list_lookup_insert_ne.
  - done.
Qed.

Lemma clear_moved_from m : Elist m = None → clear m = Ret tt m.
Proof.
  intros HE. unfold clear. apply noexcept_Ret. rewrite bind_gets, HE.
  by rewrite decide_True.
Qed.

Lemma clear_spec m s l :
  repr hasher m s l →
  ∃ m', clear m = Ret tt m'
    ∧ repr hasher m' s []
    ∧ buckets_count m' = buckets_count m
    ∧ _max_load_factor m' = _max_load_factor m
    ∧ (l = [] → m' = m).
Proof.
  intros Hr. pose proof Hr as [HE Hl (arr & Harr & Ht) Hsz].
  pose proof Hl as [Hsen Hc Hnd].
  pose proof (to_length _ _ _ _ _ Ht) as Hlen.
  destruct (clear_loop_spec s l m (fuel_of m) arr)
    as (h' & arr' & Hrun & Hs' & Hlen' & Hin' & Hout' & Hnil); [done..| | |].
  { intros e He. rewrite Hlen. by apply (to_cached _ _ _ _ _ Ht). }
  { by apply repr_fuel in Hr. }
  rewrite Hsen in Hs'.
  eexists. split; [|split_and!].
  - unfold clear. apply noexcept_Ret. rewrite bind_gets, HE.
    rewrite decide_False by done. mrun.
    erewrite bind_Ret by exact Hrun. mrun. reflexivity.
  - split; [done| | |done].
    + split; [by apply lookup_insert_eq|done|apply NoDup_singleton].
    + exists arr'. split; [done|]. split.
      * by intros e ?%elem_of_nil.
      * by rewrite Hlen'.
      * intros b Hb. change (b < buckets_count m) in Hb.
        cbn [anchor]. rewrite <- Hlen in Hb.
        destruct (decide (b ∈ cacheds l)) as [Hbin|Hbin]; [by apply Hin'|].
        rewrite Hout' by done. rewrite Hlen in Hb.
        rewrite (to_anchor _ _ _ _ _ Ht b Hb). f_equal.
        by apply anchor_None.
      * done.
      * constructor.
  - done.
  - done.
  - intros ->. destruct (Hnil eq_refl) as [-> ->].
    destruct m as [h E n bc bs f]. unfold set_size, set_heap, set_buckets.
    cbn in *. rewrite insert_id by done. by subst.
Qed.

(** ** The invariant along the interface *)

Lemma Unordered_Map_repr n :
  repr hasher (Unordered_Map n : U_Map Key Value)
    (fresh (dom (∅ : gmap nat (cell Key Value)))) [].
Proof.
  split.
  - done.
  - split; [apply lookup_insert_eq|done|apply NoDup_singleton].
  - eexists. split; [done|]. apply table_ok_nil.
  - done.
Qed.

Lemma Unordered_Map_well_formed n :
  well_formed hasher (Unordered_Map n : U_Map Key Value).
Proof. eexists _, _. apply Unordered_Map_repr. Qed.

Lemma repr_max_load_factor m s l f :
  repr hasher m s l → repr hasher (set_max_load_factor f m) s l.
Proof. intros [? ? ? ?]. by split. Qed.

Lemma rehash_repr m s l n :
  repr hasher m s l → n ≠ 0 ∨ l = [] →
  ∃ m' l', __rehash hasher n m = Ret tt m'
    ∧ repr hasher m' s l' ∧ contents l' ≡ₚ contents l
    ∧ buckets_count m' = n
    ∧ _max_load_factor m' = _max_load_factor m.
Proof.
  intros [Hlk Hsz]%repr_linked Hn.
  destruct (__rehash_spec m s l n Hlk Hn)
    as (m' & l' & Hrun & Hlk' & Hperm & Hbc & Hsz' & Hmlf).
  exists m', l'. split_and!; [done| |done..].
  apply repr_linked. split; [done|].
  by rewrite Hsz', Hsz, (contents_length _ _ Hperm).
Qed.

(** Rehashing a populated container to no buckets takes a remainder by 0. *)
Lemma rehash_zero m s l :
  repr hasher m s l → l ≠ [] → __rehash hasher 0 m = Undefined.
Proof.
  intros [HE Hl _ _] Hne. destruct l as [|x l]; [done|].
  pose proof (lr_sentinel _ _ _ Hl) as Hs.
  pose proof (lr_chain _ _ _ Hl) as [Hx _].
  assert (e_addr x ≠ s) as Hxs.
  { pose proof (list_repr_not_sentinel _ _ _ Hl) as Hsl. intros Heq. apply Hsl.
    rewrite fmap_cons, Heq. apply list_elem_of_here. }
  unfold __rehash. rewrite bind_gets, HE. do 3 mstep.
  unfold fuel_of at 1. cbn [__rehash_loop head_ptr]. mrun. done.
Qed.

Lemma reserve_too_small m n :
  n < buckets_count m → reserve hasher n m = Throw InvalidArgument_reserve m.
Proof.
  intros Hlt. unfold reserve. rewrite bind_gets. by rewrite decide_True.
Qed.

Lemma reserve_rehash m n :
  ¬ n < buckets_count m → reserve hasher n m = __rehash hasher n m.
Proof.
  intros Hlt. unfold reserve. rewrite bind_gets. by rewrite decide_False.
Qed.

Lemma max_load_factor_rejects m f :
  Qle_bool f 0 = true →
  max_load_factor f m = Throw InvalidArgument_load_factor m.
Proof. intros Hf. unfold max_load_factor. by rewrite Hf. Qed.

Lemma max_load_factor_accepts m f :
  Qle_bool f 0 = false →
  max_load_factor f m = Ret tt (set_max_load_factor f m).
Proof. intros Hf. unfold max_load_factor. by rewrite Hf. Qed.

(** *** Membership as the interface reports it *)

Lemma contains_present m s l e :
  repr hasher m s l → e ∈ l → contains hasher (e_key e) m = Ret true m.
Proof.
  intros Hr He. pose proof Hr as [_ _ (arr & _ & Ht) _].
  destruct (to_cached _ _ _ _ _ Ht e He) as [Hc Hlt].
  apply noexcept_Ret. erewrite bind_Ret by (apply __hash_ok; lia).
  rewrite <- Hc. by eapply __find_in_bucket_present.
Qed.

Lemma contains_absent m s l k :
  repr hasher m s l → buckets_count m ≠ 0 → k ∉ keys l →
  contains hasher k m = Ret false m.
Proof.
  intros Hr Hn Hk. apply noexcept_Ret. erewrite bind_Ret by by apply __hash_ok.
  eapply __find_in_bucket_absent; [done| |done]. by apply Nat.mod_upper_bound.
Qed.

Lemma iterate_spec m s l fuel :
  Elist m = Some s → chain (heap m) l (Some s) → s ∉ addrs l →
  length l < fuel →
  iterate fuel (head_ptr l (Some s)) m = Ret (e_value <$> l) m.
Proof.
  intros HE. revert fuel. induction l as [|e l IH]; intros fuel Hc Hs Hf.
  - destruct fuel; [simpl in Hf; lia|]. cbn [iterate head_ptr].
    unfold end_. rewrite bind_gets, HE. by rewrite decide_True.
  - destruct fuel; [simpl in Hf; lia|]. destruct Hc as [He Hc].
    rewrite fmap_cons, not_elem_of_cons in Hs. destruct Hs as [Hse Hs].
    cbn [iterate head_ptr]. unfold end_, deref, incr. rewrite bind_gets, HE.
    rewrite decide_False by congruence. mrun.
    erewrite bind_Ret by (apply IH; [done|done|simpl in Hf; lia]). done.
Qed.

Lemma items_spec m s l :
  repr hasher m s l → items m = Ret (e_value <$> l) m.
Proof.
  intros Hr. pose proof Hr as [HE Hl _ _].
  unfold items, begin. rewrite bind_assoc, bind_gets, HE.
  erewrite bind_Ret by (eapply get_next_node_Some, (lr_sentinel _ _ _ Hl)).
  rewrite bind_gets. cbn [cell_next].
  apply iterate_spec; [done|apply Hl|by eapply list_repr_not_sentinel|].
  by eapply repr_fuel.
Qed.

Lemma items_keys l : (e_value <$> l).*1 = keys l.
Proof. by rewrite <- list_fmap_compose. Qed.

(** The node of an entry holds its value. *)
Lemma deref_entry m s l e :
  repr hasher m s l → e ∈ l → deref (Some (e_addr e)) m = Ret (e_value e) m.
Proof.
  intros [_ Hl _ _] He.
  destruct (chain_elem _ _ _ _ (lr_chain _ _ _ Hl) He) as [nx Hx].
  unfold deref. by erewrite get_value_Some by done.
Qed.

Lemma contents_elem l a v :
  (a, v) ∈ contents l ↔ ∃ e, e ∈ l ∧ e_addr e = a ∧ e_value e = v.
Proof.
  unfold contents. rewrite list_elem_of_fmap. split.
  - intros (e & [= -> ->] & He). by exists e.
  - intros (e & He & <- & <-). by exists e.
Qed.

(** *** The anchor invariant in the words of the specification *)

Lemma run_split b l : l = run_of b l ++ after_run b l.
Proof.
  induction l as [|e l IH]; [done|]. cbn [run_of after_run].
  case_decide; [|done]. cbn [app]. by f_equal.
Qed.

Lemma run_of_cached b l e : e ∈ run_of b l → e_cached e = b.
Proof.
  induction l as [|x l IH]; cbn [run_of]; [by intros ?%elem_of_nil|].
  case_decide; [|by intros ?%elem_of_nil].
  intros [->|?]%elem_of_cons; [done|by apply IH].
Qed.

Lemma after_run_head b l e : head (after_run b l) = Some e → e_cached e ≠ b.
Proof.
  induction l as [|x l IH]; cbn [after_run]; [done|].
  case_decide; [done|]. by intros [= <-].
Qed.

Lemma contiguous_after_run b l :
  contiguous l → e_cached <$> head l = Some b → b ∉ cacheds (after_run b l).
Proof.
  induction l as [|x l IH]; [done|]. intros Hc [= Hx].
  cbn [after_run]. rewrite decide_True by done.
  destruct l as [|y l]; [apply not_elem_of_nil|].
  destruct (decide (e_cached y = b)) as [Hy|Hy].
  - apply IH; [apply Hc|]. simpl. by rewrite Hy.
  - cbn [after_run]. rewrite decide_False by done. rewrite <- Hx.
    apply contiguous_last; [done|]. intros z [= <-]. congruence.
Qed.

Lemma repr_anchor_invariant m s l :
  repr hasher m s l → anchor_invariant hasher m.
Proof.
  intros [HE Hl (arr & Harr & Ht) Hsz]. exists s, l, arr.
  split_and!; [done|done|done|apply Ht|]. intros i Hi.
  rewrite (to_anchor _ _ _ _ _ Ht i Hi).
  destruct (anchor (Some s) l i) as [p|] eqn:Han.
  - destruct (bucket_split _ _ _ _ Han) as (l1 & e0 & l2 & -> & Hl1 & He0 & Hp).
    pose proof (to_contiguous _ _ _ _ _ Ht) as Hco.
    apply contiguous_app in Hco as [_ Hco].
    assert (i ∉ cacheds (after_run i (e0 :: l2))) as Hafter.
    { apply contiguous_after_run; [done|]. simpl. by rewrite He0. }
    exists l1, (run_of i (e0 :: l2)), (after_run i (e0 :: l2)).
    split_and!.
    + by rewrite <- run_split.
    + cbn [run_of]. by rewrite decide_True.
    + done.
    + intros e He. destruct (to_cached _ _ _ _ _ Ht e He) as [Hc _]. split.
      * intros <-%run_of_cached. done.
      * intros Hh. rewrite (run_split i (e0 :: l2)) in He.
        rewrite !elem_of_app in He. destruct He as [He|[He|He]]; [|done|].
        -- destruct Hl1. apply (list_elem_of_fmap_2 e_cached) in He.
           by rewrite Hc, Hh in He.
        -- destruct Hafter. apply (list_elem_of_fmap_2 e_cached) in He.
           by rewrite Hc, Hh in He.
    + intros e. apply run_of_cached.
    + intros e. apply after_run_head.
  - apply anchor_None in Han. intros e He Hh.
    destruct (to_cached _ _ _ _ _ Ht e He) as [Hc _]. apply Han.
    rewrite <- Hh, <- Hc. by apply list_elem_of_fmap_2.
Qed.

(** *** One call of the interface *)

Lemma run_op_spec m s l o m' :
  repr hasher m s l → after (run_op hasher o m) = Some m' →
  ∃ l', repr hasher m' s l'
    ∧ match o with
      | Insert v => l' = l ∨ ∃ a, contents l' ≡ₚ (a, v) :: contents l
      | Erase k =>
          l' = l ∨ ∃ l1 e l3, l = l1 ++ e :: l3 ∧ e_key e = k ∧ l' = l1 ++ l3
      | Reserve _ => contents l' ≡ₚ contents l
      | SetMaxLoadFactor _ => l' = l
      | Clear => l' = []
      end.
Proof.
  intros Hr Hafter. pose proof Hr as [HE Hl (arr & Harr & Ht) Hsz].
  destruct o as [v|k|n|f|]; cbn [run_op] in Hafter.
  - (* insert *)
    destruct (decide (buckets_count m = 0)) as [Hz|Hz].
    { rewrite (bind_Throw _ _ _ _ _ (insert_zero_buckets _ v Hz)) in Hafter.
      injection Hafter as <-. exists l. auto. }
    destruct (decide (v.1 ∈ keys l)) as [(e & Hk & He)%list_elem_of_fmap|Hk].
    { pose proof (insert_present _ _ _ _ v.2 Hr He) as Hi.
      rewrite <- Hk, <- surjective_pairing in Hi.
      rewrite (bind_Throw _ _ _ _ _ Hi) in Hafter.
      injection Hafter as <-. exists l. auto. }
    destruct (insert_spec _ _ _ _ Hr Hz Hk) as (m1 & l1 & Hi & Hr1 & Hperm & _).
    rewrite (bind_Ret _ _ _ _ _ Hi) in Hafter. injection Hafter as <-.
    exists l1. split; [done|]. right. by eexists.
  - (* erase *)
    destruct (decide (buckets_count m = 0)) as [Hz|Hz].
    { rewrite (erase_zero_buckets _ k Hz) in Hafter. injection Hafter as <-.
      exists l. auto. }
    destruct (anchor (Some s) l (hasher k `mod` buckets_count m)) as [pa|] eqn:Han;
      [|by rewrite (erase_empty_bucket _ _ _ _ Hr Hz Han) in Hafter].
    destruct (decide (k ∈ keys l)) as [(e & -> & He)%list_elem_of_fmap|Hk].
    + destruct (erase_present _ _ _ _ Hr He) as (m1 & l1 & l3 & Hsplit & He1 & Hr1 & _).
      rewrite He1 in Hafter. injection Hafter as <-.
      exists (l1 ++ l3). split; [done|]. right. by exists l1, e, l3.
    + rewrite (erase_absent _ _ _ _ _ Hr Hz Han Hk) in Hafter.
      injection Hafter as <-. exists l. auto.
  - (* reserve *)
    destruct (decide (n < buckets_count m)) as [Hlt|Hlt].
    { rewrite (reserve_too_small _ _ Hlt) in Hafter. injection Hafter as <-.
      by exists l. }
    rewrite (reserve_rehash _ _ Hlt) in Hafter.
    destruct (decide (n ≠ 0 ∨ l = [])) as [Hn|Hn].
    + destruct (rehash_repr _ _ _ _ Hr Hn) as (m1 & l1 & Hrun & Hr1 & Hperm & _).
      rewrite Hrun in Hafter. injection Hafter as <-. by exists l1.
    + assert (n = 0) as -> by (destruct n; [done|]; destruct Hn; by left).
      rewrite (rehash_zero m s l) in Hafter; [done|done|]. intros ->. tauto.
  - (* max_load_factor *)
    destruct (Qle_bool f 0) eqn:Hf.
    + rewrite (max_load_factor_rejects _ _ Hf) in Hafter.
      injection Hafter as <-. by exists l.
    + rewrite (max_load_factor_accepts _ _ Hf) in Hafter.
      injection Hafter as <-. exists l. split; [|done].
      by apply repr_max_load_factor.
  - (* clear *)
    destruct (clear_spec _ _ _ Hr) as (m1 & Hrun & Hr1 & _).
    rewrite Hrun in Hafter. injection Hafter as <-. by exists [].
Qed.

Lemma run_op_well_formed m o m' :
  well_formed hasher m → after (run_op hasher o m) = Some m' →
  well_formed hasher m'.
Proof.
  intros (s & l & Hr) Hafter.
  destruct (run_op_spec _ _ _ _ _ Hr Hafter) as (l' & Hr' & _). by exists s, l'.
Qed.

(** A call that neither erases [k] nor clears keeps the entry of [k]. *)
Lemma run_op_keeps m s l o m' a k v :
  repr hasher m s l → after (run_op hasher o m) = Some m' →
  o ≠ Erase k → o ≠ Clear → (a, (k, v)) ∈ contents l →
  ∃ l', repr hasher m' s l' ∧ (a, (k, v)) ∈ contents l'.
Proof.
  intros Hr Hafter Hne Hnc Hin.
  destruct (run_op_spec _ _ _ _ _ Hr Hafter) as (l' & Hr' & Hrel).
  exists l'. split; [done|]. destruct o as [v'|k'|n|f|].
  - destruct Hrel as [->|(a' & ->)]; [done|]. by apply list_elem_of_further.
  - destruct Hrel as [->|(l1 & e & l3 & -> & Hk & ->)]; [done|].
    apply contents_elem in Hin as (x & Hx & Hxa & Hxv). apply contents_elem.
    exists x. split; [|done]. revert Hx. rewrite !elem_of_app, elem_of_cons.
    intros [?|[->|?]]; [by left| |by right].
    destruct Hne. f_equal. unfold e_key in Hk. by rewrite <- Hk, Hxv.
  - by rewrite Hrel.
  - by subst.
  - done.
Qed.

Lemma run_ops_keeps ops : ∀ m s l m' a k v,
  repr hasher m s l → run_ops hasher ops m = Some m' →
  Forall (λ o, o ≠ Erase k ∧ o ≠ Clear) ops → (a, (k, v)) ∈ contents l →
  ∃ l', repr hasher m' s l' ∧ (a, (k, v)) ∈ contents l'.
Proof.
  induction ops as [|o ops IH]; intros m s l m' a k v Hr Hrun Hall Hin.
  - injection Hrun as <-. by exists l.
  - cbn [run_ops] in Hrun. apply Forall_cons in Hall as [[Hne Hnc] Hall].
    destruct (after (run_op hasher o m)) as [m1|] eqn:Hafter; [|done].
    destruct (run_op_keeps _ _ _ _ _ _ _ _ Hr Hafter Hne Hnc Hin) as (l1 & Hr1 & Hin1).
    by eapply IH.
Qed.

Lemma run_ops_well_formed ops : ∀ m m',
  well_formed hasher m → run_ops hasher ops m = Some m' →
  well_formed hasher m'.
Proof.
  induction ops as [|o ops IH]; intros m m' Hwf Hrun.
  - by injection Hrun as <-.
  - cbn [run_ops] in Hrun.
    destruct (after (run_op hasher o m)) as [m1|] eqn:Hafter; [|done].
    eapply IH; [|done]. by eapply run_op_well_formed.
Qed.

(** The entry that the lookup of a stored key reaches. *)
Lemma find_entry m s l a k v :
  repr hasher m s l → (a, (k, v)) ∈ contents l →
  find hasher k m = Ret (Some a) m ∧ deref (Some a) m = Ret (k, v) m.
Proof.
  intros Hr (e & He & <- & Hv)%contents_elem.
  assert (e_key e = k) as <- by (unfold e_key; by rewrite Hv).
  split.
  - by eapply __find_present.
  - rewrite <- Hv. by eapply deref_entry.
Qed.

Lemma after_bind_ret {A} (c : M Key Value A) m :
  after (bind c (λ _, ret tt) m) = after (c m).
Proof. unfold bind. by destruct (c m). Qed.

(** What a successful insertion did. *)
Lemma insert_Ret_inv m s l v it m' :
  repr hasher m s l → insert hasher v m = Ret it m' →
  ∃ a l', it = Some a ∧ repr hasher m' s l'
    ∧ contents l' ≡ₚ (a, v) :: contents l
    ∧ _size m' = S (_size m).
Proof.
  intros Hr Hi. pose proof Hr as [_ _ _ Hsz].
  destruct (decide (buckets_count m = 0)) as [Hz|Hz];
    [by rewrite (insert_zero_buckets _ v Hz) in Hi|].
  destruct (decide (v.1 ∈ keys l)) as [(e & Hk & He)%list_elem_of_fmap|Hk].
  { pose proof (insert_present _ _ _ _ v.2 Hr He) as Hi'.
    rewrite <- Hk, <- surjective_pairing in Hi'. congruence. }
  destruct (insert_spec _ _ _ _ Hr Hz Hk) as (m1 & l1 & Hi1 & Hr1 & Hperm & _).
  rewrite Hi1 in Hi. injection Hi as <- <-. eexists _, l1.
  split_and!; [done..|]. rewrite (repr_size _ _ _ _ Hr1), Hsz.
  apply Permutation_length in Hperm. unfold contents in Hperm.
  cbn [length] in Hperm. by rewrite !length_fmap in Hperm.
Qed.

(** ** The claims *)

(** C1. After every insert, erase and rehash (the automatic one, a call of
    [__rehash] and [reserve]), whether the call returns or throws, the
    container is well formed, and so the anchor invariant holds: for every
    bucket whose slot is not empty the slot holds the node just before the
    first entry of the bucket, and the run that starts after that node and
    goes on while the cached index is the bucket's holds exactly the entries
    whose key hashes to the bucket; an empty slot means that no key hashes
    to the bucket. *)
Theorem anchor_invariant_maintained m :
  well_formed hasher m →
  anchor_invariant hasher m
  ∧ (∀ v m', after (insert hasher v m) = Some m' →
       well_formed hasher m' ∧ anchor_invariant hasher m')
  ∧ (∀ k m', after (erase hasher k m) = Some m' →
       well_formed hasher m' ∧ anchor_invariant hasher m')
  ∧ (∀ n m', after (__rehash hasher n m) = Some m' →
       well_formed hasher m' ∧ anchor_invariant hasher m')
  ∧ (∀ n m', after (reserve hasher n m) = Some m' →
       well_formed hasher m' ∧ anchor_invariant hasher m').
Proof.
  intros Hwf.
  assert (∀ m', well_formed hasher m' →
            well_formed hasher m' ∧ anchor_invariant hasher m') as Hboth.
  { intros m' (s & l & Hr). split; [by exists s, l|].
    by eapply repr_anchor_invariant. }
  split_and!.
  - by apply Hboth.
  - intros v m' Hafter. apply Hboth.
    apply (run_op_well_formed m (Insert v)); [done|].
    cbn [run_op]. by rewrite after_bind_ret.
  - intros k m' Hafter. apply Hboth.
    by apply (run_op_well_formed m (Erase k)).
  - intros n m' Hafter. apply Hboth. destruct Hwf as (s & l & Hr).
    destruct (decide (n ≠ 0 ∨ l = [])) as [Hn|Hn].
    + destruct (rehash_repr _ _ _ _ Hr Hn) as (m1 & l1 & Hrun & Hr1 & _).
      rewrite Hrun in Hafter. injection Hafter as <-. by exists s, l1.
    + assert (n = 0) as -> by (destruct n; [done|]; destruct Hn; by left).
      rewrite (rehash_zero m s l) in Hafter; [done|done|]. intros ->. tauto.
  - intros n m' Hafter. apply Hboth.
    by apply (run_op_well_formed m (Reserve n)).
Qed.

(** C5. Inserting a key that the container already holds (a key among
    those that iteration yields, or one that an earlier insertion stored)
    throws [DuplicateKey] (std::invalid_argument "Key repeat") and leaves the
    whole state as it was: size, nodes and the stored value. After the
    first of two insertions of a key the size has grown by one, and the
    second leaves it there. *)
Theorem insert_duplicate_rejected m :
  well_formed hasher m →
  (∀ kvs k v, items m = Ret kvs m → k ∈ kvs.*1 →
     insert hasher (k, v) m = Throw DuplicateKey m)
  ∧ (∀ k v v' it m1, insert hasher (k, v) m = Ret it m1 →
       insert hasher (k, v') m1 = Throw DuplicateKey m1
       ∧ size m1 = Ret (S (_size m)) m1).
Proof.
  intros (s & l & Hr). split.
  - intros kvs k v Hitems Hk. rewrite (items_spec _ _ _ Hr) in Hitems.
    injection Hitems as <-. rewrite items_keys in Hk.
    apply list_elem_of_fmap in Hk as (e & -> & He).
    by eapply insert_present.
  - intros k v v' it m1 Hi.
    destruct (insert_Ret_inv _ _ _ _ _ _ Hr Hi) as (a & l1 & -> & Hr1 & Hperm & Hsz).
    assert ((a, (k, v)) ∈ contents l1) as Hin
      by (rewrite Hperm; apply list_elem_of_here).
    apply contents_elem in Hin as (e & He & _ & Hv). split.
    + replace k with (e_key e) by (unfold e_key; by rewrite Hv).
      by eapply insert_present.
    + unfold size. apply noexcept_Ret. unfold gets. by rewrite Hsz.
Qed.

(** C6, as amended. A pair that has been inserted is found, at the position
    that the insertion returned and with the value inserted, after any
    sequence of calls of insert, erase, reserve and max_load_factor that
    does not erase its key (no call assigns a value); every pair that
    iteration yields is found; and in a container with at least one bucket
    a key that iteration does not yield is looked up to the end marker. *)
Theorem find_round_trip m :
  well_formed hasher m →
  (∀ k v it m1 ops m2,
     insert hasher (k, v) m = Ret it m1 →
     Forall (λ o, o ≠ Erase k ∧ o ≠ Clear) ops →
     run_ops hasher ops m1 = Some m2 →
     find hasher k m2 = Ret it m2 ∧ deref it m2 = Ret (k, v) m2)
  ∧ (∀ kvs k v, items m = Ret kvs m → (k, v) ∈ kvs →
       ∃ it, find hasher k m = Ret it m ∧ deref it m = Ret (k, v) m)
  ∧ (∀ kvs k, buckets_count m ≠ 0 → items m = Ret kvs m → k ∉ kvs.*1 →
       find hasher k m = end_ m).
Proof.
  intros (s & l & Hr). split_and!.
  - intros k v it m1 ops m2 Hi Hall Hrun.
    destruct (insert_Ret_inv _ _ _ _ _ _ Hr Hi) as (a & l1 & -> & Hr1 & Hperm & _).
    assert ((a, (k, v)) ∈ contents l1) as Hin
      by (rewrite Hperm; apply list_elem_of_here).
    destruct (run_ops_keeps _ _ _ _ _ _ _ _ Hr1 Hrun Hall Hin) as (l2 & Hr2 & Hin2).
    by eapply find_entry.
  - intros kvs k v Hitems Hin. rewrite (items_spec _ _ _ Hr) in Hitems.
    injection Hitems as <-. apply list_elem_of_fmap in Hin as (e & Hv & He).
    exists (Some (e_addr e)). eapply find_entry; [done|].
    apply contents_elem. by exists e.
  - intros kvs k Hn Hitems Hk. rewrite (items_spec _ _ _ Hr) in Hitems.
    injection Hitems as <-. rewrite items_keys in Hk.
    unfold find, end_, gets. rewrite (repr_Elist _ _ _ _ Hr).
    by eapply __find_absent.
Qed.

(** C7, as amended. With no bucket, insert and erase throw [InvalidState]
    (std::invalid_argument) before they touch anything. A container has no
    bucket when it is constructed with none, and it is then well formed; the
    move constructor hands the bucket count over and leaves it in the
    source. *)
Theorem zero_buckets_InvalidState :
  (∀ m v, buckets_count m = 0 → insert hasher v m = Throw InvalidState m)
  ∧ (∀ m k, buckets_count m = 0 → erase hasher k m = Throw InvalidState m)
  ∧ (buckets_count (Unordered_Map 0 : U_Map Key Value) = 0
     ∧ well_formed hasher (Unordered_Map 0 : U_Map Key Value))
  ∧ (∀ other : U_Map Key Value,
       buckets_count (move_construct other).1 = buckets_count other
       ∧ buckets_count (move_construct other).2 = buckets_count other).
Proof.
  split_and!.
  - intros m v. apply insert_zero_buckets.
  - intros m k. apply erase_zero_buckets.
  - done.
  - apply Unordered_Map_well_formed.
  - done.
Qed.

(** C8. [reserve(n)] with [n] below the bucket count and
    [max_load_factor(f)] with [f <= 0] throw std::invalid_argument, and
    the state in which they throw is the state in which they were called. *)
Theorem invalid_arguments_rejected m :
  (∀ n, n < buckets_count m →
     reserve hasher n m = Throw InvalidArgument_reserve m)
  ∧ (∀ f, (f <= 0)%Q →
       max_load_factor f m = Throw InvalidArgument_load_factor m).
Proof.
  split.
  - intros n. apply reserve_too_small.
  - intros f Hf. apply max_load_factor_rejects. by apply Qle_bool_iff.
Qed.

(** C9. [clear()] returns on every well-formed container; afterwards the
    size is 0, [begin()] is [end()], the bucket count is what it was, and the
    container is well formed, so that clearing again returns the same state;
    on a container whose size is 0 it changes nothing. *)
Theorem clear_idempotent m :
  well_formed hasher m →
  ∃ m', clear m = Ret tt m'
    ∧ well_formed hasher m'
    ∧ size m' = Ret 0 m'
    ∧ begin m' = end_ m'
    ∧ buckets_number m' = Ret (buckets_count m) m'
    ∧ clear m' = Ret tt m'
    ∧ (_size m = 0 → m' = m).
Proof.
  intros (s & l & Hr).
  destruct (clear_spec _ _ _ Hr) as (m' & Hrun & Hr' & Hbc & Hmlf & Hnil).
  destruct (clear_spec _ _ _ Hr') as (m'' & Hrun' & _ & _ & _ & Hnil').
  exists m'. split_and!.
  - done.
  - by exists s, [].
  - unfold size. apply noexcept_Ret. unfold gets.
    by rewrite (repr_size _ _ _ _ Hr').
  - unfold begin, end_. rewrite bind_gets, (repr_Elist _ _ _ _ Hr').
    erewrite get_next_node_Some by apply Hr'. unfold gets.
    by rewrite (repr_Elist _ _ _ _ Hr').
  - unfold buckets_number. apply noexcept_Ret. unfold gets. by rewrite Hbc.
  - by rewrite Hrun', (Hnil' eq_refl).
  - intros Hz. apply Hnil. rewrite (repr_size _ _ _ _ Hr) in Hz.
    by apply nil_length_inv.
Qed.

(** C10. The position that a successful insertion returns dereferences, in
    the state the insertion leaves, to the pair inserted; this covers the
    insertions that rehash, which relink the nodes where they are. *)
Theorem insert_returns_position m v it m' :
  well_formed hasher m → insert hasher v m = Ret it m' →
  deref it m' = Ret v m'.
Proof.
  intros (s & l & Hr) Hi.
  destruct (insert_Ret_inv _ _ _ _ _ _ Hr Hi) as (a & l1 & -> & Hr1 & Hperm & _).
  assert ((a, v) ∈ contents l1) as Hin
    by (rewrite Hperm; apply list_elem_of_here).
  apply contents_elem in Hin as (e & He & <- & <-). by eapply deref_entry.
Qed.

(** ** Further properties of the interface *)

(** X1. Iteration yields every key once, and [size()] counts what it yields. *)
Theorem items_consistent m :
  well_formed hasher m →
  ∃ kvs, items m = Ret kvs m ∧ NoDup kvs.*1 ∧ size m = Ret (length kvs) m.
Proof.
  intros (s & l & Hr). exists (e_value <$> l). split_and!.
  - by eapply items_spec.
  - rewrite items_keys. destruct Hr as [_ _ (arr & _ & Ht) _].
    apply (to_keys _ _ _ _ _ Ht).
  - unfold size. apply noexcept_Ret. unfold gets.
    by rewrite (repr_size _ _ _ _ Hr), length_fmap.
Qed.

(** X2. [contains] tells whether iteration yields the key. *)
Theorem contains_items m kvs k :
  well_formed hasher m → buckets_count m ≠ 0 → items m = Ret kvs m →
  contains hasher k m = Ret (bool_decide (k ∈ kvs.*1)) m.
Proof.
  intros (s & l & Hr) Hn Hitems. rewrite (items_spec _ _ _ Hr) in Hitems.
  injection Hitems as <-. rewrite items_keys.
  destruct (decide (k ∈ keys l)) as [(e & -> & He)%list_elem_of_fmap|Hk].
  - rewrite bool_decide_eq_true_2 by by apply list_elem_of_fmap_2.
    by eapply contains_present.
  - rewrite bool_decide_eq_false_2 by done. by eapply contains_absent.
Qed.

(** X3. Erasing a key that is present removes its pair and no other. *)
Theorem erase_present_removes m kvs k :
  well_formed hasher m → items m = Ret kvs m → k ∈ kvs.*1 →
  ∃ m' kvs', erase hasher k m = Ret tt m'
    ∧ well_formed hasher m'
    ∧ items m' = Ret kvs' m'
    ∧ (∀ kv, kv ∈ kvs' ↔ kv ∈ kvs ∧ kv.1 ≠ k)
    ∧ size m' = Ret (length kvs - 1) m'
    ∧ find hasher k m' = end_ m'.
Proof.
  intros (s & l & Hr) Hitems Hk. rewrite (items_spec _ _ _ Hr) in Hitems.
  injection Hitems as <-. rewrite items_keys in Hk.
  apply list_elem_of_fmap in Hk as (e & -> & He).
  destruct (erase_present _ _ _ _ Hr He) as (m' & l1 & l3 & -> & Hrun & Hr' & Hbc & _).
  pose proof Hr as [_ _ (arr & _ & Ht) _].
  pose proof (to_keys _ _ _ _ _ Ht) as Hnd.
  rewrite <- Permutation_middle, fmap_cons in Hnd.
  apply NoDup_cons in Hnd as [Hke _].
  exists m', (e_value <$> (l1 ++ l3)). split_and!.
  - done.
  - by exists s, (l1 ++ l3).
  - by eapply items_spec.
  - intros kv. rewrite !list_elem_of_fmap. split.
    + intros (x & -> & Hx). split.
      * exists x. split; [done|]. revert Hx.
        rewrite !elem_of_app, elem_of_cons. tauto.
      * intros Heq. apply Hke.
        replace (e_key e) with (e_key x) by done.
        by apply (list_elem_of_fmap_2 e_key).
    + intros ((x & -> & Hx) & Hne). exists x. split; [done|]. revert Hx.
      rewrite !elem_of_app, elem_of_cons. intros [?|[->|?]]; [by left| |by right].
      done.
  - unfold size. apply noexcept_Ret. unfold gets.
    rewrite (repr_size _ _ _ _ Hr'), !length_fmap, !length_app. simpl. f_equal. lia.
  - unfold find, end_, gets. rewrite (repr_Elist _ _ _ _ Hr').
    eapply __find_absent; [done| |done]. rewrite Hbc.
    destruct (to_cached _ _ _ _ _ Ht e He). lia.
Qed.

(** X4. In a bucket that is not empty, erasing a key that is absent throws
    [KeyNotFound] and changes nothing. *)
Theorem erase_absent_nonempty_bucket m kvs k pa :
  well_formed hasher m → buckets_count m ≠ 0 → items m = Ret kvs m →
  k ∉ kvs.*1 →
  get_bucket (hasher k `mod` buckets_count m) m = Ret (Some pa) m →
  erase hasher k m = Throw KeyNotFound m.
Proof.
  intros (s & l & Hr) Hn Hitems Hk Hb. rewrite (items_spec _ _ _ Hr) in Hitems.
  injection Hitems as <-. rewrite items_keys in Hk.
  rewrite (repr_get_bucket _ _ _ _ Hr) in Hb by by apply Nat.mod_upper_bound.
  injection Hb as Hb. by eapply erase_absent.
Qed.

Lemma insert_buckets_count m v it m' :
  well_formed hasher m → insert hasher v m = Ret it m' →
  buckets_count m'
  = if Qle_bool (_max_load_factor m)
         (inject_Z (Z.of_nat (S (_size m) `div` buckets_count m)))
    then buckets_count m * 2 else buckets_count m.
Proof.
  intros (s & l & Hr) Hi.
  destruct (decide (buckets_count m = 0)) as [Hz|Hz];
    [by rewrite (insert_zero_buckets _ v Hz) in Hi|].
  destruct (decide (v.1 ∈ keys l)) as [(e & Hk & He)%list_elem_of_fmap|Hk].
  { pose proof (insert_present _ _ _ _ v.2 Hr He) as Hi'.
    rewrite <- Hk, <- surjective_pairing in Hi'. congruence. }
  destruct (insert_spec _ _ _ _ Hr Hz Hk) as (m1 & l1 & Hi1 & _ & _ & _ & Hbc).
  rewrite Hi1 in Hi. by injection Hi as _ <-.
Qed.

(** X5. An insertion that returns has doubled the bucket count exactly when the
    quotient of the new size by the bucket count, taken in [size_t], is not
    below the maximum load factor. *)
Theorem insert_rehash_trigger m v it m' :
  well_formed hasher m → insert hasher v m = Ret it m' →
  buckets_count m'
  = if Qle_bool (_max_load_factor m)
         (inject_Z (Z.of_nat (S (_size m) `div` buckets_count m)))
    then buckets_count m * 2 else buckets_count m.
Proof. apply insert_buckets_count. Qed.

(** X6. With the maximum load factor 1 of a new container, an insertion into a
    container that holds fewer entries than it has buckets leaves one that
    holds fewer entries than it has buckets. *)
Theorem insert_load_default m v it m' :
  well_formed hasher m → (_max_load_factor m == 1)%Q →
  _size m < buckets_count m → insert hasher v m = Ret it m' →
  _size m' < buckets_count m'
  ∧ (S (_size m) = buckets_count m → buckets_count m' = buckets_count m * 2).
Proof.
  intros Hwf Hmlf Hlt Hi.
  pose proof (insert_buckets_count _ _ _ _ Hwf Hi) as Hbc.
  destruct Hwf as (s & l & Hr).
  destruct (insert_Ret_inv _ _ _ _ _ _ Hr Hi) as (_ & _ & _ & _ & _ & Hsz).
  rewrite Hsz. destruct (Qle_bool _ _) eqn:Hq.
  - rewrite Hbc. split; lia.
  - split.
    + rewrite Hbc. destruct (decide (S (_size m) = buckets_count m)) as [Heq|]; [|lia].
      rewrite Heq, Nat.div_same in Hq by lia.
      assert (Qle_bool (_max_load_factor m) (inject_Z (Z.of_nat 1)) = true);
        [|congruence].
      apply Qle_bool_iff. rewrite Hmlf. apply Qle_refl.
    + intros Heq. rewrite Heq, Nat.div_same in Hq by lia.
      assert (Qle_bool (_max_load_factor m) (inject_Z (Z.of_nat 1)) = true);
        [|congruence].
      apply Qle_bool_iff. rewrite Hmlf. apply Qle_refl.
Qed.

(** ** Comparison *)

Lemma bind_on_other {A B} (other : U_Map Key Value) (c : M Key Value A)
    (k : A → M Key Value B) m a other' :
  c other = Ret a other' → bind (on_other other c) k m = k a m.
Proof. unfold bind, on_other. by intros ->. Qed.

Lemma operator_eq_inner_spec a b sb pos x nx l fuel :
  heap a !! e_addr x = Some (node_cell (mkNode nx (e_cached x) (e_value x))) →
  Elist b = Some sb → chain (heap b) l (Some sb) → sb ∉ addrs l →
  length l < fuel →
  operator_eq_inner fuel b pos (Some (e_addr x)) (head_ptr l (Some sb)) a
  = Ret (bool_decide (is_Some (find_run pos (e_key x) l))) a.
Proof.
  intros Hx HE. revert fuel. induction l as [|e l IH]; intros fuel Hc Hs Hf.
  - destruct fuel; [simpl in Hf; lia|]. cbn [operator_eq_inner head_ptr].
    erewrite bind_on_other by reflexivity. rewrite HE.
    by rewrite decide_True.
  - destruct fuel; [simpl in Hf; lia|]. destruct Hc as [He Hc].
    rewrite fmap_cons, not_elem_of_cons in Hs. destruct Hs as [Hse Hs].
    cbn [operator_eq_inner head_ptr find_run].
    erewrite bind_on_other by reflexivity. rewrite HE.
    rewrite decide_False by congruence.
    erewrite bind_on_other by (by apply get_cached_Some). cbn [cached].
    destruct (decide (e_cached e = pos)) as [Hb|Hb]; [|done].
    erewrite bind_Ret by (by apply get_value_Some).
    erewrite bind_on_other by (by apply get_value_Some). cbn [value].
    unfold e_key.
    destruct (decide ((e_value e).1 = (e_value x).1)) as [Hk|Hk].
    + rewrite decide_True by done. done.
    + rewrite decide_False by done.
      erewrite bind_on_other by (by apply get_next_node_Some).
      cbn [cell_next next_node]. apply IH; [done|done|simpl in Hf; lia].
Qed.

Lemma operator_eq_loop_spec a sa b sb lb : ∀ l fuel,
  Elist a = Some sa → chain (heap a) l (Some sa) → sa ∉ addrs l →
  (∀ x, x ∈ l →
     e_cached x = hasher (e_key x) `mod` buckets_count b
     ∧ e_cached x < buckets_count b) →
  repr hasher b sb lb → length l < fuel →
  operator_eq_loop fuel b (head_ptr l (Some sa)) a
  = match eq_walk sb lb l with
    | Some r => Ret r a
    | None => Undefined
    end.
Proof.
  intros l fuel HE. revert fuel.
  induction l as [|x l IH]; intros fuel Hc Hs Hca Hrb Hf.
  - destruct fuel; [simpl in Hf; lia|]. cbn [operator_eq_loop head_ptr eq_walk].
    rewrite bind_gets, HE. by rewrite decide_True.
  - destruct fuel; [simpl in Hf; lia|]. destruct Hc as [Hx Hc].
    rewrite fmap_cons, not_elem_of_cons in Hs. destruct Hs as [Hsx Hs].
    destruct (Hca x (list_elem_of_here _ _)) as [Hcx Hltx].
    pose proof Hrb as [HEb Hlb (arrb & Harrb & Htb) _].
    cbn [operator_eq_loop head_ptr eq_walk].
    rewrite bind_gets, HE. rewrite decide_False by congruence.
    erewrite bind_Ret by (by apply get_cached_Some). cbn [cached].
    erewrite bind_on_other by (by eapply repr_get_bucket).
    destruct (anchor (Some sb) lb (e_cached x)) as [pa|] eqn:Han; [|done].
    destruct (enter_bucket _ _ _ _ _ Hlb Han)
      as (l1 & e0 & l2 & -> & Hl1 & He0 & Hpa & Hnx).
    erewrite bind_on_other by exact Hnx.
    erewrite bind_on_other by reflexivity.
    pose proof (lr_chain _ _ _ Hlb) as Hchb. apply chain_app in Hchb as [_ Hchb].
    pose proof (list_repr_not_sentinel _ _ _ Hlb) as Hsb.
    rewrite fmap_app, not_elem_of_app in Hsb. destruct Hsb as [_ Hsb].
    erewrite bind_Ret.
    2:{ eapply (operator_eq_inner_spec a b sb (e_cached x) x _ (e0 :: l2));
          [exact Hx|done..|].
        apply repr_fuel in Hrb. rewrite length_app in Hrb.
        unfold fuel_of in *. lia. }
    destruct (decide (e_key x ∈ keys (l1 ++ e0 :: l2)))
      as [(y & Hky & Hy)%list_elem_of_fmap|Hk].
    + rewrite bool_decide_eq_true_2.
      * erewrite bind_Ret by (by apply get_next_node_Some).
        cbn [cell_next next_node]. apply IH; [done|done| |done|simpl in Hf; lia].
        intros z Hz. apply Hca. by apply list_elem_of_further.
      * exists y. rewrite Hky, <- He0. apply bucket_run_complete with (s := sb)
          (l1 := l1) (n := buckets_count b) (arr := arrb); [done| |done|].
        -- by rewrite He0.
        -- destruct (to_cached _ _ _ _ _ Htb y Hy) as [Hcy _].
           by rewrite Hcy, <- Hky, <- Hcx.
    + rewrite bool_decide_eq_false_2; [done|]. intros [y Hy].
      apply find_run_Some in Hy as (r & l3 & Heq & _ & Hky & _).
      apply Hk. rewrite <- Hky. apply list_elem_of_fmap_2.
      rewrite elem_of_app. right. rewrite Heq, elem_of_app, elem_of_cons. auto.
Qed.

Lemma eq_walk_true sb lb l :
  eq_walk sb lb l = Some true → ∀ x, x ∈ l → e_key x ∈ keys lb.
Proof.
  induction l as [|x l IH]; [by intros _ x ?%elem_of_nil|].
  cbn [eq_walk]. destruct (anchor _ _ _); [|done]. case_decide; [|done].
  intros Hw y [->|?]%elem_of_cons; [done|by apply IH].
Qed.

Lemma eq_walk_complete sb lb n arr l :
  table_ok hasher sb lb n arr →
  (∀ x, x ∈ l → e_cached x = hasher (e_key x) `mod` n) →
  (∀ x, x ∈ l → e_key x ∈ keys lb) →
  eq_walk sb lb l = Some true.
Proof.
  intros Ht. induction l as [|x l IH]; intros Hca Hin; [done|].
  cbn [eq_walk].
  pose proof (Hin x (list_elem_of_here _ _)) as Hx.
  pose proof Hx as (y & Hky & Hy)%list_elem_of_fmap.
  destruct (anchor (Some sb) lb (e_cached x)) as [pa|] eqn:Han.
  - rewrite decide_True by done. apply IH.
    + intros z Hz. apply Hca. by apply list_elem_of_further.
    + intros z Hz. apply Hin. by apply list_elem_of_further.
  - apply anchor_None in Han. destruct Han.
    rewrite (Hca x (list_elem_of_here _ _)), Hky.
    destruct (to_cached _ _ _ _ _ Ht y Hy) as [<- _].
    by apply list_elem_of_fmap_2.
Qed.

(** X7. For two containers with the same number of buckets [operator==]
    returns true when they hold the same keys, whatever the values, and
    whenever it returns it tells whether they hold the same keys. *)
Theorem operator_eq_same_buckets a b (kvsa kvsb : list (Key * Value)) :
  well_formed hasher a → well_formed hasher b →
  buckets_count a = buckets_count b →
  items a = Ret kvsa a → items b = Ret kvsb b →
  ((∀ k, k ∈ kvsa.*1 ↔ k ∈ kvsb.*1) → operator_eq b a = Ret true a)
  ∧ (∀ r a', operator_eq b a = Ret r a' →
       a' = a ∧ (r = true ↔ ∀ k, k ∈ kvsa.*1 ↔ k ∈ kvsb.*1)).
Proof.
  intros (sa & la & Hra) (sb & lb & Hrb) Hbc Hia Hib.
  rewrite (items_spec _ _ _ Hra) in Hia. injection Hia as <-.
  rewrite (items_spec _ _ _ Hrb) in Hib. injection Hib as <-.
  rewrite !items_keys.
  pose proof Hra as [HEa Hla (arra & Harra & Hta) Hsza].
  pose proof Hrb as [HEb Hlb (arrb & Harrb & Htb) Hszb].
  pose proof (to_keys _ _ _ _ _ Hta) as Hnda.
  pose proof (to_keys _ _ _ _ _ Htb) as Hndb.
  assert (∀ x, x ∈ la →
            e_cached x = hasher (e_key x) `mod` buckets_count b
            ∧ e_cached x < buckets_count b) as Hca.
  { intros x Hx. rewrite <- Hbc. by apply (to_cached _ _ _ _ _ Hta). }
  assert (operator_eq b a
          = if decide (_size a ≠ _size b) then Ret false a
            else match eq_walk sb lb la with
                 | Some r => Ret r a
                 | None => Undefined
                 end) as Hrun.
  { unfold operator_eq, noexcept. rewrite bind_gets.
    erewrite bind_on_other by reflexivity. cbn [gets].
    destruct (decide (_size a ≠ _size b)); [done|].
    rewrite bind_gets, HEa.
    erewrite bind_Ret by (eapply get_next_node_Some, (lr_sentinel _ _ _ Hla)).
    rewrite bind_gets. cbn [cell_next].
    rewrite (operator_eq_loop_spec a sa b sb lb la);
      [|done|apply Hla|by eapply list_repr_not_sentinel|done|done
       |by eapply repr_fuel].
    by destruct (eq_walk sb lb la) as [[]|]. }
  assert ((∀ k, k ∈ keys la ↔ k ∈ keys lb) → _size a = _size b) as Hsame_size.
  { intros Hsame. rewrite Hsza, Hszb.
    rewrite <- (length_fmap e_key la), <- (length_fmap e_key lb).
    apply Permutation_length. by apply NoDup_Permutation. }
  assert (_size a = _size b → (∀ x, x ∈ la → e_key x ∈ keys lb) →
          ∀ k, k ∈ keys la ↔ k ∈ keys lb) as Hsubset.
  { intros Hsz Hsub. assert (keys la ≡ₚ keys lb) as Hp; [|by setoid_rewrite Hp].
    apply submseteq_length_Permutation.
    - apply NoDup_submseteq; [done|].
      intros k (x & -> & Hx)%list_elem_of_fmap. by apply Hsub.
    - rewrite !length_fmap. lia. }
  split.
  - intros Hsame. rewrite Hrun. rewrite decide_False by (intros Hne; by apply Hne, Hsame_size).
    erewrite eq_walk_complete; [done|done| |].
    + intros x Hx. by apply Hca.
    + intros x Hx. apply Hsame. by apply list_elem_of_fmap_2.
  - intros r a' Heq. rewrite Hrun in Heq.
    destruct (decide (_size a ≠ _size b)) as [Hne|Hsz].
    + injection Heq as <- <-. split; [done|]. split; [done|].
      intros Hsame. by destruct Hne; apply Hsame_size.
    + apply dec_stable in Hsz.
      destruct (eq_walk sb lb la) as [r'|] eqn:Hw; [|done].
      injection Heq as <- <-. split; [done|]. split.
      * intros ->. apply Hsubset; [done|]. by eapply eq_walk_true.
      * intros Hsame. destruct r'; [done|].
        erewrite eq_walk_complete in Hw; [done|done| |].
        -- intros x Hx. by apply Hca.
        -- intros x Hx. apply Hsame. by apply list_elem_of_fmap_2.
Qed.

(** ** Lookup by [at] and [operator[]] *)

Lemma contents_values l : (contents l).*2 = e_value <$> l.
Proof. unfold contents. by rewrite <- list_fmap_compose. Qed.

Lemma values_elem l kv :
  kv ∈ e_value <$> l ↔ ∃ e, e ∈ l ∧ e_value e = kv.
Proof. rewrite list_elem_of_fmap. naive_solver. Qed.

Lemma entry_not_sentinel m s l e : repr hasher m s l → e ∈ l → e_addr e ≠ s.
Proof.
  intros [_ Hl _ _] He Heq. apply (list_repr_not_sentinel _ _ _ Hl).
  rewrite <- Heq. by apply list_elem_of_fmap_2.
Qed.

Lemma at_present m s l e :
  repr hasher m s l → e ∈ l →
  at_ hasher (e_key e) m = Ret (Some (e_addr e)) m.
Proof.
  intros Hr He. unfold at_.
  erewrite bind_Ret by by eapply __find_present.
  rewrite bind_gets, (repr_Elist _ _ _ _ Hr).
  rewrite decide_False; [done|].
  intros [= Heq]. by eapply entry_not_sentinel.
Qed.

Lemma at_absent m s l k :
  repr hasher m s l → buckets_count m ≠ 0 → k ∉ keys l →
  at_ hasher k m = Throw (out_of_range "map out of range") m.
Proof.
  intros Hr Hn Hk. unfold at_.
  erewrite bind_Ret by by eapply __find_absent.
  rewrite bind_gets, (repr_Elist _ _ _ _ Hr). by rewrite decide_True.
Qed.

(** X8. [at(key)] returns the position of the pair of a key that iteration
    yields, and leaves the container as it is; for a key that iteration
    does not yield it throws [std::out_of_range] and leaves the container as
    it is. *)
Theorem at_items m kvs k :
  well_formed hasher m → items m = Ret kvs m →
  (∀ v, (k, v) ∈ kvs →
     ∃ it, at_ hasher k m = Ret it m ∧ deref it m = Ret (k, v) m)
  ∧ (buckets_count m ≠ 0 → k ∉ kvs.*1 →
     at_ hasher k m = Throw (out_of_range "map out of range") m).
Proof.
  intros (s & l & Hr) Hitems. rewrite (items_spec _ _ _ Hr) in Hitems.
  injection Hitems as <-. split.
  - intros v (e & He & Hv)%values_elem. exists (Some (e_addr e)).
    split; [|rewrite <- Hv; by eapply deref_entry].
    replace k with (e_key e) by (unfold e_key; by rewrite Hv).
    by eapply at_present.
  - rewrite items_keys. intros Hn Hk. by eapply at_absent.
Qed.

(** X9. [operator[]] returns the position of the pair of a key that is
    present and changes nothing; for an absent key it inserts the key with
    the default value and returns the position of the new pair. *)
Theorem operator_index_items m kvs d k :
  well_formed hasher m → items m = Ret kvs m →
  (∀ v, (k, v) ∈ kvs →
     ∃ it, operator_index hasher d k m = Ret it m
       ∧ deref it m = Ret (k, v) m)
  ∧ (buckets_count m ≠ 0 → k ∉ kvs.*1 →
     ∃ it m' kvs',
       operator_index hasher d k m = Ret it m'
       ∧ deref it m' = Ret (k, d) m'
       ∧ well_formed hasher m'
       ∧ items m' = Ret kvs' m'
       ∧ kvs' ≡ₚ (k, d) :: kvs).
Proof.
  intros (s & l & Hr) Hitems. rewrite (items_spec _ _ _ Hr) in Hitems.
  injection Hitems as <-. split.
  - intros v (e & He & Hv)%values_elem. exists (Some (e_addr e)).
    split; [|rewrite <- Hv; by eapply deref_entry].
    replace k with (e_key e) by (unfold e_key; by rewrite Hv).
    unfold operator_index, find, end_.
    erewrite bind_Ret by by eapply __find_present.
    rewrite bind_gets, (repr_Elist _ _ _ _ Hr).
    rewrite decide_False; [done|].
    intros [= Heq]. by eapply entry_not_sentinel.
  - rewrite items_keys. intros Hn Hk.
    destruct (insert_spec m s l (k, d) Hr Hn Hk)
      as (m' & l' & Hi & Hr' & Hperm & _).
    assert (∃ e, e ∈ l' ∧ e_addr e = fresh (dom (heap m)) ∧ e_value e = (k, d))
      as (e & He & Ha & Hv).
    { apply contents_elem. rewrite Hperm. apply list_elem_of_here. }
    exists (Some (fresh (dom (heap m)))), m', (e_value <$> l'). split_and!.
    + unfold operator_index, find, end_.
      erewrite bind_Ret by by eapply __find_absent.
      rewrite bind_gets, (repr_Elist _ _ _ _ Hr). by rewrite decide_True.
    + rewrite <- Ha, <- Hv. by eapply deref_entry.
    + by exists s, l'.
    + by eapply items_spec.
    + rewrite <- !contents_values, Hperm. done.
Qed.

(** ** What insertion, reservation and erasure do to the pairs *)

(** X10. Inserting a key that is absent returns and adds the pair to the
    pairs of the container: the other pairs are kept, with their values,
    and [size()] grows by one. *)
Theorem insert_adds_pair m kvs v :
  well_formed hasher m → buckets_count m ≠ 0 → items m = Ret kvs m →
  v.1 ∉ kvs.*1 →
  ∃ it m' kvs',
    insert hasher v m = Ret it m'
    ∧ well_formed hasher m'
    ∧ items m' = Ret kvs' m'
    ∧ kvs' ≡ₚ v :: kvs
    ∧ size m' = Ret (S (length kvs)) m'.
Proof.
  intros (s & l & Hr) Hn Hitems Hk. rewrite (items_spec _ _ _ Hr) in Hitems.
  injection Hitems as <-. rewrite items_keys in Hk.
  destruct (insert_spec m s l v Hr Hn Hk) as (m' & l' & Hi & Hr' & Hperm & _).
  assert (e_value <$> l' ≡ₚ v :: (e_value <$> l)) as Hv.
  { rewrite <- !contents_values, Hperm. done. }
  exists (Some (fresh (dom (heap m)))), m', (e_value <$> l'). split_and!.
  - done.
  - by exists s, l'.
  - by eapply items_spec.
  - done.
  - unfold size. apply noexcept_Ret. unfold gets.
    rewrite (repr_size _ _ _ _ Hr'). f_equal.
    apply Permutation_length in Hv. rewrite !length_fmap in Hv.
    cbn [length] in Hv. by rewrite length_fmap in Hv |- *.
Qed.


(** X12. Erasing a key that has just been inserted gives back the pairs
    the container held before the insertion. *)
Theorem insert_then_erase m kvs v :
  well_formed hasher m → buckets_count m ≠ 0 → items m = Ret kvs m →
  v.1 ∉ kvs.*1 →
  ∃ it m1 m2 kvs2,
    insert hasher v m = Ret it m1
    ∧ erase hasher v.1 m1 = Ret tt m2
    ∧ well_formed hasher m2
    ∧ items m2 = Ret kvs2 m2
    ∧ kvs2 ≡ₚ kvs
    ∧ size m2 = Ret (length kvs) m2.
Proof.
  intros (s & l & Hr) Hn Hitems Hk. rewrite (items_spec _ _ _ Hr) in Hitems.
  injection Hitems as <-. rewrite items_keys in Hk.
  destruct (insert_spec m s l v Hr Hn Hk) as (m1 & l' & Hi & Hr1 & Hperm & _).
  assert (∃ e, e ∈ l' ∧ e_addr e = fresh (dom (heap m)) ∧ e_value e = v)
    as (e & He & Ha & Hv).
  { apply contents_elem. rewrite Hperm. apply list_elem_of_here. }
  destruct (erase_present _ _ _ _ Hr1 He)
    as (m2 & l1 & l3 & -> & Hrun & Hr2 & _).
  assert (contents (l1 ++ l3) ≡ₚ contents l) as Hperm2.
  { rewrite contents_middle, Ha, Hv in Hperm.
    by apply Permutation_cons_inv in Hperm. }
  exists (Some (fresh (dom (heap m)))), m1, m2, (e_value <$> (l1 ++ l3)).
  split_and!.
  - done.
  - rewrite <- Hv. done.
  - by exists s, (l1 ++ l3).
  - by eapply items_spec.
  - rewrite <- !contents_values, Hperm2. done.
  - unfold size. apply noexcept_Ret. unfold gets.
    rewrite (repr_size _ _ _ _ Hr2), length_fmap.
    by rewrite (contents_length _ _ Hperm2).
Qed.

(** ** [empty] and [show] *)

(** X13. [empty()] returns true exactly when iteration yields nothing,
    that is when [begin()] is [end()]. *)
Theorem empty_items m kvs :
  well_formed hasher m → items m = Ret kvs m →
  ∃ b, empty m = Ret b m
    ∧ (b = true ↔ kvs = [])
    ∧ (begin m = end_ m ↔ kvs = []).
Proof.
  intros (s & l & Hr) Hitems. rewrite (items_spec _ _ _ Hr) in Hitems.
  injection Hitems as <-. pose proof Hr as [HE Hl _ Hsz].
  exists (bool_decide (_size m = 0)). split_and!.
  - unfold empty. apply noexcept_Ret. by rewrite bind_gets.
  - rewrite bool_decide_eq_true, Hsz. destruct l; [done|].
    split; [simpl; lia|done].
  - unfold begin, end_. rewrite bind_gets, HE. unfold gets. rewrite HE.
    rewrite (get_next_node_Some _ _ _ (lr_sentinel _ _ _ Hl)). cbn [cell_next].
    destruct l as [|e l]; [done|]. cbn [head_ptr fmap list_fmap].
    split; [|done]. intros [= Heq]. exfalso.
    eapply entry_not_sentinel; [done|apply list_elem_of_here|done].
Qed.

Lemma show_loop_spec m s l fuel out :
  Elist m = Some s → chain (heap m) l (Some s) → s ∉ addrs l →
  length l < fuel →
  show_loop fuel out (head_ptr l (Some s)) m
  = Ret (out ++ flat_map (λ kv, [out_value kv.2; out_string " "])
                 (e_value <$> l)) m.
Proof.
  intros HE. revert fuel out.
  induction l as [|e l IH]; intros fuel out Hc Hs Hf.
  - destruct fuel; [simpl in Hf; lia|]. cbn [show_loop head_ptr].
    rewrite bind_gets, HE. rewrite decide_True by done.
    by rewrite app_nil_r.
  - destruct fuel; [simpl in Hf; lia|]. destruct Hc as [He Hc].
    rewrite fmap_cons, not_elem_of_cons in Hs. destruct Hs as [Hse Hs].
    cbn [show_loop head_ptr]. rewrite bind_gets, HE.
    rewrite decide_False by congruence. mrun.
    rewrite IH; [|done|done|simpl in Hf; lia].
    cbn [fmap list_fmap flat_map]. by rewrite <- app_assoc.
Qed.

(** X14. [show] writes the values, not the keys, of the pairs in the order
    of iteration, each followed by one space, after what the stream holds,
    and leaves the container as it is. *)
Theorem show_writes_values m kvs out :
  well_formed hasher m → items m = Ret kvs m →
  show out m
  = Ret (out ++ flat_map (λ kv, [out_value kv.2; out_string " "]) kvs) m.
Proof.
  intros (s & l & Hr) Hitems. rewrite (items_spec _ _ _ Hr) in Hitems.
  injection Hitems as <-. pose proof Hr as [HE Hl _ _].
  unfold show. apply noexcept_Ret. rewrite bind_gets, HE.
  erewrite bind_Ret by (eapply get_next_node_Some, (lr_sentinel _ _ _ Hl)).
  rewrite bind_gets. cbn [cell_next].
  apply show_loop_spec; [done|apply Hl|by eapply list_repr_not_sentinel|].
  by eapply repr_fuel.
Qed.

(** ** The bucket count *)

Lemma run_op_buckets_count m o m' :
  well_formed hasher m → after (run_op hasher o m) = Some m' →
  buckets_count m ≤ buckets_count m'
  ∧ (match o with
     | Erase _ | SetMaxLoadFactor _ | Clear => buckets_count m' = buckets_count m
     | _ => True
     end).
Proof.
  intros (s & l & Hr) Hafter.
  destruct o as [v|k|n|f|]; cbn [run_op] in Hafter.
  - rewrite after_bind_ret in Hafter. split; [|done].
    destruct (insert hasher v m) as [it m1|x m1| | |] eqn:Hi; try done.
    + injection Hafter as <-.
      rewrite (insert_buckets_count m v it m1); [|by exists s, l|done].
      destruct (Qle_bool _ _); lia.
    + injection Hafter as <-.
      destruct (decide (buckets_count m = 0)) as [Hz|Hz].
      { rewrite (insert_zero_buckets _ v Hz) in Hi. by injection Hi as _ <-. }
      destruct (decide (v.1 ∈ keys l)) as [(e & Hk & He)%list_elem_of_fmap|Hk].
      * pose proof (insert_present _ _ _ _ v.2 Hr He) as Hi'.
        rewrite <- Hk, <- surjective_pairing in Hi'. rewrite Hi' in Hi.
        by injection Hi as _ <-.
      * destruct (insert_spec _ _ _ _ Hr Hz Hk) as (? & ? & Hi' & _).
        by rewrite Hi' in Hi.
  - destruct (decide (buckets_count m = 0)) as [Hz|Hz].
    { rewrite (erase_zero_buckets _ k Hz) in Hafter. by injection Hafter as <-. }
    destruct (anchor (Some s) l (hasher k `mod` buckets_count m)) as [pa|] eqn:Han;
      [|by rewrite (erase_empty_bucket _ _ _ _ Hr Hz Han) in Hafter].
    destruct (decide (k ∈ keys l)) as [(e & -> & He)%list_elem_of_fmap|Hk].
    + destruct (erase_present _ _ _ _ Hr He) as (m1 & l1 & l3 & _ & He1 & _ & Hbc & _).
      rewrite He1 in Hafter. injection Hafter as <-. rewrite Hbc. done.
    + rewrite (erase_absent _ _ _ _ _ Hr Hz Han Hk) in Hafter.
      by injection Hafter as <-.
  - split; [|done]. destruct (decide (n < buckets_count m)) as [Hlt|Hlt].
    { rewrite (reserve_too_small _ _ Hlt) in Hafter. by injection Hafter as <-. }
    rewrite (reserve_rehash _ _ Hlt) in Hafter.
    destruct (decide (n ≠ 0 ∨ l = [])) as [Hn|Hn].
    + destruct (rehash_repr _ _ _ _ Hr Hn) as (m1 & l1 & Hrun & _ & _ & Hbc & _).
      rewrite Hrun in Hafter. injection Hafter as <-. lia.
    + assert (n = 0) as -> by (destruct n; [done|]; destruct Hn; by left).
      rewrite (rehash_zero m s l) in Hafter; [done|done|]. intros ->. tauto.
  - destruct (Qle_bool f 0) eqn:Hf.
    + rewrite (max_load_factor_rejects _ _ Hf) in Hafter.
      by injection Hafter as <-.
    + rewrite (max_load_factor_accepts _ _ Hf) in Hafter.
      by injection Hafter as <-.
  - destruct (clear_spec _ _ _ Hr) as (m1 & Hrun & _ & Hbc & _).
    rewrite Hrun in Hafter. injection Hafter as <-. by rewrite Hbc.
Qed.

(** X15. No sequence of insertions, erasures, reservations, changes of
    the maximum load factor and clearings makes the bucket count smaller. *)
Theorem buckets_never_shrink ops m m' :
  well_formed hasher m → run_ops hasher ops m = Some m' →
  buckets_count m ≤ buckets_count m'.
Proof.
  revert m. induction ops as [|o ops IH]; intros m Hwf Hrun.
  - cbn in Hrun. by injection Hrun as <-.
  - cbn [run_ops] in Hrun.
    destruct (after (run_op hasher o m)) as [m1|] eqn:Ho; [|done].
    destruct (run_op_buckets_count _ _ _ Hwf Ho) as [Hle _].
    pose proof (run_op_well_formed _ _ _ Hwf Ho) as Hwf1.
    specialize (IH m1 Hwf1 Hrun). lia.
Qed.

(** ** The allocated addresses

    Which cells a member function allocates and gives back, whatever the
    state it runs in. *)

Lemma upd_bind {A B} R T (c : M Key Value A) (k : A → M Key Value B) :
  dom_updates dom_same T c → (∀ a, dom_updates R T (k a)) →
  dom_updates R T (bind c k).
Proof.
  intros Hc Hk m. unfold bind. specialize (Hc m).
  destruct (c m) as [a m1|x m1| | |]; try done.
  specialize (Hk a m1). unfold dom_same in Hc. by rewrite Hc in Hk.
Qed.

Lemma upd_bind_then {A B} R T (c : M Key Value A) (k : A → M Key Value B) :
  dom_updates R T c → (∀ a, dom_updates dom_same dom_never (k a)) →
  dom_updates R T (bind c k).
Proof.
  intros Hc Hk m. unfold bind. specialize (Hc m).
  destruct (c m) as [a m1|x m1| | |]; try done.
  specialize (Hk a m1). destruct (k a m1); try done.
  unfold dom_same in Hk. by rewrite Hk.
Qed.

Lemma upd_ret {A} T (a : A) : dom_updates dom_same T (ret a : M Key Value A).
Proof. by intros m. Qed.

Lemma upd_gets {A} T (f : U_Map Key Value → A) :
  dom_updates dom_same T (gets f).
Proof. by intros m. Qed.

Lemma upd_modify T (f : U_Map Key Value → U_Map Key Value) :
  (∀ m, heap (f m) = heap m) → dom_updates dom_same T (modify f).
Proof. intros Hf m. unfold modify, dom_same. by rewrite Hf. Qed.

Lemma upd_throw {A} R x : dom_updates R dom_same (throw x : M Key Value A).
Proof. by intros m. Qed.

Lemma upd_undefined {A} R T : dom_updates R T (undefined : M Key Value A).
Proof. by intros m. Qed.

Lemma upd_out_of_fuel {A} R T : dom_updates R T (out_of_fuel : M Key Value A).
Proof. by intros m. Qed.

Lemma upd_noexcept {A} R T T' (c : M Key Value A) :
  dom_updates R T' c → dom_updates R T (noexcept c).
Proof. intros Hc m. unfold noexcept. specialize (Hc m). by destruct (c m). Qed.

Lemma upd_load T p : dom_updates dom_same T (load p : M Key Value _).
Proof.
  intros m. unfold load. destruct p as [a|]; [|done].
  by destruct (heap m !! a).
Qed.

Lemma upd_set_next_node T p q :
  dom_updates dom_same T (set_next_node p q : M Key Value _).
Proof.
  intros m. unfold set_next_node, bind, load. destruct p as [a|]; [|done].
  destruct (heap m !! a) as [c|] eqn:Ha; [|done].
  unfold modify, dom_same. proj_simpl.
  apply dom_insert_lookup_L. by rewrite Ha.
Qed.

Lemma upd_set_cached T p b :
  dom_updates dom_same T (set_cached p b : M Key Value _).
Proof.
  intros m. unfold set_cached, bind, load. destruct p as [a|]; [|done].
  destruct (heap m !! a) as [[?|n]|] eqn:Ha; [done| |done].
  unfold modify, dom_same. proj_simpl.
  apply dom_insert_lookup_L. by rewrite Ha.
Qed.

Lemma upd_array_get T arr i :
  dom_updates dom_same T (array_get arr i : M Key Value _).
Proof. intros m. unfold array_get. by destruct (arr !! i). Qed.

Lemma upd_array_set T arr i p :
  dom_updates dom_same T (array_set arr i p : M Key Value _).
Proof. intros m. unfold array_set. by case_decide. Qed.

(** One step of the tracking of a function body. *)
Ltac upd_step :=
  lazymatch goal with
  | |- ∀ _, _ => intros ?
  | |- dom_updates _ _ (bind _ _) => apply upd_bind
  | |- dom_updates _ _ (noexcept _) => eapply upd_noexcept
  | |- dom_updates _ _ (if ?b then _ else _) => destruct b
  | |- dom_updates _ _ (match ?x with _ => _ end) => destruct x
  | |- dom_updates _ _ _ =>
      first [ apply upd_ret | apply upd_gets | apply upd_throw
            | apply upd_undefined | apply upd_out_of_fuel | apply upd_load
            | apply upd_set_next_node | apply upd_set_cached
            | apply upd_array_get | apply upd_array_set
            | apply upd_modify; done
            | assumption ]
  end.

Ltac upd := repeat upd_step.

Lemma upd_get_next_node T p :
  dom_updates dom_same T (get_next_node p : M Key Value _).
Proof. unfold get_next_node. upd. Qed.

Lemma upd_get_cached T p :
  dom_updates dom_same T (get_cached p : M Key Value _).
Proof. unfold get_cached. upd. Qed.

Lemma upd_get_value T p :
  dom_updates dom_same T (get_value p : M Key Value _).
Proof. unfold get_value. upd. Qed.

Lemma upd_get_bucket T i :
  dom_updates dom_same T (get_bucket i : M Key Value _).
Proof. unfold get_bucket. upd. Qed.

Lemma upd_set_bucket T i p :
  dom_updates dom_same T (set_bucket i p : M Key Value _).
Proof. unfold set_bucket. upd. Qed.

Ltac upd_mem :=
  repeat first
    [ lazymatch goal with
      | |- dom_updates _ _ (bind (new_Node _ _) _) => apply upd_bind_then
      | |- dom_updates _ _ (bind (delete_Node _) _) => apply upd_bind_then
      end
    | upd_step
    | apply upd_get_next_node | apply upd_get_cached | apply upd_get_value
    | apply upd_get_bucket | apply upd_set_bucket
    | match goal with IH : ∀ _, _ |- _ => apply IH end ].

Lemma upd_new_Node T v c :
  dom_updates dom_adds T (new_Node v c : M Key Value _).
Proof.
  intros m. unfold new_Node, dom_adds. proj_simpl. by rewrite dom_insert_L.
Qed.

Lemma upd_delete_Node T a :
  dom_updates dom_removes T (delete_Node (Some a) : M Key Value _).
Proof.
  intros m. unfold delete_Node, bind, load.
  destruct (heap m !! a) as [c|] eqn:Ha; [|done].
  unfold modify. proj_simpl. exists a. split; [by apply elem_of_dom|].
  by rewrite dom_delete_L.
Qed.

Lemma upd___hash k : dom_updates dom_same dom_same (__hash hasher k : M Key Value _).
Proof. unfold __hash. upd_mem. Qed.

Lemma upd___find_in_bucket_loop T fuel : ∀ b k node,
  dom_updates dom_same T (__find_in_bucket_loop fuel b k node : M Key Value _).
Proof. induction fuel; intros b k node; cbn [__find_in_bucket_loop]; upd_mem. Qed.

Lemma upd___find_in_bucket T b k :
  dom_updates dom_same T (__find_in_bucket b k : M Key Value _).
Proof.
  unfold __find_in_bucket. apply (upd_noexcept _ _ dom_same). upd_mem.
  apply upd___find_in_bucket_loop.
Qed.

Lemma upd___insert_in_empty_bucket T b p :
  dom_updates dom_same T (__insert_in_empty_bucket b p : M Key Value _).
Proof. unfold __insert_in_empty_bucket. upd_mem. Qed.

Lemma upd___insert_in_nonempty_bucket T b p :
  dom_updates dom_same T (__insert_in_nonempty_bucket b p : M Key Value _).
Proof. unfold __insert_in_nonempty_bucket. upd_mem. Qed.

Lemma upd___rehash_loop T fuel : ∀ n arr next,
  dom_updates dom_same T (__rehash_loop hasher fuel n arr next : M Key Value _).
Proof. induction fuel; intros n arr next; cbn [__rehash_loop]; upd_mem. Qed.

Lemma upd___rehash T n : dom_updates dom_same T (__rehash hasher n : M Key Value _).
Proof. unfold __rehash. upd_mem. apply upd___rehash_loop. Qed.

Lemma upd_insert (v : Key * Value) :
  dom_updates dom_adds dom_same (insert hasher v).
Proof.
  unfold insert. apply upd_bind; [apply upd___hash|intros buck].
  apply upd_bind; [apply upd___find_in_bucket|intros key_exist].
  destruct key_exist; [apply upd_throw|].
  apply upd_bind_then; [apply upd_new_Node|intros insert_node].
  upd_mem.
  - apply upd___insert_in_empty_bucket.
  - apply upd___insert_in_nonempty_bucket.
  - apply upd___rehash.
Qed.

Lemma upd_outside_bucket T b p :
  dom_updates dom_same T (outside_bucket b p : M Key Value _).
Proof. unfold outside_bucket. upd_mem. Qed.

Lemma upd_erase_loop fuel : ∀ b k before node,
  dom_updates dom_removes dom_same
    (erase_loop fuel b k before node : M Key Value _).
Proof.
  induction fuel as [|fuel IH]; intros b k before node; cbn [erase_loop];
    [apply upd_out_of_fuel|].
  destruct node as [a|].
  - repeat first [ apply upd_outside_bucket | upd_mem ].
    apply upd_delete_Node.
  - intros m. unfold bind, gets. by case_decide.
Qed.

Lemma upd_erase k : dom_updates dom_removes dom_same (erase hasher k : M Key Value _).
Proof.
  unfold erase. apply upd_bind; [apply upd___hash|intros buck].
  upd_mem. apply upd_erase_loop.
Qed.

(** ** Containers without garbage *)

Lemma contents_addrs l : (contents l).*1 = addrs l.
Proof. unfold contents. by rewrite <- list_fmap_compose. Qed.

Lemma repr_allocated m s l a :
  repr hasher m s l → a = s ∨ a ∈ addrs l → a ∈ dom (heap m).
Proof.
  intros [_ Hl _ _] [->|(e & -> & He)%list_elem_of_fmap]; apply elem_of_dom.
  - by rewrite (lr_sentinel _ _ _ Hl).
  - destruct (chain_elem _ _ _ _ (lr_chain _ _ _ Hl) He) as [nx Hx].
    by rewrite Hx.
Qed.

Lemma tight_same m s l m' l' :
  (∀ a, a ∈ dom (heap m) → a = s ∨ a ∈ addrs l) →
  repr hasher m' s l' → dom (heap m') = dom (heap m) →
  (∀ a, a ∈ addrs l → a ∈ addrs l') →
  tight hasher m'.
Proof.
  intros Hd Hr' Hdom Hsub. exists s, l'. split; [done|].
  intros a Ha. rewrite Hdom in Ha. destruct (Hd a Ha); auto.
Qed.

Lemma Unordered_Map_tight n : tight hasher (Unordered_Map n : U_Map Key Value).
Proof.
  eexists _, []. split; [apply Unordered_Map_repr|].
  intros a Ha. left. unfold Unordered_Map, __create_Elist in Ha.
  cbn [heap set_heap set_Elist] in Ha. rewrite dom_insert_L, dom_empty_L in Ha.
  by apply elem_of_union in Ha as [Ha%elem_of_singleton|?%elem_of_empty].
Qed.

Lemma tight_insert m v it m' :
  tight hasher m → insert hasher v m = Ret it m' → tight hasher m'.
Proof.
  intros (s & l & Hr & Hd) Hi.
  destruct (insert_Ret_inv _ _ _ _ _ _ Hr Hi) as (a & l' & -> & Hr' & Hperm & _).
  pose proof (upd_insert v m) as Hu. rewrite Hi in Hu. unfold dom_adds in Hu.
  assert (addrs l' ≡ₚ a :: addrs l) as Hpa.
  { rewrite <- !contents_addrs, Hperm. done. }
  assert (a = fresh (dom (heap m))) as Hfresh.
  { assert (a ∈ dom (heap m')) as Ha.
    { eapply repr_allocated; [done|]. right. rewrite Hpa. left. }
    rewrite Hu in Ha. apply elem_of_union in Ha as [Ha%elem_of_singleton|Ha];
      [done|exfalso].
    pose proof (lr_nodup _ _ _ (repr_list _ _ _ _ Hr')) as Hnd.
    rewrite Hpa in Hnd. apply NoDup_cons in Hnd as [Hs Hnd].
    apply NoDup_cons in Hnd as [Hal _].
    destruct (Hd a Ha) as [->|?]; [|done]. apply Hs. left. }
  exists s, l'. split; [done|]. intros x Hx. rewrite Hu in Hx.
  apply elem_of_union in Hx as [Hx%elem_of_singleton|Hx].
  - right. rewrite Hpa, Hx, <- Hfresh. left.
  - destruct (Hd x Hx) as [->|Hxl]; [by left|right]. rewrite Hpa. by right.
Qed.

Lemma tight_erase m k m' :
  tight hasher m → erase hasher k m = Ret tt m' → tight hasher m'.
Proof.
  intros (s & l & Hr & Hd) He.
  destruct (decide (buckets_count m = 0)) as [Hz|Hz];
    [by rewrite (erase_zero_buckets _ k Hz) in He|].
  destruct (anchor (Some s) l (hasher k `mod` buckets_count m)) as [pa|] eqn:Han;
    [|by rewrite (erase_empty_bucket _ _ _ _ Hr Hz Han) in He].
  destruct (decide (k ∈ keys l)) as [(e & -> & Hel)%list_elem_of_fmap|Hk];
    [|by rewrite (erase_absent _ _ _ _ _ Hr Hz Han Hk) in He].
  destruct (erase_present _ _ _ _ Hr Hel) as (m1 & l1 & l3 & -> & He1 & Hr1 & _).
  rewrite He1 in He. injection He as <-.
  pose proof (upd_erase (e_key e) m) as Hu. rewrite He1 in Hu.
  destruct Hu as (a & Ha & Hu).
  assert (a = e_addr e) as ->.
  { assert (a ∉ dom (heap m1)) as Hna by (rewrite Hu; set_solver).
    destruct (Hd a Ha) as [->|Hal].
    - destruct Hna. eapply repr_allocated; [done|by left].
    - rewrite fmap_app, fmap_cons, elem_of_app, elem_of_cons in Hal.
      destruct Hal as [Hal|[->|Hal]]; [|done|]; destruct Hna;
        (eapply repr_allocated; [done|]); right;
        rewrite fmap_app, elem_of_app; auto. }
  exists s, (l1 ++ l3). split; [done|]. intros x Hx. rewrite Hu in Hx.
  apply elem_of_difference in Hx as [Hx Hne%not_elem_of_singleton].
  destruct (Hd x Hx) as [->|Hxl]; [by left|right].
  rewrite fmap_app, fmap_cons, elem_of_app, elem_of_cons in Hxl.
  rewrite fmap_app, elem_of_app. naive_solver.
Qed.

Lemma tight_rehash m n m' :
  tight hasher m → __rehash hasher n m = Ret tt m' → tight hasher m'.
Proof.
  intros (s & l & Hr & Hd) Hrun.
  pose proof (upd___rehash dom_same n m) as Hu. rewrite Hrun in Hu.
  destruct (decide (n ≠ 0 ∨ l = [])) as [Hn|Hn].
  - destruct (rehash_repr _ _ _ _ Hr Hn) as (m1 & l1 & Hrun1 & Hr1 & Hperm & _).
    rewrite Hrun1 in Hrun. injection Hrun as <-.
    eapply tight_same; [done|done|done|].
    intros a Ha. by rewrite <- !contents_addrs, Hperm, contents_addrs.
  - assert (n = 0) as -> by (destruct n; [done|]; destruct Hn; by left).
    rewrite (rehash_zero m s l) in Hrun; [done|done|]. intros ->. tauto.
Qed.

(** The loop of [clear] gives back the cells of the nodes it walks. *)
Lemma clear_loop_frees s : ∀ l m fuel arr,
  Elist m = Some s → chain (heap m) l (Some s) → NoDup (s :: addrs l) →
  buckets m = Some arr → (∀ e, e ∈ l → e_cached e < length arr) →
  length l < fuel →
  ∃ h' arr',
    clear_loop fuel (head_ptr l (Some s)) m
    = Ret tt (set_buckets (Some arr') (set_heap (λ _, h') m))
    ∧ h' !! s = heap m !! s
    ∧ ∀ a, a ∈ dom h' ↔ a ∈ dom (heap m) ∧ a ∉ addrs l.
Proof.
  induction l as [|x l IH]; intros m fuel arr HE Hc Hnd Harr Hlt Hf.
  { destruct fuel; [simpl in Hf; lia|]. exists (heap m), arr.
    split; [|split; [done|set_solver]].
    cbn [clear_loop head_ptr].
    rewrite bind_gets, HE, decide_True by done. destruct m. simpl in Harr.
    by subst. }
  destruct fuel as [|fuel]; [simpl in Hf; lia|]. destruct Hc as [Hx Hc].
  assert (e_cached x < length arr) as Hltx by apply Hlt, list_elem_of_here.
  assert (NoDup (e_addr x :: s :: addrs l)) as Hnd'.
  { revert Hnd. by rewrite fmap_cons, Permutation_swap. }
  apply NoDup_cons in Hnd' as [Hxn Hnd']. rewrite not_elem_of_cons in Hxn.
  destruct Hxn as [Hxs Hxl].
  destruct (IH (set_heap (delete (e_addr x))
                  (set_buckets (Some (<[e_cached x := None]> arr)) m))
               fuel (<[e_cached x := None]> arr))
    as (h' & arr' & Hrun & Hs' & Hdom).
  { done. }
  { proj_simpl. by apply chain_delete_ne. }
  { done. }
  { done. }
  { intros e He. rewrite length_insert. apply Hlt. by apply list_elem_of_further. }
  { simpl in Hf. lia. }
  exists h', arr'. split; [|split].
  - cbn [clear_loop head_ptr]. rewrite bind_gets, HE.
    rewrite decide_False by congruence. mrun. exact Hrun.
  - rewrite Hs'. proj_simpl. by rewrite lookup_delete_ne.
  - intros a. rewrite Hdom. proj_simpl.
    rewrite dom_delete_L, fmap_cons, not_elem_of_cons. set_solver.
Qed.

Lemma clear_tight m s l :
  repr hasher m s l → (∀ a, a ∈ dom (heap m) → a = s ∨ a ∈ addrs l) →
  ∃ m', clear m = Ret tt m'
    ∧ repr hasher m' s []
    ∧ (∀ a, a ∈ dom (heap m') → a = s)
    ∧ buckets_count m' = buckets_count m
    ∧ _max_load_factor m' = _max_load_factor m.
Proof.
  intros Hr Hd.
  destruct (clear_spec _ _ _ Hr) as (m' & Hclear & Hr' & Hbc & Hmlf & _).
  exists m'. split_and!; [done|done| |done|done].
  pose proof Hr as [HE Hl (arr & Harr & Ht) Hsz].
  pose proof Hl as [Hsen Hc Hnd].
  destruct (clear_loop_frees s l m (fuel_of m) arr)
    as (h' & arr' & Hrun & Hs' & Hdom); [done..| | |].
  { intros e He. rewrite (to_length _ _ _ _ _ Ht). by apply (to_cached _ _ _ _ _ Ht). }
  { by apply repr_fuel in Hr. }
  rewrite Hsen in Hs'.
  assert (heap m' = <[s := sentinel_cell (Some s)]> h') as Hheap.
  { revert Hclear. unfold clear, noexcept. rewrite bind_gets, HE.
    rewrite decide_False by done. mrun.
    erewrite bind_Ret by exact Hrun.
    mrun. by intros [= <-]. }
  intros a. rewrite Hheap, dom_insert_L, elem_of_union, elem_of_singleton.
  intros [?|Ha]; [done|]. apply Hdom in Ha as [Ha Hna].
  by destruct (Hd a Ha).
Qed.

Lemma tight_clear m m' : tight hasher m → clear m = Ret tt m' → tight hasher m'.
Proof.
  intros (s & l & Hr & Hd) Hclear.
  destruct (clear_tight _ _ _ Hr Hd) as (m1 & Hclear1 & Hr1 & Hd1 & _).
  rewrite Hclear1 in Hclear. injection Hclear as <-.
  exists s, []. split; [done|]. intros a Ha. left. by apply Hd1.
Qed.

Lemma run_op_tight m o m' :
  tight hasher m → after (run_op hasher o m) = Some m' → tight hasher m'.
Proof.
  intros Ht Hafter. pose proof Ht as (s & l & Hr & Hd).
  destruct o as [v|k|n|f|]; cbn [run_op] in Hafter.
  - rewrite after_bind_ret in Hafter.
    destruct (insert hasher v m) as [it m1|x m1| | |] eqn:Hi; try done;
      injection Hafter as <-.
    + by eapply tight_insert.
    + destruct (decide (buckets_count m = 0)) as [Hz|Hz].
      { rewrite (insert_zero_buckets _ v Hz) in Hi. by injection Hi as _ <-. }
      destruct (decide (v.1 ∈ keys l)) as [(e & Hk & He)%list_elem_of_fmap|Hk].
      * pose proof (insert_present _ _ _ _ v.2 Hr He) as Hi'.
        rewrite <- Hk, <- surjective_pairing in Hi'. rewrite Hi' in Hi.
        by injection Hi as _ <-.
      * destruct (insert_spec _ _ _ _ Hr Hz Hk) as (? & ? & Hi' & _).
        by rewrite Hi' in Hi.
  - destruct (erase hasher k m) as [[] m1|x m1| | |] eqn:He; try done;
      injection Hafter as <-.
    + by eapply tight_erase.
    + destruct (decide (buckets_count m = 0)) as [Hz|Hz].
      { rewrite (erase_zero_buckets _ k Hz) in He. by injection He as _ <-. }
      destruct (anchor (Some s) l (hasher k `mod` buckets_count m)) as [pa|] eqn:Han;
        [|by rewrite (erase_empty_bucket _ _ _ _ Hr Hz Han) in He].
      destruct (decide (k ∈ keys l)) as [(e & -> & Hel)%list_elem_of_fmap|Hk].
      * destruct (erase_present _ _ _ _ Hr Hel) as (? & ? & ? & _ & He1 & _).
        by rewrite He1 in He.
      * rewrite (erase_absent _ _ _ _ _ Hr Hz Han Hk) in He.
        by injection He as _ <-.
  - destruct (decide (n < buckets_count m)) as [Hlt|Hlt].
    { rewrite (reserve_too_small _ _ Hlt) in Hafter. by injection Hafter as <-. }
    rewrite (reserve_rehash _ _ Hlt) in Hafter.
    destruct (__rehash hasher n m) as [[] m1|x m1| | |] eqn:Hrun; try done;
      injection Hafter as <-.
    + by eapply tight_rehash.
    + pose proof (upd___rehash dom_never n m) as Hu. by rewrite Hrun in Hu.
  - destruct (Qle_bool f 0) eqn:Hf.
    + rewrite (max_load_factor_rejects _ _ Hf) in Hafter.
      by injection Hafter as <-.
    + rewrite (max_load_factor_accepts _ _ Hf) in Hafter.
      injection Hafter as <-. exists s, l. split; [|done].
      by apply repr_max_load_factor.
  - destruct (clear m) as [[] m1|x m1| | |] eqn:Hclear; try done;
      injection Hafter as <-.
    + by eapply tight_clear.
    + destruct (clear_spec _ _ _ Hr) as (? & Hc & _). by rewrite Hc in Hclear.
Qed.

Lemma run_ops_tight ops : ∀ m m',
  tight hasher m → run_ops hasher ops m = Some m' → tight hasher m'.
Proof.
  induction ops as [|o ops IH]; intros m m' Ht Hrun.
  - cbn in Hrun. by injection Hrun as <-.
  - cbn [run_ops] in Hrun.
    destruct (after (run_op hasher o m)) as [m1|] eqn:Ho; [|done].
    eapply IH; [|done]. by eapply run_op_tight.
Qed.

(** ** Destruction *)

Lemma destructor_tight m :
  tight hasher m →
  ∃ m', destructor m = Ret tt m' ∧ heap m' = ∅ ∧ buckets m' = None.
Proof.
  intros (s & l & Hr & Hd).
  destruct (clear_tight _ _ _ Hr Hd) as (m1 & Hclear & Hr1 & Hd1 & _).
  pose proof Hr1 as [HE1 Hl1 _ _]. pose proof (lr_sentinel _ _ _ Hl1) as Hs1.
  eexists. split; [|split].
  - unfold destructor, delete_Elist, delete_buckets.
    erewrite bind_Ret by exact Hclear.
    rewrite bind_assoc, bind_gets, HE1.
    erewrite bind_Ret by (by eapply delete_Node_Some). reflexivity.
  - proj_simpl. apply dom_empty_iff_L. apply elem_of_equiv_empty_L.
    intros a. rewrite dom_delete_L, elem_of_difference, not_elem_of_singleton.
    intros [Ha Hne]. by apply Hd1 in Ha.
  - done.
Qed.

(** X16. Whatever insertions, erasures, reservations, changes of the
    maximum load factor and clearings a new container has seen, its
    destructor returns and gives back every cell: the nodes, the sentinel
    and the bucket array. *)
Theorem destructor_frees_all n ops m :
  run_ops hasher ops (Unordered_Map n) = Some m →
  ∃ m', destructor m = Ret tt m' ∧ heap m' = ∅ ∧ buckets m' = None.
Proof.
  intros Hrun. apply destructor_tight.
  eapply run_ops_tight; [|done]. apply Unordered_Map_tight.
Qed.

(** ** Moving *)

Lemma move_construct_fst (other : U_Map Key Value) :
  (move_construct other).1 = other.
Proof. by destruct other. Qed.

Lemma destructor_moved_from (other : U_Map Key Value) :
  destructor (move_construct other).2 = Ret tt (move_construct other).2.
Proof. done. Qed.

(** X17. The move constructor hands the state of [other] over as it is.
    What is left of [other] holds no cell: its [clear] and its destructor
    return and give nothing back a second time, its [size()] still reports
    the old size, and its [begin()], its [show] and a copy of it read
    through a null pointer. *)
Theorem move_construct_states (other : U_Map Key Value) out :
  (move_construct other).1 = other
  ∧ heap (move_construct other).2 = ∅
  ∧ clear (move_construct other).2 = Ret tt (move_construct other).2
  ∧ destructor (move_construct other).2 = Ret tt (move_construct other).2
  ∧ size (move_construct other).2
    = Ret (_size other) (move_construct other).2
  ∧ begin (move_construct other).2 = Undefined
  ∧ show out (move_construct other).2 = Undefined
  ∧ copy_construct (move_construct other).2 = Undefined.
Proof.
  split_and!; [apply move_construct_fst|done|by apply clear_moved_from
              |apply destructor_moved_from|done..].
Qed.

Lemma release_tight m :
  tight hasher m →
  ∃ m1 m2, clear m = Ret tt m1
    ∧ delete_Elist (set_buckets None m1) = Ret tt m2
    ∧ heap m2 = ∅.
Proof.
  intros (s & l & Hr & Hd).
  destruct (clear_tight _ _ _ Hr Hd) as (m1 & Hclear & Hr1 & Hd1 & _).
  pose proof Hr1 as [HE1 Hl1 _ _]. pose proof (lr_sentinel _ _ _ Hl1) as Hs1.
  exists m1. eexists. split; [done|]. split.
  - unfold delete_Elist. rewrite bind_gets. proj_simpl. rewrite HE1.
    by eapply delete_Node_Some.
  - proj_simpl. apply dom_empty_iff_L. apply elem_of_equiv_empty_L.
    intros a. rewrite dom_delete_L, elem_of_difference, not_elem_of_singleton.
    intros [Ha Hne]. by apply Hd1 in Ha.
Qed.

(** X18. Move assignment to a container without garbage, or to one that
    was moved from, returns: the container takes the state of [other] as it
    is, every cell it held before is given back, and [other] is left as the
    move constructor leaves it. Assigning a container to itself changes
    nothing. *)
Theorem move_assign_takes m o :
  tight hasher m ∨ (∃ o', m = (move_construct o').2) →
  move_assign (Some o) m = Ret (∅, Some (move_construct o).2) o
  ∧ move_assign None m = Ret (∅, None) m.
Proof.
  intros Hm. split; [|done]. unfold move_assign. apply noexcept_Ret.
  destruct Hm as [Ht|(o' & ->)].
  - destruct (release_tight _ Ht) as (m1 & m2 & Hclear & Hdel & Hheap).
    erewrite bind_Ret by exact Hclear.
    unfold delete_buckets at 1. rewrite bind_modify.
    erewrite bind_Ret by exact Hdel.
    rewrite bind_gets, bind_modify, Hheap, move_construct_fst. done.
  - rewrite move_construct_fst. done.
Qed.

(** ** Copying *)

(** A new node is linked into the bucket of its key. *)
Lemma link_new_node m s l v buck :
  linked hasher m s l →
  buck = hasher v.1 `mod` buckets_count m → buck < buckets_count m →
  v.1 ∉ keys l →
  ∃ m2 l2,
    (if decide (anchor (Some s) l buck = None)
     then __insert_in_empty_bucket buck (Some (fresh (dom (heap m))))
     else __insert_in_nonempty_bucket buck (Some (fresh (dom (heap m)))))
      (set_heap (<[fresh (dom (heap m)) := node_cell (mkNode None buck v)]>) m)
    = Ret tt m2
    ∧ linked hasher m2 s l2
    ∧ contents l2 ≡ₚ (fresh (dom (heap m)), v) :: contents l
    ∧ dom (heap m2) = {[fresh (dom (heap m))]} ∪ dom (heap m)
    ∧ _size m2 = _size m ∧ buckets_count m2 = buckets_count m
    ∧ _max_load_factor m2 = _max_load_factor m.
Proof.
  intros (HE & Hl & arr & Harr & Ht) Hbuck Hlt Hk.
  set (a := fresh (dom (heap m))).
  assert (heap m !! a = None) as Hfresh.
  { apply not_elem_of_dom. apply is_fresh. }
  set (n := mkNode None buck v).
  set (m1 := set_heap (<[a := node_cell n]>) m).
  assert (a ≠ s) as Has
    by (intros Heq; rewrite Heq, (lr_sentinel _ _ _ Hl) in Hfresh; done).
  assert (a ∉ addrs l) as Hal.
  { intros (e & Hae & He)%list_elem_of_fmap.
    destruct (chain_elem _ _ _ _ (lr_chain _ _ _ Hl) He) as [? Hx].
    rewrite <- Hae in Hx. congruence. }
  assert (linked hasher m1 s l) as Hlk1.
  { split; [done|]. split; [by apply list_repr_alloc|]. by exists arr. }
  assert (heap m1 !! a = Some (node_cell n)) as Ha1 by apply lookup_insert_eq.
  assert (dom (heap m1) = {[a]} ∪ dom (heap m)) as Hdom1.
  { unfold m1. proj_simpl. by rewrite dom_insert_L. }
  destruct (anchor (Some s) l buck) as [pa|] eqn:Han.
  - rewrite decide_False by done.
    destruct (__insert_in_nonempty_bucket_spec m1 s l a n pa)
      as (m2 & l1 & l2 & -> & Hrun & Hlk & ? & ? & ?); [done..|].
    exists m2, (l1 ++ mkEntry a buck v :: l2).
    pose proof (upd___insert_in_nonempty_bucket dom_same (cached n) (Some a) m1)
      as Hu.
    rewrite Hrun in Hu.
    split_and!; [done|done| |by rewrite Hu|done..].
    by rewrite contents_middle.
  - rewrite decide_True by done.
    destruct (__insert_in_empty_bucket_spec m1 s l a n)
      as (m2 & Hrun & Hlk & ? & ? & ?); [done..|].
    exists m2, (mkEntry a buck v :: l).
    pose proof (upd___insert_in_empty_bucket dom_same (cached n) (Some a) m1)
      as Hu.
    rewrite Hrun in Hu.
    split_and!; [done|done|done|by rewrite Hu|done..].
Qed.

Lemma copy_loop_spec o so s : ∀ todo L m fuel,
  Elist o = Some so → chain (heap o) todo (Some so) → so ∉ addrs todo →
  linked hasher m s L →
  (∀ a, a ∈ dom (heap m) → a = s ∨ a ∈ addrs L) →
  (∀ x, x ∈ todo →
     e_cached x = hasher (e_key x) `mod` buckets_count m
     ∧ e_cached x < buckets_count m) →
  NoDup (keys todo) → (∀ x, x ∈ todo → e_key x ∉ keys L) →
  length todo < fuel →
  ∃ m' l',
    copy_loop fuel o (head_ptr todo (Some so)) m = Ret tt m'
    ∧ linked hasher m' s l'
    ∧ (∀ a, a ∈ dom (heap m') → a = s ∨ a ∈ addrs l')
    ∧ e_value <$> l' ≡ₚ e_value <$> (L ++ todo)
    ∧ _size m' = _size m ∧ buckets_count m' = buckets_count m
    ∧ _max_load_factor m' = _max_load_factor m.
Proof.
  induction todo as [|x todo IH]; intros L m fuel HEo Hc Hso Hlk Hd Hca Hnd Hnew Hf.
  { destruct fuel; [simpl in Hf; lia|]. exists m, L.
    split; [|by rewrite app_nil_r].
    cbn [copy_loop head_ptr]. erewrite bind_on_other by reflexivity.
    by rewrite HEo, decide_True. }
  destruct fuel as [|fuel]; [simpl in Hf; lia|]. destruct Hc as [Hx Hc].
  rewrite fmap_cons, not_elem_of_cons in Hso. destruct Hso as [Hsox Hso].
  destruct (Hca x (list_elem_of_here _ _)) as [Hcx Hltx].
  rewrite fmap_cons in Hnd. apply NoDup_cons in Hnd as [Hkx Hnd].
  destruct (link_new_node m s L (e_value x) (e_cached x))
    as (m2 & l2 & Hrun & Hlk2 & Hperm & Hdom2 & Hsz2 & Hbc2 & Hmlf2);
    [done|done|done|by apply Hnew, list_elem_of_here|].
  set (a := fresh (dom (heap m))) in *.
  assert (addrs l2 ≡ₚ a :: addrs L) as Hpa.
  { rewrite <- !contents_addrs, Hperm. done. }
  assert (e_value <$> l2 ≡ₚ e_value x :: (e_value <$> L)) as Hpv.
  { rewrite <- !contents_values, Hperm. done. }
  assert (keys l2 ≡ₚ e_key x :: keys L) as Hpk.
  { rewrite <- !items_keys, Hpv. done. }
  destruct (IH l2 m2 fuel) as (m' & l' & Hrun' & Hlk' & Hd' & Hpv' & Hsz' & Hbc' & Hmlf');
    [done|done|done|done| | |done| |simpl in Hf; lia|].
  { intros b Hb. rewrite Hdom2 in Hb.
    apply elem_of_union in Hb as [Hb%elem_of_singleton|Hb].
    - right. rewrite Hpa, Hb. left.
    - destruct (Hd b Hb) as [->|?]; [by left|right]. rewrite Hpa. by right. }
  { intros y Hy. rewrite Hbc2. by apply Hca, list_elem_of_further. }
  { intros y Hy. rewrite Hpk, not_elem_of_cons. split.
    - intros Heq. apply Hkx. rewrite <- Heq. by apply list_elem_of_fmap_2.
    - by apply Hnew, list_elem_of_further. }
  exists m', l'. split_and!; [|done|done| |congruence..].
  - destruct Hlk as (HE & Hl & arr & Harr & Ht).
    cbn [copy_loop head_ptr]. erewrite bind_on_other by reflexivity.
    rewrite HEo, decide_False by congruence.
    erewrite bind_on_other by (by eapply get_value_Some).
    erewrite bind_on_other by (by eapply get_cached_Some).
    cbn [value cached]. erewrite bind_Ret by reflexivity.
    erewrite bind_Ret by (eapply get_cached_Some; apply lookup_insert_eq).
    cbn [cached].
    erewrite bind_Ret by (eapply get_bucket_Some; [exact Harr|by apply Ht]).
    fold a in Hrun |- *.
    destruct (anchor (Some s) L (e_cached x)) as [pa|] eqn:Han.
    + rewrite decide_False in Hrun |- * by done.
      rewrite bind_assoc.
      erewrite bind_Ret by (eapply get_cached_Some; apply lookup_insert_eq).
      cbn [cached]. erewrite bind_Ret by exact Hrun.
      erewrite bind_on_other by (by eapply get_next_node_Some).
      exact Hrun'.
    + rewrite decide_True in Hrun |- * by done.
      rewrite bind_assoc.
      erewrite bind_Ret by (eapply get_cached_Some; apply lookup_insert_eq).
      cbn [cached]. erewrite bind_Ret by exact Hrun.
      erewrite bind_on_other by (by eapply get_next_node_Some).
      exact Hrun'.
  - rewrite Hpv', !fmap_app, Hpv, fmap_cons.
    by rewrite <- Permutation_middle.
Qed.

Lemma copy_construct_repr o so lo :
  repr hasher o so lo →
  ∃ m' s l',
    copy_construct o = Ret tt m'
    ∧ repr hasher m' s l'
    ∧ (∀ a, a ∈ dom (heap m') → a = s ∨ a ∈ addrs l')
    ∧ e_value <$> l' ≡ₚ e_value <$> lo
    ∧ buckets_count m' = buckets_count o
    ∧ _max_load_factor m' = _max_load_factor o.
Proof.
  intros Hr. pose proof Hr as [HEo Hlo (arro & Harro & Hto) Hszo].
  set (s := fresh (dom (∅ : gmap nat (cell Key Value)))).
  set (m0 := set_buckets (Some (replicate (buckets_count o) None))
               (__create_Elist
                  (mkMap ∅ None (_size o) (buckets_count o) None
                         (_max_load_factor o) : U_Map Key Value))).
  destruct (copy_loop_spec o so s lo [] m0 (fuel_of o))
    as (m' & l' & Hrun & Hlk & Hd & Hpv & Hsz & Hbc & Hmlf).
  - done.
  - apply Hlo.
  - by eapply list_repr_not_sentinel.
  - split; [done|]. split.
    + split; [apply lookup_insert_eq|done|apply NoDup_singleton].
    + eexists. split; [done|]. apply table_ok_nil.
  - intros a Ha. left. unfold m0, __create_Elist in Ha.
    cbn [heap set_heap set_Elist set_buckets] in Ha.
    rewrite dom_insert_L, dom_empty_L in Ha.
    by apply elem_of_union in Ha as [Ha%elem_of_singleton|?%elem_of_empty].
  - intros x Hx. by apply (to_cached _ _ _ _ _ Hto).
  - apply (to_keys _ _ _ _ _ Hto).
  - intros x Hx. by intros ?%elem_of_nil.
  - by eapply repr_fuel.
  - exists m', s, l'. split_and!; [|apply repr_linked|done|done|done|done].
    + unfold copy_construct. fold m0.
      erewrite bind_on_other by reflexivity. rewrite HEo.
      erewrite bind_on_other
        by (eapply get_next_node_Some, (lr_sentinel _ _ _ Hlo)).
      erewrite bind_on_other by reflexivity. exact Hrun.
    + split; [done|]. rewrite Hsz. change (_size m0) with (_size o).
      rewrite Hszo. apply Permutation_length in Hpv.
      by rewrite !length_fmap in Hpv.
Qed.

Lemma release_spec m :
  tight hasher m ∨ (∃ o', m = (move_construct o').2) →
  ∃ m1 m2, clear m = Ret tt m1
    ∧ delete_Elist (set_buckets None m1) = Ret tt m2
    ∧ heap m2 = ∅.
Proof.
  intros [Ht|(o' & ->)]; [by apply release_tight|].
  by exists (move_construct o').2, (move_construct o').2.
Qed.

(** X19. The copy constructor returns on every well-formed container: the
    copy is well formed, holds the same pairs, possibly in another order,
    and has the same size, bucket count and maximum load factor; its
    destructor gives back every cell it has allocated. *)
Theorem copy_construct_items o kvs :
  well_formed hasher o → items o = Ret kvs o →
  ∃ m' kvs',
    copy_construct o = Ret tt m'
    ∧ well_formed hasher m'
    ∧ items m' = Ret kvs' m'
    ∧ kvs' ≡ₚ kvs
    ∧ size m' = Ret (length kvs) m'
    ∧ buckets_number m' = Ret (buckets_count o) m'
    ∧ max_load_factor_get m' = Ret (_max_load_factor o) m'
    ∧ ∃ m'', destructor m' = Ret tt m'' ∧ heap m'' = ∅.
Proof.
  intros (so & lo & Hr) Hitems. rewrite (items_spec _ _ _ Hr) in Hitems.
  injection Hitems as <-.
  destruct (copy_construct_repr _ _ _ Hr)
    as (m' & s & l' & Hrun & Hr' & Hd & Hpv & Hbc & Hmlf).
  exists m', (e_value <$> l'). split_and!.
  - done.
  - by exists s, l'.
  - by eapply items_spec.
  - done.
  - unfold size. apply noexcept_Ret. unfold gets.
    rewrite (repr_size _ _ _ _ Hr'). f_equal.
    apply Permutation_length in Hpv. rewrite !length_fmap in Hpv.
    by rewrite length_fmap.
  - unfold buckets_number. apply noexcept_Ret. unfold gets. by rewrite Hbc.
  - unfold max_load_factor_get. apply noexcept_Ret. unfold gets.
    by rewrite Hmlf.
  - destruct (destructor_tight m') as (m'' & ? & ? & _); [by exists s, l'|].
    by exists m''.
Qed.

Lemma operator_eq_same_keys a sa (la : list (entry Key Value)) b sb
    (lb : list (entry Key Value)) :
  repr hasher a sa la → repr hasher b sb lb →
  buckets_count a = buckets_count b →
  (∀ k, k ∈ keys la ↔ k ∈ keys lb) →
  operator_eq b a = Ret true a.
Proof.
  intros Hra Hrb Hbc Hsame.
  pose proof Hra as [HEa Hla (arra & Harra & Hta) Hsza].
  pose proof Hrb as [HEb Hlb (arrb & Harrb & Htb) Hszb].
  assert (_size a = _size b) as Hsz.
  { rewrite Hsza, Hszb.
    rewrite <- (length_fmap e_key la), <- (length_fmap e_key lb).
    apply Permutation_length. apply NoDup_Permutation; [|by eapply to_keys|done].
    by eapply to_keys. }
  assert (∀ x, x ∈ la →
            e_cached x = hasher (e_key x) `mod` buckets_count b
            ∧ e_cached x < buckets_count b) as Hca.
  { intros x Hx. rewrite <- Hbc. by apply (to_cached _ _ _ _ _ Hta). }
  unfold operator_eq. apply noexcept_Ret. rewrite bind_gets.
  erewrite bind_on_other by reflexivity.
  rewrite decide_False by (intros Hne; by apply Hne).
  rewrite bind_gets, HEa.
  erewrite bind_Ret by (eapply get_next_node_Some, (lr_sentinel _ _ _ Hla)).
  rewrite bind_gets. cbn [cell_next].
  rewrite (operator_eq_loop_spec a sa b sb lb la);
    [|done|apply Hla|by eapply list_repr_not_sentinel|done|done
     |by eapply repr_fuel].
  erewrite eq_walk_complete; [done|done| |].
  - intros x Hx. by apply Hca.
  - intros x Hx. apply Hsame. by apply list_elem_of_fmap_2.
Qed.

(** X20. A copy compares equal to the container it was copied from, in
    both directions, and [operator!=] returns false on them. *)
Theorem copy_equals_original o :
  well_formed hasher o →
  ∃ m', copy_construct o = Ret tt m'
    ∧ operator_eq o m' = Ret true m'
    ∧ operator_eq m' o = Ret true o
    ∧ operator_ne o m' = Ret false m'.
Proof.
  intros (so & lo & Hr).
  destruct (copy_construct_repr _ _ _ Hr)
    as (m' & s & l' & Hrun & Hr' & Hd & Hpv & Hbc & Hmlf).
  assert (∀ k, k ∈ keys l' ↔ k ∈ keys lo) as Hsame.
  { intros k. by rewrite <- !items_keys, Hpv. }
  assert (operator_eq o m' = Ret true m') as Heq
    by by eapply operator_eq_same_keys.
  exists m'. split_and!; [done|done| |].
  - eapply operator_eq_same_keys; [done|done|done|]. intros k. by rewrite Hsame.
  - unfold operator_ne. apply noexcept_Ret. by erewrite bind_Ret by exact Heq.
Qed.

(** X21. Copy assignment to a container without garbage, or to one that
    was moved from, returns on every well-formed [other]: afterwards the
    container is well formed and holds the pairs of [other], with its size,
    bucket count and maximum load factor, and every cell it held before has
    been given back. Assigning a container to itself changes nothing. *)
Theorem copy_assign_items m o kvs :
  tight hasher m ∨ (∃ o', m = (move_construct o').2) →
  well_formed hasher o → items o = Ret kvs o →
  (∃ m' kvs',
     copy_assign (Some o) m = Ret ∅ m'
     ∧ well_formed hasher m'
     ∧ items m' = Ret kvs' m'
     ∧ kvs' ≡ₚ kvs
     ∧ size m' = Ret (length kvs) m'
     ∧ buckets_number m' = Ret (buckets_count o) m')
  ∧ copy_assign None m = Ret ∅ m.
Proof.
  intros Hm (so & lo & Hr) Hitems. split; [|done].
  rewrite (items_spec _ _ _ Hr) in Hitems. injection Hitems as <-.
  destruct (copy_construct_repr _ _ _ Hr)
    as (tmp & s & l' & Hcopy & Hr' & Hd & Hpv & Hbc & Hmlf).
  destruct (release_spec _ Hm) as (m1 & m2 & Hclear & Hdel & Hheap).
  exists tmp, (e_value <$> l'). split_and!.
  2: by exists s, l'.
  2: by eapply items_spec.
  2: done.
  2: { unfold size. apply noexcept_Ret. unfold gets.
       rewrite (repr_size _ _ _ _ Hr'). f_equal.
       apply Permutation_length in Hpv. rewrite !length_fmap in Hpv.
       by rewrite length_fmap. }
  2: { unfold buckets_number. apply noexcept_Ret. unfold gets. by rewrite Hbc. }
  unfold copy_assign.
  erewrite bind_Ret by (cbv beta; rewrite Hcopy; reflexivity).
  erewrite bind_Ret by exact Hclear.
  unfold delete_buckets at 1. rewrite bind_modify.
  erewrite bind_Ret by exact Hdel.
  rewrite bind_gets, bind_modify, Hheap, move_construct_fst.
  erewrite bind_Ret
    by (unfold run_on; rewrite destructor_moved_from; reflexivity).
  done.
Qed.

(** ** The cells of a container *)

(** X22. Whatever insertions, erasures, reservations, changes of the
    maximum load factor and clearings a new container has seen, it holds
    one more cell than [size()] says: the sentinel and one node for each
    pair, no node of an erased pair and no other cell. *)
Theorem cells_match_size n ops m :
  run_ops hasher ops (Unordered_Map n) = Some m →
  ∃ k, size m = Ret k m ∧ base.size (heap m) = S k.
Proof.
  intros Hrun.
  destruct (run_ops_tight ops (Unordered_Map n) m (Unordered_Map_tight n) Hrun)
    as (s & l & Hr & Hd).
  exists (_size m). split; [done|].
  assert (dom (heap m) = list_to_set (s :: addrs l)) as Hdom.
  { apply set_eq. intros a. rewrite elem_of_list_to_set, elem_of_cons. split.
    - apply Hd.
    - by eapply repr_allocated. }
  rewrite <- size_dom, Hdom.
  rewrite size_list_to_set by apply (lr_nodup _ _ _ (repr_list _ _ _ _ Hr)).
  cbn [length]. by rewrite length_fmap, (repr_size _ _ _ _ Hr).
Qed.


End Proofs.

(** ** The claims on containers of integers *)

Lemma int_map_well_formed n ops : well_formed hash_int (int_map n ops).
Proof.
  unfold int_map.
  destruct (run_ops hash_int ops (Unordered_Map n)) as [m|] eqn:Hrun.
  - eapply run_ops_well_formed; [|done]. apply Unordered_Map_well_formed.
  - apply Unordered_Map_well_formed.
Qed.

(** C2: the code at the failing input. The key 7 is not in the new
    container and its bucket is empty: [erase] reads [buckets[7]->next_node]
    through a null pointer instead of throwing [KeyNotFound]. *)
Lemma erase_absent_key_empty_bucket :
  erase hash_int 7 empty_map = Undefined.
Proof. vm_compute. reflexivity. Qed.

(** C3: the code at the failing input. The containers {1} and {2} have the
    same size and different keys: [operator==] reads
    [other.buckets[1]->next_node] through a null pointer instead of
    returning false. *)
Lemma operator_eq_different_keys :
  operator_eq map_two map_one = Undefined.
Proof. vm_compute. reflexivity. Qed.

(** C4: the code at the failing input. With a maximum load factor of 1/2,
    six insertions into ten buckets leave six entries in ten buckets: the
    quotient of [_size / buckets_count] is taken in [size_t], so it is 0 and
    no rehash happens. With the default factor the eleven keys of the
    scenario end in twenty buckets and are all found. *)
Lemma load_factor_exceeded :
  size half_loaded = Ret 6 half_loaded
  ∧ buckets_number half_loaded = Ret 10 half_loaded
  ∧ max_load_factor_get half_loaded = Ret (1 # 2)%Q half_loaded
  ∧ (1 # 2 < 6 # 10)%Q
  ∧ buckets_number eleven_keys = Ret 20 eleven_keys
  ∧ Forall (λ k, contains hash_int k eleven_keys = Ret true eleven_keys)
      (seq 0 11).
Proof.
  split_and!; try (vm_compute; reflexivity).
  repeat constructor; vm_compute; reflexivity.
Qed.

(** C1 on an instance: a second key of bucket 1 is inserted into the
    container that holds the key 1. *)
Lemma anchor_invariant_maintained_witness :
  ∃ m', after (insert hash_int (11, 2) map_one) = Some m'
    ∧ well_formed hash_int m' ∧ anchor_invariant hash_int m'.
Proof.
  eexists. split; [vm_compute; reflexivity|].
  destruct (anchor_invariant_maintained hash_int map_one
              (int_map_well_formed _ _)) as (_ & Hinsert & _).
  apply (Hinsert (11, 2)). vm_compute. reflexivity.
Defined.

(** C5 on an instance: the key 1 is inserted twice. *)
Lemma insert_duplicate_rejected_witness :
  insert hash_int (1, 99) map_one = Throw DuplicateKey map_one
  ∧ size map_one = Ret 1 map_one.
Proof.
  destruct (insert_duplicate_rejected hash_int empty_map
              (int_map_well_formed _ _)) as (_ & Htwice).
  apply (Htwice 1 10 99 (Some 1) map_one). vm_compute. reflexivity.
Defined.

(** C6 as stated fails on the container constructed with no bucket: the
    key 5 is not in it, and [find] does not return the end marker; the throw
    of [__hash] cannot leave [__find], which is [noexcept]. *)
Lemma find_absent_without_buckets :
  items no_buckets = Ret [] no_buckets
  ∧ find hash_int 5 no_buckets = Terminate
  ∧ find hash_int 5 no_buckets ≠ end_ no_buckets.
Proof. split_and!; [vm_compute; reflexivity..|]. vm_compute. discriminate. Qed.

(** C6, as amended, on an instance: the pair (1, 10) is inserted, then
    another key is inserted and the container is rehashed by [reserve]; and
    the key 5 is absent from the container that holds the key 1. *)
Lemma find_round_trip_witness :
  (let m2 := int_map 10 [Insert (1, 10); Insert (2, 20); Reserve 40] in
   find hash_int 1 m2 = Ret (Some 1) m2 ∧ deref (Some 1) m2 = Ret (1, 10) m2)
  ∧ find hash_int 5 map_one = end_ map_one.
Proof.
  destruct (find_round_trip hash_int empty_map (int_map_well_formed _ _))
    as (Hkept & _).
  destruct (find_round_trip hash_int map_one (int_map_well_formed _ _))
    as (_ & _ & Habsent).
  split.
  - apply (Hkept 1 10 (Some 1) map_one [Insert (2, 20); Reserve 40]).
    + vm_compute. reflexivity.
    + repeat constructor; discriminate.
    + vm_compute. reflexivity.
  - apply (Habsent [(1, 10)] 5).
    + vm_compute. discriminate.
    + vm_compute. reflexivity.
    + intros [[=]|[]%elem_of_nil]%elem_of_cons.
Defined.

(** C7 as stated fails on the container constructed with no bucket: it has
    no bucket, and its bucket array and its sentinel are there, it was not
    moved from; [find], [contains], [at] and [operator[]] end in
    [std::terminate], not in an exception; and a container that was moved
    from keeps its bucket count. *)
Lemma zero_buckets_without_move :
  buckets_count no_buckets = 0
  ∧ buckets no_buckets = Some []
  ∧ Elist no_buckets ≠ None
  ∧ find hash_int 5 no_buckets = Terminate
  ∧ contains hash_int 5 no_buckets = Terminate
  ∧ at_ hash_int 5 no_buckets = Terminate
  ∧ operator_index hash_int 0 5 no_buckets = Terminate
  ∧ buckets_count (move_construct map_one).2 = 10.
Proof. split_and!; try (vm_compute; reflexivity). vm_compute. discriminate. Qed.

(** C7, as amended, on an instance. *)
Lemma zero_buckets_InvalidState_witness :
  insert hash_int (5, 0) no_buckets = Throw InvalidState no_buckets
  ∧ erase hash_int 5 no_buckets = Throw InvalidState no_buckets.
Proof.
  destruct (zero_buckets_InvalidState (Value := nat) hash_int)
    as (Hinsert & Herase & _).
  split; [apply Hinsert|apply Herase]; reflexivity.
Defined.

(** C8 on an instance: five buckets asked of a container of ten, and a
    maximum load factor of 0. *)
Lemma invalid_arguments_rejected_witness :
  reserve hash_int 5 empty_map = Throw InvalidArgument_reserve empty_map
  ∧ max_load_factor 0 empty_map
    = Throw InvalidArgument_load_factor empty_map.
Proof.
  destruct (invalid_arguments_rejected hash_int empty_map) as (Hr & Hf).
  split; [apply Hr|apply Hf].
  - vm_compute. lia.
  - discriminate.
Defined.

(** C9 on an instance: the container that holds the key 1 is cleared. *)
Lemma clear_idempotent_witness :
  ∃ m', clear map_one = Ret tt m'
    ∧ well_formed hash_int m'
    ∧ size m' = Ret 0 m'
    ∧ begin m' = end_ m'
    ∧ buckets_number m' = Ret (buckets_count map_one) m'
    ∧ clear m' = Ret tt m'
    ∧ (_size map_one = 0 → m' = map_one).
Proof. exact (clear_idempotent hash_int map_one (int_map_well_formed _ _)). Defined.

(** C10 on an instance: the insertion into a container of one bucket
    reaches the maximum load factor and rehashes to two buckets. *)
Lemma insert_returns_position_witness :
  ∃ it m', insert hash_int (5, 50) (int_map 1 []) = Ret it m'
    ∧ buckets_count m' = 2
    ∧ deref it m' = Ret (5, 50) m'.
Proof.
  eexists _, _. split; [vm_compute; reflexivity|]. split; [reflexivity|].
  eapply (insert_returns_position hash_int (int_map 1 []));
    [apply int_map_well_formed|].
  vm_compute. reflexivity.
Defined.

(** ** Further properties on containers of integers *)

(** X1 on an instance. The traversal of the container that holds the key 1. *)
Lemma items_consistent_witness :
  ∃ kvs, items map_one = Ret kvs map_one
    ∧ NoDup kvs.*1 ∧ size map_one = Ret (length kvs) map_one.
Proof. exact (items_consistent hash_int map_one (int_map_well_formed _ _)). Defined.

(** X2 on an instance. [contains] on the container that holds the key 1. *)
Lemma contains_items_witness :
  contains hash_int 1 map_one = Ret true map_one
  ∧ contains hash_int 2 map_one = Ret false map_one.
Proof.
  split.
  - rewrite (contains_items hash_int map_one [(1, 10)] 1);
      [reflexivity|apply int_map_well_formed|vm_compute; discriminate
      |vm_compute; reflexivity].
  - rewrite (contains_items hash_int map_one [(1, 10)] 2);
      [reflexivity|apply int_map_well_formed|vm_compute; discriminate
      |vm_compute; reflexivity].
Defined.

(** X3 on an instance. The key 1 is erased from a bucket that it shares with the key 11. *)
Lemma erase_present_removes_witness :
  let m := int_map 10 [Insert (1, 10); Insert (11, 110)] in
  ∃ m' kvs', erase hash_int 1 m = Ret tt m'
    ∧ well_formed hash_int m'
    ∧ items m' = Ret kvs' m'
    ∧ (∀ kv, kv ∈ kvs' ↔ kv ∈ [(11, 110); (1, 10)] ∧ kv.1 ≠ 1)
    ∧ size m' = Ret 1 m'
    ∧ find hash_int 1 m' = end_ m'.
Proof.
  intros m.
  apply (erase_present_removes hash_int m [(11, 110); (1, 10)] 1);
    [apply int_map_well_formed|vm_compute; reflexivity|].
  apply list_elem_of_further, list_elem_of_here.
Defined.

(** X4 on an instance. The key 11 is absent from the container that holds the key 1 of the
    same bucket. *)
Lemma erase_absent_nonempty_bucket_witness :
  erase hash_int 11 map_one = Throw KeyNotFound map_one.
Proof.
  apply (erase_absent_nonempty_bucket hash_int map_one [(1, 10)] 11 0);
    [apply int_map_well_formed|vm_compute; discriminate|vm_compute; reflexivity
    | |vm_compute; reflexivity].
  intros [[=]|[]%elem_of_nil]%elem_of_cons.
Defined.

(** X5 on an instance. The sixth insertion under a maximum load factor of 1/2 keeps the ten
    buckets. *)
Lemma insert_rehash_trigger_witness :
  let m := int_map 10 (SetMaxLoadFactor (1 # 2)%Q :: insert_keys 5) in
  buckets_count half_loaded
  = if Qle_bool (_max_load_factor m)
         (inject_Z (Z.of_nat (S (_size m) `div` buckets_count m)))
    then buckets_count m * 2 else buckets_count m.
Proof.
  intros m.
  apply (insert_rehash_trigger hash_int m (5, 0) (Some 6) half_loaded);
    [apply int_map_well_formed|vm_compute; reflexivity].
Defined.

(** X6 on an instance. The tenth insertion into ten buckets under the default maximum load
    factor doubles them. *)
Lemma insert_load_default_witness :
  let m := int_map 10 (insert_keys 9) in
  let m' := int_map 10 (insert_keys 10) in
  _size m' < buckets_count m'
  ∧ (S (_size m) = buckets_count m → buckets_count m' = buckets_count m * 2).
Proof.
  intros m m'.
  apply (insert_load_default hash_int m (9, 0) (Some 10) m');
    [apply int_map_well_formed|reflexivity|vm_compute; lia
    |vm_compute; reflexivity].
Defined.

(** X7 on an instance. Two containers of ten buckets that hold the key 1 with different values
    compare equal. *)
Lemma operator_eq_same_buckets_witness :
  operator_eq (int_map 10 [Insert (1, 99)]) map_one = Ret true map_one.
Proof.
  destruct (operator_eq_same_buckets hash_int map_one
              (int_map 10 [Insert (1, 99)]) [(1, 10)] [(1, 99)]
              (int_map_well_formed _ _) (int_map_well_formed _ _)
              eq_refl eq_refl eq_refl) as [Hsame _].
  apply Hsame. intros k. reflexivity.
Defined.

(** ** The further properties on containers of integers, continued *)

Lemma int_map_tight n ops : tight hash_int (int_map n ops).
Proof.
  unfold int_map.
  destruct (run_ops hash_int ops (Unordered_Map n)) as [m|] eqn:Hrun.
  - eapply run_ops_tight; [|done]. apply Unordered_Map_tight.
  - apply Unordered_Map_tight.
Qed.

(** X8 on an instance. The key 1 is in the container that holds it, the
    key 2 is not. *)
Lemma at_items_witness :
  (∃ it, at_ hash_int 1 map_one = Ret it map_one
     ∧ deref it map_one = Ret (1, 10) map_one)
  ∧ at_ hash_int 2 map_one = Throw (out_of_range "map out of range") map_one.
Proof.
  split.
  - apply (at_items hash_int map_one [(1, 10)] 1);
      [apply int_map_well_formed|vm_compute; reflexivity|].
    apply list_elem_of_here.
  - apply (at_items hash_int map_one [(1, 10)] 2);
      [apply int_map_well_formed|vm_compute; reflexivity
      |vm_compute; discriminate|].
    intros [[=]|[]%elem_of_nil]%elem_of_cons.
Defined.

(** X9 on an instance. [m[1]] and [m[2]] on the container that holds the
    key 1, with 0 as the default value. *)
Lemma operator_index_items_witness :
  (∃ it, operator_index hash_int 0 1 map_one = Ret it map_one
     ∧ deref it map_one = Ret (1, 10) map_one)
  ∧ (∃ it m' kvs',
       operator_index hash_int 0 2 map_one = Ret it m'
       ∧ deref it m' = Ret (2, 0) m'
       ∧ well_formed hash_int m'
       ∧ items m' = Ret kvs' m'
       ∧ kvs' ≡ₚ [(2, 0); (1, 10)]).
Proof.
  split.
  - apply (operator_index_items hash_int map_one [(1, 10)] 0 1);
      [apply int_map_well_formed|vm_compute; reflexivity|].
    apply list_elem_of_here.
  - apply (operator_index_items hash_int map_one [(1, 10)] 0 2);
      [apply int_map_well_formed|vm_compute; reflexivity
      |vm_compute; discriminate|].
    intros [[=]|[]%elem_of_nil]%elem_of_cons.
Defined.

(** X10 on an instance. The pair (2, 20) is inserted into the container
    that holds the key 1. *)
Lemma insert_adds_pair_witness :
  ∃ it m' kvs',
    insert hash_int (2, 20) map_one = Ret it m'
    ∧ well_formed hash_int m'
    ∧ items m' = Ret kvs' m'
    ∧ kvs' ≡ₚ [(2, 20); (1, 10)]
    ∧ size m' = Ret 2 m'.
Proof.
  apply (insert_adds_pair hash_int map_one [(1, 10)] (2, 20));
    [apply int_map_well_formed|vm_compute; discriminate
    |vm_compute; reflexivity|].
  intros [[=]|[]%elem_of_nil]%elem_of_cons.
Defined.


(** X12 on an instance. The pair (2, 20) is inserted into the container
    that holds the key 1 and erased again. *)
Lemma insert_then_erase_witness :
  ∃ it m1 m2 kvs2,
    insert hash_int (2, 20) map_one = Ret it m1
    ∧ erase hash_int 2 m1 = Ret tt m2
    ∧ well_formed hash_int m2
    ∧ items m2 = Ret kvs2 m2
    ∧ kvs2 ≡ₚ [(1, 10)]
    ∧ size m2 = Ret 1 m2.
Proof.
  apply (insert_then_erase hash_int map_one [(1, 10)] (2, 20));
    [apply int_map_well_formed|vm_compute; discriminate
    |vm_compute; reflexivity|].
  intros [[=]|[]%elem_of_nil]%elem_of_cons.
Defined.

(** X13 on an instance. The new container and the container that holds the
    key 1. *)
Lemma empty_items_witness :
  (∃ b, empty empty_map = Ret b empty_map
     ∧ (b = true ↔ ([] : list (nat * nat)) = [])
     ∧ (begin empty_map = end_ empty_map ↔ ([] : list (nat * nat)) = []))
  ∧ (∃ b, empty map_one = Ret b map_one
       ∧ (b = true ↔ [(1, 10)] = [])
       ∧ (begin map_one = end_ map_one ↔ [(1, 10)] = [])).
Proof.
  split.
  - apply (empty_items hash_int empty_map []);
      [apply int_map_well_formed|vm_compute; reflexivity].
  - apply (empty_items hash_int map_one [(1, 10)]);
      [apply int_map_well_formed|vm_compute; reflexivity].
Defined.

(** X14 on an instance. The values 110 and 10 of the keys 11 and 1. *)
Lemma show_writes_values_witness :
  let m := int_map 10 [Insert (1, 10); Insert (11, 110)] in
  show [] m
  = Ret [out_value 110; out_string " "; out_value 10; out_string " "] m.
Proof.
  intros m.
  apply (show_writes_values hash_int m [(11, 110); (1, 10)] []);
    [apply int_map_well_formed|vm_compute; reflexivity].
Defined.

(** X15 on an instance. Eleven insertions into ten buckets. *)
Lemma buckets_never_shrink_witness :
  buckets_count (Unordered_Map 10 : U_Map nat nat) ≤ buckets_count eleven_keys.
Proof.
  apply (buckets_never_shrink hash_int (insert_keys 11));
    [apply Unordered_Map_well_formed|vm_compute; reflexivity].
Defined.

(** X16 on an instance. Two insertions into one bucket and an erasure. *)
Lemma destructor_frees_all_witness :
  ∃ m', destructor (int_map 10 [Insert (1, 10); Insert (11, 110); Erase 1])
        = Ret tt m'
    ∧ heap m' = ∅ ∧ buckets m' = None.
Proof.
  apply (destructor_frees_all hash_int 10
           [Insert (1, 10); Insert (11, 110); Erase 1]).
  vm_compute. reflexivity.
Defined.

(** X18 on an instance. The container that holds the key 2 is moved into
    the container that holds the key 1. *)
Lemma move_assign_takes_witness :
  move_assign (Some map_two) map_one
  = Ret (∅, Some (move_construct map_two).2) map_two
  ∧ move_assign None map_one = Ret (∅, None) map_one.
Proof.
  apply (move_assign_takes hash_int map_one map_two).
  left. apply int_map_tight.
Defined.

(** X19 on an instance. A container with two keys of one bucket is
    copied. *)
Lemma copy_construct_items_witness :
  let o := int_map 10 [Insert (1, 10); Insert (11, 110)] in
  ∃ m' kvs',
    copy_construct o = Ret tt m'
    ∧ well_formed hash_int m'
    ∧ items m' = Ret kvs' m'
    ∧ kvs' ≡ₚ [(11, 110); (1, 10)]
    ∧ size m' = Ret 2 m'
    ∧ buckets_number m' = Ret 10 m'
    ∧ max_load_factor_get m' = Ret 1%Q m'
    ∧ ∃ m'', destructor m' = Ret tt m'' ∧ heap m'' = ∅.
Proof.
  intros o.
  apply (copy_construct_items hash_int o [(11, 110); (1, 10)]);
    [apply int_map_well_formed|vm_compute; reflexivity].
Defined.

(** X20 on an instance. The container that holds the key 1 and its copy. *)
Lemma copy_equals_original_witness :
  ∃ m', copy_construct map_one = Ret tt m'
    ∧ operator_eq map_one m' = Ret true m'
    ∧ operator_eq m' map_one = Ret true map_one
    ∧ operator_ne map_one m' = Ret false m'.
Proof. apply (copy_equals_original hash_int map_one), int_map_well_formed. Defined.

(** X21 on an instance. The container that holds the key 2 is assigned to
    the container that holds the key 1. *)
Lemma copy_assign_items_witness :
  (∃ m' kvs',
     copy_assign (Some map_two) map_one = Ret ∅ m'
     ∧ well_formed hash_int m'
     ∧ items m' = Ret kvs' m'
     ∧ kvs' ≡ₚ [(2, 20)]
     ∧ size m' = Ret 1 m'
     ∧ buckets_number m' = Ret 10 m')
  ∧ copy_assign None map_one = Ret ∅ map_one.
Proof.
  apply (copy_assign_items hash_int map_one map_two [(2, 20)]);
    [left; apply int_map_tight|apply int_map_well_formed
    |vm_compute; reflexivity].
Defined.

(** X22 on an instance. Two insertions into one bucket and an erasure. *)
Lemma cells_match_size_witness :
  let m := int_map 10 [Insert (1, 10); Insert (11, 110); Erase 1] in
  ∃ k, size m = Ret k m ∧ base.size (heap m) = S k.
Proof.
  intros m.
  apply (cells_match_size hash_int 10
           [Insert (1, 10); Insert (11, 110); Erase 1]).
  vm_compute. reflexivity.
Defined.

